(** * osrm-backend: the shared-memory publisher and the unpacking cache

    A shallow embedding of
    - [include/engine/unpacking_cache.hpp] (the hashed unpacking cache), and
    - [src/storage/storage.cpp] ([readBlocks], [setupRegion], [swapData],
      [Storage::Run] and the layout and data population functions),
    followed by the properties of the publish protocol. *)

From Stdlib Require Import ZArith List String Ascii Bool Lia.
From stdpp Require Import gmap strings list fin_maps.

Local Open Scope Z_scope.

(* ===================================================================== *)
(** * Part I: the unpacking cache *)
(* ===================================================================== *)

Module Cache.

(** The header holds two definitions of [class UnpackingCache] one after the
    other; the one embedded here is the first (lines 1-86), which keys its
    store by [HashKey]. *)

(** ** Key, hash and duration types ([unpacking_cache.hpp], lines 14-17) *)

(** [NodeID] is [std::uint32_t], [ExcludeIndex] is [unsigned char],
    [Timestamp] is [unsigned]; all are carried as [Z]. *)
Definition NodeID := Z.
Definition ExcludeIndex := Z.
Definition Timestamp := Z.
Definition Key : Type := NodeID * NodeID * ExcludeIndex * Timestamp.
Definition HashedKey := Z.
Definition EdgeDuration := Z.

(** A key as the C++ types can hold it. *)
Definition key_in_range (k : Key) : Prop :=
  let '(u, v, x, t) := k in
  0 <= u < 2 ^ 32 /\ 0 <= v < 2 ^ 32 /\ 0 <= x < 2 ^ 8 /\ 0 <= t < 2 ^ 32.

(** Modelled from the spec: [util/typedefs.hpp] is not under src/.  The
    sentinel "maximal" duration is the largest [std::int32_t]. *)
Definition MAXIMAL_EDGE_DURATION : EdgeDuration := 2 ^ 31 - 1.

(** [std::hash] and [boost::hash_combine] belong to the standard library and
    to Boost and are implementation defined: they are the operations of an
    interface.  [hash_u32] stands for [std::hash<NodeID>] and
    [std::hash<Timestamp>] (one specialisation, [unsigned]), [hash_u8] for
    [std::hash<ExcludeIndex>]; [hash_combine seed v] is the value of [seed]
    after [boost::hash_combine(seed, v)]. *)
Class StdHash := {
  hash_u32 : Z -> Z;
  hash_u8 : Z -> Z;
  hash_combine : Z -> Z -> Z
}.

(** [HashKey::operator()] (lines 19-36). *)
Definition HashKey `{StdHash} (key : Key) : HashedKey :=
  let '(k0, k1, k2, k3) := key in
  let h1 := hash_u32 k0 in
  let h2 := hash_u32 k1 in
  let h3 := hash_u8 k2 in
  let h4 := hash_u32 k3 in
  let seed := 0 in
  let seed := hash_combine seed h1 in
  let seed := hash_combine seed h2 in
  let seed := hash_combine seed h3 in
  let seed := hash_combine seed h4 in
  seed.

(** A reference instance, used to evaluate the cache on concrete keys:
    [std::hash] of an integer is the integer, and [hash_combine] is Boost's
    generic formula [seed ^= v + 0x9e3779b9 + (seed << 6) + (seed >> 2)] on a
    64-bit [std::size_t]. *)
Definition wrap64 (z : Z) : Z := z mod 2 ^ 64.

Definition classic_combine (seed v : Z) : Z :=
  Z.lxor seed
    (wrap64 (v + 0x9e3779b9 + wrap64 (Z.shiftl seed 6) + Z.shiftr seed 2)).

Definition classic_hash : StdHash :=
  {| hash_u32 := fun z => z; hash_u8 := fun z => z;
     hash_combine := classic_combine |}.

(** ** The LRU store *)

(** Modelled from the spec: [boost::compute::detail::lru_cache]
    ([third_party/compute_detail/lru_cache.hpp]) is not under src/.  The spec
    describes a bounded LRU with [Put], [Get] and [Contains], whose capacity
    is a constructor parameter: [m_list] holds the keys from the most to the
    least recently used, [m_map] the value of each key. *)
Record lru_cache := {
  m_capacity : nat;
  m_list : list HashedKey;
  m_map : gmap HashedKey EdgeDuration
}.

Definition lru_new (capacity : nat) : lru_cache :=
  {| m_capacity := capacity; m_list := []; m_map := ∅ |}.

Definition lru_size (c : lru_cache) : nat := length (m_list c).

Definition lru_contains (c : lru_cache) (k : HashedKey) : bool :=
  bool_decide (is_Some (m_map c !! k)).

(** Removing a key from the recency list. *)
Definition unlink (k : HashedKey) (l : list HashedKey) : list HashedKey :=
  filter (fun k' => k' ≠ k) l.

(** The least recently used key leaves the cache. *)
Definition lru_evict (c : lru_cache) : lru_cache :=
  match last (m_list c) with
  | None => c
  | Some k =>
      {| m_capacity := m_capacity c;
         m_list := removelast (m_list c);
         m_map := delete k (m_map c) |}
  end.

(** [Put]: the key is bound to the value and becomes the most recent one; a
    key that is new to a full cache first evicts the least recent one. *)
Definition lru_insert (c : lru_cache) (k : HashedKey) (v : EdgeDuration)
  : lru_cache :=
  match m_map c !! k with
  | Some _ =>
      {| m_capacity := m_capacity c;
         m_list := k :: unlink k (m_list c);
         m_map := <[k := v]> (m_map c) |}
  | None =>
      let c' := if (m_capacity c <=? lru_size c)%nat then lru_evict c else c in
      {| m_capacity := m_capacity c';
         m_list := k :: m_list c';
         m_map := <[k := v]> (m_map c') |}
  end.

(** [Get]: the value of the key, which becomes the most recent one. *)
Definition lru_get (c : lru_cache) (k : HashedKey)
  : option EdgeDuration * lru_cache :=
  match m_map c !! k with
  | Some v =>
      (Some v,
       {| m_capacity := m_capacity c;
          m_list := k :: unlink k (m_list c);
          m_map := m_map c |})
  | None => (None, c)
  end.

(** ** [class UnpackingCache] (lines 37-82) *)

(** The cache object is its [m_cache]; every method takes [m_shared_access]
    for its whole body, so a method call is one atomic step on the store. *)
Definition UnpackingCache := lru_cache.

Definition new_UnpackingCache (cache_size : nat) : UnpackingCache :=
  lru_new cache_size.

Section Methods.
Context `{StdHash}.

Definition IsEdgeInCache (c : UnpackingCache) (edge : Key) : bool :=
  let hashed_edge := HashKey edge in
  lru_contains c hashed_edge.

Definition AddEdge (c : UnpackingCache) (edge : Key) (duration : EdgeDuration)
  : UnpackingCache :=
  let hashed_edge := HashKey edge in
  lru_insert c hashed_edge duration.

Definition GetDuration (c : UnpackingCache) (edge : Key)
  : EdgeDuration * UnpackingCache :=
  let hashed_edge := HashKey edge in
  let '(duration, c') := lru_get c hashed_edge in
  (match duration with Some d => d | None => MAXIMAL_EDGE_DURATION end, c').

(** A history of [AddEdge] calls applied to a cache, oldest first. *)
Definition AddEdges (c : UnpackingCache) (adds : list (Key * EdgeDuration))
  : UnpackingCache :=
  fold_left (fun c a => AddEdge c a.1 a.2) adds c.

End Methods.

(** The keys [(u, v, 0, 0)] and one more. *)
Definition nth_key (i : Z) : Key :=
  if decide (i < 2 ^ 64) then (i / 2 ^ 32, i mod 2 ^ 32, 0, 0)
  else (0, 0, 1, 0).

End Cache.

(* ===================================================================== *)
(** * Part II: the publisher ([src/storage/storage.cpp]) *)
(* ===================================================================== *)

Module Storage.

Local Open Scope string_scope.

(** ** Failures *)

(** Every failure of the source is a thrown [util::exception]; the
    constructors are the kinds of the error taxonomy. *)
Inductive Error :=
| MissingRequired (path : string)
| CorruptArchive (path : string)
| IoError (path : string)
| KeysExhausted
| SharedMemoryError (key : nat)
| ChecksumMismatch (graph_checksum turns_checksum : Z) (path : string).

Inductive outcome (A : Type) :=
| Return (a : A)
| Throw (e : Error).
Arguments Return {A} a.
Arguments Throw {A} e.

(** ** Archives and layouts *)

(** [tar::FileReader::FileEntry]: [entry.name] and [entry.size]. *)
Module FileEntry.
Record t := { name : string; size : Z }.
End FileEntry.

(** [Block{number_of_elements, entry.size}]. *)
Record Block := { num_entries : Z; byte_size : Z }.

(** [DataLayout]: the blocks by name. *)
Abbreviation DataLayout := (gmap string Block).

(** Modelled from the spec: [DataLayout::SetBlock] ([shared_datatype.hpp]) is
    not under src/; it is an upsert, re-setting a name replaces its block. *)
Definition SetBlock (layout : DataLayout) (name : string) (b : Block)
  : DataLayout :=
  <[name := b]> layout.

(** [make_block<char>(n)]: [n] elements of one byte. *)
Definition make_block_char (n : Z) : Block :=
  {| num_entries := n; byte_size := n |}.

(** An artifact on disk.  The parsers of the file formats are outside src/:
    an artifact is what they answer.  [entries] is what
    [tar::FileReader::List] enumerates, [element_count] what
    [ReadElementCount64] returns for a name, [fingerprint_ok] whether
    [VerifyFingerprint] accepts the file, [connectivity_checksum] the
    checksum embedded in an [edges], [hsgr] or [mldgr] file, [weight_name]
    what [GetWeightName] returns for a [properties] file. *)
Record Artifact := {
  fingerprint_ok : bool;
  entries : list FileEntry.t;
  element_count : string -> Z;
  connectivity_checksum : Z;
  weight_name : string
}.

(** The files by path; [boost::filesystem::exists] is membership. *)
Abbreviation FileSystem := (gmap string Artifact).

(** [std::string::rfind]: the position of the last occurrence of [pat] in
    [s], [None] standing for [std::string::npos]. *)
Fixpoint rfind_from (pat s : string) (i : nat) : option nat :=
  match s with
  | EmptyString => if String.prefix pat EmptyString then Some i else None
  | String _ s' =>
      match rfind_from pat s' (S i) with
      | Some j => Some j
      | None => if String.prefix pat s then Some i else None
      end
  end.

Definition rfind (s pat : string) : option nat := rfind_from pat s 0.

(** The loop of [readBlocks] (lines 54-62) over the enumerated entries. *)
Definition readBlocks_entries (a : Artifact) (layout : DataLayout)
  : DataLayout :=
  fold_left
    (fun layout entry =>
       let name_end := rfind (FileEntry.name entry) ".meta" in
       match name_end with
       | None =>
           let number_of_elements := element_count a (FileEntry.name entry) in
           SetBlock layout (FileEntry.name entry)
             {| num_entries := number_of_elements;
                byte_size := FileEntry.size entry |}
       | Some _ => layout
       end)
    (entries a) layout.

(** [readBlocks] (lines 47-63): opening the reader fails on a file that
    cannot be read or whose fingerprint is refused. *)
Definition readBlocks (fs : FileSystem) (path : string) (layout : DataLayout)
  : outcome DataLayout :=
  match fs !! path with
  | None => Throw (IoError path)
  | Some a =>
      if fingerprint_ok a then Return (readBlocks_entries a layout)
      else Throw (CorruptArchive path)
  end.

(** Modelled from the spec: [StorageConfig] ([storage_config.hpp]) is not
    under src/; [GetPath] appends the suffix to the base path of the
    dataset, which is taken to be absolute. *)
Record StorageConfig := { base_path : string }.

Definition GetPath (config : StorageConfig) (suffix : string) : string :=
  base_path config +:+ suffix.

Definition REQUIRED := true.
Definition OPTIONAL := false.

(** The loop shared by [PopulateStaticLayout] (lines 280-294) and
    [PopulateUpdatableLayout] (lines 311-325). *)
Fixpoint read_tar_files (fs : FileSystem) (tar_files : list (bool * string))
  (layout : DataLayout) : outcome DataLayout :=
  match tar_files with
  | [] => Return layout
  | file :: rest =>
      if bool_decide (is_Some (fs !! file.2)) then
        match readBlocks fs file.2 layout with
        | Return layout' => read_tar_files fs rest layout'
        | Throw e => Throw e
        end
      else if bool_decide (file.1 = REQUIRED) then
        Throw (MissingRequired file.2)
      else read_tar_files fs rest layout
  end.

Section Layouts.
Variable config : StorageConfig.
Variable fs : FileSystem.

Definition static_tar_files : list (bool * string) :=
  [ (OPTIONAL, GetPath config ".osrm.cells");
    (OPTIONAL, GetPath config ".osrm.partition");
    (REQUIRED, GetPath config ".osrm.icd");
    (REQUIRED, GetPath config ".osrm.properties");
    (REQUIRED, GetPath config ".osrm.nbg_nodes");
    (REQUIRED, GetPath config ".osrm.ebg_nodes");
    (REQUIRED, GetPath config ".osrm.tls");
    (REQUIRED, GetPath config ".osrm.tld");
    (REQUIRED, GetPath config ".osrm.maneuver_overrides");
    (REQUIRED, GetPath config ".osrm.edges");
    (REQUIRED, GetPath config ".osrm.names");
    (REQUIRED, GetPath config ".osrm.ramIndex") ].

(** [Storage::PopulateStaticLayout] (lines 253-295). *)
Definition PopulateStaticLayout (static_layout : DataLayout)
  : outcome DataLayout :=
  let absolute_file_index_path := GetPath config ".osrm.fileIndex" in
  let static_layout :=
    SetBlock static_layout "/common/rtree/file_index_path"
      (make_block_char
         (Z.of_nat (String.length absolute_file_index_path) + 1)) in
  read_tar_files fs static_tar_files static_layout.

Definition updatable_tar_files : list (bool * string) :=
  [ (OPTIONAL, GetPath config ".osrm.mldgr");
    (OPTIONAL, GetPath config ".osrm.cell_metrics");
    (OPTIONAL, GetPath config ".osrm.hsgr");
    (REQUIRED, GetPath config ".osrm.datasource_names");
    (REQUIRED, GetPath config ".osrm.geometry");
    (REQUIRED, GetPath config ".osrm.turn_weight_penalties");
    (REQUIRED, GetPath config ".osrm.turn_duration_penalties") ].

(** [Storage::PopulateUpdatableLayout] (lines 297-326). *)
Definition PopulateUpdatableLayout (updatable_layout : DataLayout)
  : outcome DataLayout :=
  read_tar_files fs updatable_tar_files updatable_layout.

End Layouts.

(** ** The register, the segments and the world *)

(** Modelled from the spec: [SharedRegion] and [SharedRegionRegister]
    ([shared_datatype.hpp]) are not under src/.  An entry is a name, a key
    and a 64-bit version stamp; an empty slot carries the empty name.  Keys
    and region ids are indices into the two arrays of the register and are
    carried as [nat]. *)
Module SharedRegion.
Record t := { name : string; shm_key : nat; timestamp : Z }.
Definition empty : t := {| name := EmptyString; shm_key := 0; timestamp := 0 |}.
End SharedRegion.

(** Modelled from the spec: the register is a fixed-capacity array of
    entries and a bitmap of the keys in use. *)
Record SharedRegionRegister := {
  regions : list SharedRegion.t;
  shm_key_in_use : list bool
}.

(** [SharedRegionRegister{}]: every slot empty, every key free. *)
Definition empty_register (max_regions max_keys : nat) : SharedRegionRegister :=
  {| regions := replicate max_regions SharedRegion.empty;
     shm_key_in_use := replicate max_keys false |}.

(** The first entry of that name, with its index. *)
Definition entry_of (reg : SharedRegionRegister) (name : string)
  : option (nat * SharedRegion.t) :=
  list_find (fun r => SharedRegion.name r = name) (regions reg).

(** [Find]: the index of the entry of that name; [None] is
    [INVALID_REGION_ID]. *)
Definition Find (reg : SharedRegionRegister) (name : string) : option nat :=
  fst <$> entry_of reg name.

(** [GetRegion]. *)
Definition GetRegion (reg : SharedRegionRegister) (region_id : nat)
  : option SharedRegion.t :=
  regions reg !! region_id.

(** [SharedRegionRegister] ([shared_datatype.hpp]) is not under src/: the
    timestamp that its [Register] writes into the entry it creates is an
    operation of an interface, as the hash functions are for the cache.
    Nothing in [storage.cpp] reads or fixes that value: [swapData] only
    increments the timestamp of an entry that is there already. *)
Class RegisterImpl := {
  INITIAL_TIMESTAMP : Z
}.

(** Modelled from the spec: [Register] creates a new entry with
    [timestamp = 0].  This is the instance that evaluates a publish on
    concrete registers. *)
#[global] Instance Register_per_spec : RegisterImpl :=
  {| INITIAL_TIMESTAMP := 0 |}.

(** A 64-bit counter after [++]. *)
Definition incr64 (t : Z) : Z := (t + 1) mod 2 ^ 64.

(** What the publisher calls on the operating system and on the register, in
    the order of the calls. *)
Inductive Event :=
| EvReserveKey (key : nat)
| EvReleaseKey (key : nat)
| EvRegister (name : string) (key : nat)
| EvSwap (name : string) (old_key new_key : nat)
| EvRemove (key : nat) (removed : bool)
| EvCreate (key : nat) (stale : bool)
| EvAttach (key : nat)
| EvWaitForDetach (key : nat)
| EvTimedLock (max_wait : Z) (locked : bool)
| EvLock
| EvUnlock
| EvNotifyAll.

#[global] Instance Event_eq_dec : EqDecision Event.
Proof. solve_decision. Defined.

(** A segment as the publisher fills it: the layout serialised at its start
    ([None] until it is copied there) and, behind it, the reads that went
    into the payload, each as the block it targets and the file it reads.
    The byte encoding ([serialization::write], [GetSizeOfLayout]) and the
    typed views ([view_factory.hpp]) are outside src/.  The payload is this
    record of reads, in program order: the bytes, the offsets that the
    layout gives them and the overwriting of a block in place are not
    modelled, so the record says which files a fresh segment was filled
    from, not what a segment holds after it is filled again. *)
Record Segment := {
  seg_header : option DataLayout;
  seg_payload : list (string * string)
}.

(** The state that a publish reads and writes: the register of the control
    segment, the segments that can be opened by key, and what the
    environment answers: [w_remove_results] are the results of the coming
    [SharedMemory::Remove] calls (a call beyond the list succeeds) and
    [w_timed_lock] is whether the monitor mutex can be taken before a
    [timed_lock] deadline. *)
Record World := {
  w_register : SharedRegionRegister;
  w_segments : gmap nat Segment;
  w_remove_results : list bool;
  w_timed_lock : bool;
  w_trace : list Event
}.

(** ** A state and exception monad *)

Definition M (A : Type) : Type := World -> outcome A * World.

#[global] Instance M_ret : MRet M := fun A a w => (Return a, w).

#[global] Instance M_bind : MBind M := fun A B f m w =>
  match m w with
  | (Return a, w') => f a w'
  | (Throw e, w') => (Throw e, w')
  end.

Definition ret {A} (a : A) : M A := mret a.
Definition throw {A} (e : Error) : M A := fun w => (Throw e, w).

Definition emit (e : Event) : M unit :=
  fun w =>
    (Return tt,
     {| w_register := w_register w; w_segments := w_segments w;
        w_remove_results := w_remove_results w;
        w_timed_lock := w_timed_lock w;
        w_trace := w_trace w ++ [e] |}).

Definition get_register : M SharedRegionRegister :=
  fun w => (Return (w_register w), w).

Definition put_register (reg : SharedRegionRegister) : M unit :=
  fun w =>
    (Return tt,
     {| w_register := reg; w_segments := w_segments w;
        w_remove_results := w_remove_results w;
        w_timed_lock := w_timed_lock w;
        w_trace := w_trace w |}).

Definition get_segments : M (gmap nat Segment) :=
  fun w => (Return (w_segments w), w).

Definition put_segments (segs : gmap nat Segment) : M unit :=
  fun w =>
    (Return tt,
     {| w_register := w_register w; w_segments := segs;
        w_remove_results := w_remove_results w;
        w_timed_lock := w_timed_lock w;
        w_trace := w_trace w |}).

(** [for (auto &x : xs) body(x);] *)
Fixpoint for_each {A} (xs : list A) (body : A -> M unit) : M unit :=
  match xs with
  | [] => ret tt
  | x :: rest => body x;; for_each rest body
  end.

(** ** The register under the monad *)

(** Modelled from the spec: [ReserveKey] allocates an unused key and fails
    with [KeysExhausted].  The spec does not say which unused key: here it
    is the first free one of the bitmap. *)
Definition ReserveKey : M nat :=
  reg ← get_register;
  match list_find (fun b => b = false) (shm_key_in_use reg) with
  | None => throw KeysExhausted
  | Some (key, _) =>
      put_register
        {| regions := regions reg;
           shm_key_in_use := <[key := true]> (shm_key_in_use reg) |};;
      emit (EvReserveKey key);;
      ret key
  end.

(** Modelled from the spec: [ReleaseKey] returns the key to the free pool. *)
Definition ReleaseKey (key : nat) : M unit :=
  reg ← get_register;
  put_register
    {| regions := regions reg;
       shm_key_in_use := <[key := false]> (shm_key_in_use reg) |};;
  emit (EvReleaseKey key).

(** Modelled from the spec: [Register] fills the first empty slot, and fails
    when the register is full; the timestamp of the new entry is the one of
    the implementation. *)
Definition Register {impl : RegisterImpl} (name : string) (key : nat) : M nat :=
  reg ← get_register;
  match list_find (fun r => SharedRegion.name r = EmptyString) (regions reg) with
  | None => throw KeysExhausted
  | Some (region_id, _) =>
      put_register
        {| regions :=
             <[region_id :=
                 {| SharedRegion.name := name;
                    SharedRegion.shm_key := key;
                    SharedRegion.timestamp := INITIAL_TIMESTAMP |}]>
               (regions reg);
           shm_key_in_use := shm_key_in_use reg |};;
      emit (EvRegister name key);;
      ret region_id
  end.

(** ** Shared memory *)

(** Modelled from the spec: [SharedMemory] ([shared_memory.hpp]) is not
    under src/. *)

(** [SharedMemory::RegionExists]. *)
Definition RegionExists (key : nat) : M bool :=
  segs ← get_segments;
  ret (bool_decide (is_Some (segs !! key))).

(** [SharedMemory::Remove] marks the segment for destruction: it can no
    longer be opened by its key.  The call can fail ([SharedMemoryError]
    covers a remove failure) and then leaves the segment in place; it
    returns whether it succeeded. *)
Definition Remove (key : nat) : M bool :=
  fun w =>
    let removed := hd true (w_remove_results w) in
    (Return removed,
     {| w_register := w_register w;
        w_segments :=
          if removed then delete key (w_segments w) else w_segments w;
        w_remove_results := tail (w_remove_results w);
        w_timed_lock := w_timed_lock w;
        w_trace := w_trace w ++ [EvRemove key removed] |}).

(** [makeSharedMemory(key, size)]: [Create] fails when a segment is live at
    [key]. *)
Definition makeSharedMemory_create (key : nat) : M nat :=
  segs ← get_segments;
  match segs !! key with
  | Some _ => emit (EvCreate key true);; throw (SharedMemoryError key)
  | None =>
      put_segments (<[key := {| seg_header := None; seg_payload := [] |}]> segs);;
      emit (EvCreate key false);;
      ret key
  end.

(** [makeSharedMemory(key)]: [Attach] fails when no segment is live at
    [key]. *)
Definition makeSharedMemory_attach (key : nat) : M nat :=
  segs ← get_segments;
  match segs !! key with
  | None => throw (SharedMemoryError key)
  | Some _ => emit (EvAttach key);; ret key
  end.

(** [WaitForDetach] returns once the readers of the segment have detached. *)
Definition WaitForDetach (memory : nat) : M unit :=
  emit (EvWaitForDetach memory).

(** Writing through a pointer into the segment. *)
Definition write_header (memory : nat) (layout : DataLayout) : M unit :=
  segs ← get_segments;
  put_segments
    (alter (fun s => {| seg_header := Some layout;
                        seg_payload := seg_payload s |}) memory segs).

(** A read into a block of the segment: it is added to the record of the
    payload; the header is not touched. *)
Definition write_block (memory_ptr : nat) (block path : string) : M unit :=
  segs ← get_segments;
  put_segments
    (alter (fun s => {| seg_header := seg_header s;
                        seg_payload := seg_payload s ++ [(block, path)] |})
       memory_ptr segs).

(** ** [setupRegion] and [swapData] *)

(** [struct RegionHandle] (lines 65-70): [memory] is the segment the handle
    owns, named by the key it was opened with; [data_ptr] points behind the
    header of that segment, [None] being [nullptr]. *)
Record RegionHandle := {
  memory : nat;
  data_ptr : option nat;
  shm_key : nat
}.

(** [setupRegion] (lines 72-104). *)
Definition setupRegion (layout : DataLayout) : M RegionHandle :=
  shm_key ← ReserveKey;
  still_exists ← RegionExists shm_key;
  (if still_exists : bool then Remove shm_key;; ret tt else ret tt);;
  memory ← makeSharedMemory_create shm_key;
  write_header memory layout;;
  ret {| memory := memory; data_ptr := Some memory; shm_key := shm_key |}.

(** The monitor mutex.  [timed_lock] answers what the environment allows;
    [lock] returns once the mutex is taken. *)
Definition timed_lock (max_wait : Z) : M bool :=
  fun w => (emit (EvTimedLock max_wait (w_timed_lock w));; ret (w_timed_lock w)) w.

Definition lock : M unit := emit EvLock.
Definition unlock : M unit := emit EvUnlock.
Definition notify_all : M unit := emit EvNotifyAll.

(** The end of the scope of a [scoped_lock] that owns the mutex: the mutex
    is released whether the scope is left by its end or by an exception. *)
Definition scoped_lock {A} (body : M A) : M A :=
  fun w =>
    let '(r, w') := body w in
    (r, (unlock w').2).

(** One turn of the loop of lines 137-154. *)
Definition swap_one {impl : RegisterImpl} (pair : string * RegionHandle)
  (old_handles : list RegionHandle) : M (list RegionHandle) :=
  reg ← get_register;
  match Find reg pair.1 with
  | None =>
      Register pair.1 (shm_key pair.2);;
      ret old_handles
  | Some region_id =>
      match GetRegion reg region_id with
      | None => ret old_handles
      | Some shared_region =>
          old_memory ← makeSharedMemory_attach (SharedRegion.shm_key shared_region);
          put_register
            {| regions :=
                 <[region_id :=
                     {| SharedRegion.name := SharedRegion.name shared_region;
                        SharedRegion.shm_key := shm_key pair.2;
                        SharedRegion.timestamp :=
                          incr64 (SharedRegion.timestamp shared_region) |}]>
                   (regions reg);
               shm_key_in_use := shm_key_in_use reg |};;
          emit (EvSwap pair.1 (SharedRegion.shm_key shared_region)
                  (shm_key pair.2));;
          ret (old_handles ++
               [{| memory := old_memory; data_ptr := None;
                   shm_key := SharedRegion.shm_key shared_region |}])%list
      end
  end.

Fixpoint swap_loop {impl : RegisterImpl}
  (handles : list (string * RegionHandle))
  (old_handles : list RegionHandle) : M (list RegionHandle) :=
  match handles with
  | [] => ret old_handles
  | p :: rest =>
      old_handles' ← swap_one p old_handles;
      swap_loop rest old_handles'
  end.

(** One turn of the loop of lines 164-179. *)
Definition retire (old_handle : RegionHandle) : M unit :=
  Remove (shm_key old_handle);;
  WaitForDetach (memory old_handle);;
  ReleaseKey (shm_key old_handle).

(** [swapData] (lines 106-184).  [handles] is the [std::map] in the order
    of its iteration, by name. *)
Definition swapData {impl : RegisterImpl}
  (handles : list (string * RegionHandle)) (max_wait : Z)
  : M bool :=
  locked ← (if bool_decide (0 <= max_wait)%Z then timed_lock max_wait
            else lock;; ret true);
  if negb locked then
    for_each handles (fun pair => Remove (shm_key pair.2);; ret tt);;
    ret false
  else
    old_handles ← scoped_lock (swap_loop handles []);
    notify_all;;
    for_each old_handles retire;;
    ret true.

(** ** Populating the payload and [Storage::Run] *)

Section Publisher.
Variable config : StorageConfig.
Variable fs : FileSystem.

(** A reader of a file format fails on a file that is not there.  The
    readers ([extractor/files.hpp] and the like) are not under src/: whether
    they refuse a fingerprint, as the reader of [readBlocks] does, is not
    visible, and a file that is there is read. *)
Definition read_file (path : string) : M Artifact :=
  match fs !! path with
  | Some a => ret a
  | None => throw (IoError path)
  end.

(** [files::readX(path, view)] with the view made over [block]: the file is
    read into the block. *)
Definition load (memory_ptr : option nat) (block suffix : string)
  : M Artifact :=
  a ← read_file (GetPath config suffix);
  match memory_ptr with
  | Some p => write_block p block (GetPath config suffix)
  | None => ret tt
  end;;
  ret a.

Definition file_exists (suffix : string) : bool :=
  bool_decide (is_Some (fs !! GetPath config suffix)).

(** The comparison of lines 469-476 and 509-516 (and 587-594, 615-622). *)
Definition check_connectivity (turns_connectivity_checksum : Z)
  (suffix : string) (graph : Artifact) : M unit :=
  let graph_connectivity_checksum := connectivity_checksum graph in
  if bool_decide (turns_connectivity_checksum ≠ graph_connectivity_checksum)
  then throw (ChecksumMismatch graph_connectivity_checksum
                turns_connectivity_checksum (GetPath config suffix))
  else ret tt.

(** [Storage::PopulateStaticData] (lines 328-526): the files it reads, in
    the order of the source, the files it asks for first, and the two
    comparisons of the connectivity checksum.  The pointers and views that
    the source takes from [static_layout] ([GetBlockPtr], [GetBlockSize],
    the view factories) are not under src/: the layout is carried and not
    consulted, and the assertions of lines 330 and 347-348 are not modelled.
    A return of this function is necessary for a return of the source, and
    may not be sufficient. *)
Definition PopulateStaticData (static_layout : DataLayout)
  (memory_ptr : option nat) : M unit :=
  match memory_ptr with
  | Some p =>
      write_block p "/common/rtree/file_index_path"
        (GetPath config ".osrm.fileIndex")
  | None => ret tt
  end;;
  load memory_ptr "/common/names" ".osrm.names";;
  load memory_ptr "/common/turn_lanes" ".osrm.tld";;
  load memory_ptr "/common/turn_lanes" ".osrm.tls";;
  load memory_ptr "/common/ebg_node_data" ".osrm.ebg_nodes";;
  edges ← load memory_ptr "/common/turn_data" ".osrm.edges";
  let turns_connectivity_checksum := connectivity_checksum edges in
  load memory_ptr "/common/segment_data" ".osrm.geometry";;
  load memory_ptr "/common/data_sources_names" ".osrm.datasource_names";;
  load memory_ptr "/common/nbn_data" ".osrm.nbg_nodes";;
  load memory_ptr "/common/turn_penalty" ".osrm.turn_weight_penalties";;
  load memory_ptr "/common/turn_penalty" ".osrm.turn_duration_penalties";;
  load memory_ptr "/common/rtree" ".osrm.ramIndex";;
  properties ← load memory_ptr "/common/properties" ".osrm.properties";
  let metric_name := weight_name properties in
  load memory_ptr "/common/intersection_bearings" ".osrm.icd";;
  (if file_exists ".osrm.hsgr" then
     graph ← load memory_ptr ("/ch/metrics/" +:+ metric_name) ".osrm.hsgr";
     check_connectivity turns_connectivity_checksum ".osrm.hsgr" graph
   else ret tt);;
  (if file_exists ".osrm.partition" then
     load memory_ptr "/mld/multilevelpartition" ".osrm.partition";; ret tt
   else ret tt);;
  (if file_exists ".osrm.cells" then
     load memory_ptr "/mld/cellstorage" ".osrm.cells";; ret tt
   else ret tt);;
  (if file_exists ".osrm.cell_metrics" then
     load memory_ptr ("/mld/metrics/" +:+ metric_name) ".osrm.cell_metrics";;
     ret tt
   else ret tt);;
  (if file_exists ".osrm.mldgr" then
     graph ← load memory_ptr "/mld/multilevelgraph" ".osrm.mldgr";
     check_connectivity turns_connectivity_checksum ".osrm.mldgr" graph
   else ret tt);;
  load memory_ptr "/common/maneuver_overrides" ".osrm.maneuver_overrides";;
  ret tt.

(** [Storage::PopulateUpdatableData] (lines 528-624); the properties are
    read into a local object, not into the segment.  As for
    [PopulateStaticData], the views taken from [updatable_layout] and the
    assertion of line 530 are not modelled. *)
Definition PopulateUpdatableData (updatable_layout : DataLayout)
  (memory_ptr : option nat) : M unit :=
  let turns_connectivity_checksum := 0%Z in
  load memory_ptr "/common/segment_data" ".osrm.geometry";;
  load memory_ptr "/common/data_sources_names" ".osrm.datasource_names";;
  load memory_ptr "/common/turn_penalty" ".osrm.turn_weight_penalties";;
  load memory_ptr "/common/turn_penalty" ".osrm.turn_duration_penalties";;
  properties ← read_file (GetPath config ".osrm.properties");
  let metric_name := weight_name properties in
  (if file_exists ".osrm.hsgr" then
     graph ← load memory_ptr ("/ch/metrics/" +:+ metric_name) ".osrm.hsgr";
     check_connectivity turns_connectivity_checksum ".osrm.hsgr" graph
   else ret tt);;
  (if file_exists ".osrm.cell_metrics" then
     load memory_ptr ("/mld/metrics/" +:+ metric_name) ".osrm.cell_metrics";;
     ret tt
   else ret tt);;
  (if file_exists ".osrm.mldgr" then
     graph ← load memory_ptr "/mld/multilevelgraph" ".osrm.mldgr";
     check_connectivity turns_connectivity_checksum ".osrm.mldgr" graph
   else ret tt).

(** A layout function run inside [Run]: its exception is [Run]'s. *)
Definition planned (layout : outcome DataLayout) : M DataLayout :=
  match layout with
  | Return l => ret l
  | Throw e => throw e
  end.

Definition EXIT_SUCCESS : Z := 0.

(** [Storage::Run] (lines 189-246).  The file lock of lines 195-211 is
    taken before anything else and held to the end: the whole of [Run] is one
    publisher at a time, which is what the state passing says.  The monitor
    of line 224 attaches the control segment whose register is
    [w_register]. *)
Definition Run {impl : RegisterImpl} (max_wait : Z) (dataset_name : string)
  : M Z :=
  static_layout ← planned (PopulateStaticLayout config fs ∅);
  static_handle ← setupRegion static_layout;
  PopulateStaticData static_layout (data_ptr static_handle);;
  updatable_layout ← planned (PopulateStaticLayout config fs ∅);
  updatable_handle ← setupRegion updatable_layout;
  PopulateStaticData updatable_layout (data_ptr updatable_handle);;
  let handles :=
    [ (dataset_name +:+ "/static", static_handle);
      (dataset_name +:+ "/updatable", updatable_handle) ] in
  swapData handles max_wait;;
  ret EXIT_SUCCESS.

End Publisher.

End Storage.

(* ===================================================================== *)
(** * Part III: the vocabulary of the properties *)
(* ===================================================================== *)

Module Props.
Import Storage.
Local Open Scope string_scope.

(** [pat] occurs in [s]. *)
Definition occurs_in (pat s : string) : Prop :=
  exists a b, s = a +:+ (pat +:+ b).

(** [s] ends with [suffix]. *)
Definition ends_with (suffix s : string) : Prop :=
  exists a, s = a +:+ suffix.

(** The rest of a string behind its first [n] characters. *)
Fixpoint string_drop (n : nat) (s : string) : string :=
  match n, s with
  | S n', String _ s' => string_drop n' s'
  | _, _ => s
  end.

(** The entries that set the block [n]: those of that name in which
    [".meta"] does not occur. *)
Definition sets_block (n : string) (entry : FileEntry.t) : Prop :=
  FileEntry.name entry = n /\ rfind (FileEntry.name entry) ".meta" = None.

#[global] Instance sets_block_dec n entry : Decision (sets_block n entry).
Proof. unfold sets_block. apply _. Defined.

(** The calls of the loop of lines 164-179 for the handles [olds], when the
    coming results of [Remove] are [results]. *)
Fixpoint retirement_events (olds : list RegionHandle) (results : list bool)
  : list Event :=
  match olds with
  | [] => []
  | old_handle :: rest =>
      EvRemove (shm_key old_handle) (hd true results)
      :: EvWaitForDetach (memory old_handle)
      :: EvReleaseKey (shm_key old_handle)
      :: retirement_events rest (tail results)
  end.

(** The calls that retire a segment. *)
Definition retiring (e : Event) : Prop :=
  match e with
  | EvRemove _ _ | EvWaitForDetach _ | EvReleaseKey _ => True
  | _ => False
  end.

(** The keys that the swaps of a trace took out of the register. *)
Definition swapped_out (evs : list Event) : list nat :=
  omap (fun e => match e with EvSwap _ old _ => Some old | _ => None end) evs.

(** Taking the monitor mutex: the world with the call in its trace, and
    whether the mutex is held. *)
Definition take_mutex (max_wait : Z) : M bool :=
  if bool_decide (0 <= max_wait)%Z then timed_lock max_wait
  else lock;; ret true.

(** What a computation that only fills the payload of segments leaves as it
    found it: the register, the trace of calls, the answers of the
    environment, and which segments are live. *)
Definition frame (w w' : World) : Prop :=
  w_register w' = w_register w /\
  w_trace w' = w_trace w /\
  w_remove_results w' = w_remove_results w /\
  w_timed_lock w' = w_timed_lock w /\
  dom (w_segments w') = dom (w_segments w).

Definition fills_only {A} (m : M A) : Prop :=
  forall w r w', m w = (r, w') -> frame w w'.

(** The files that [PopulateStaticData] reads before it compares a
    checksum. *)
Definition populate_required : list string :=
  [ ".osrm.names"; ".osrm.tld"; ".osrm.tls"; ".osrm.ebg_nodes"; ".osrm.edges";
    ".osrm.geometry"; ".osrm.datasource_names"; ".osrm.nbg_nodes";
    ".osrm.turn_weight_penalties"; ".osrm.turn_duration_penalties";
    ".osrm.ramIndex"; ".osrm.properties"; ".osrm.icd" ].

(** The calls of the loop of lines 125-128. *)
Fixpoint removal_events (handles : list (string * RegionHandle))
  (results : list bool) : list Event :=
  match handles with
  | [] => []
  | p :: rest =>
      EvRemove (shm_key p.2) (hd true results)
      :: removal_events rest (tail results)
  end.

End Props.

(* ===================================================================== *)
(** * Part IV: a small dataset to run the publisher on *)
(* ===================================================================== *)

Module Demo.
Import Storage.
Local Open Scope string_scope.

(** An archive with one typed array [block] of [n] elements in [bytes] bytes
    and its [.meta] sidecar. *)
Definition archive (block : string) (n bytes : Z) (checksum : Z) : Artifact :=
  {| fingerprint_ok := true;
     entries :=
       [ {| FileEntry.name := block; FileEntry.size := bytes |};
         {| FileEntry.name := block +:+ ".meta"; FileEntry.size := 8 |} ];
     element_count := fun _ => n;
     connectivity_checksum := checksum;
     weight_name := "duration" |}.

Definition config : StorageConfig := {| base_path := "/data/map" |}.

(** The required files of both regions, with the connectivity checksum
    [edges_checksum] in the edges file. *)
Definition required_files (edges_checksum : Z) : FileSystem :=
  list_to_map
    [ ("/data/map.osrm.fileIndex", archive "/common/rtree/leaves" 4 64 0);
      ("/data/map.osrm.icd", archive "/common/intersection_bearings" 3 12 0);
      ("/data/map.osrm.properties", archive "/common/properties" 1 40 0);
      ("/data/map.osrm.nbg_nodes", archive "/common/nbn_data/coordinates" 5 40 0);
      ("/data/map.osrm.ebg_nodes", archive "/common/ebg_node_data/nodes" 6 48 0);
      ("/data/map.osrm.tls", archive "/common/turn_lanes/offsets" 2 8 0);
      ("/data/map.osrm.tld", archive "/common/turn_lanes/data" 2 16 0);
      ("/data/map.osrm.maneuver_overrides",
         archive "/common/maneuver_overrides/overrides" 0 0 0);
      ("/data/map.osrm.edges", archive "/common/turn_data" 7 28 edges_checksum);
      ("/data/map.osrm.names", archive "/common/names/values" 9 9 0);
      ("/data/map.osrm.ramIndex", archive "/common/rtree/search_tree" 1 32 0);
      ("/data/map.osrm.datasource_names",
         archive "/common/data_sources_names" 1 16 0);
      ("/data/map.osrm.geometry", archive "/common/segment_data/nodes" 8 32 0);
      ("/data/map.osrm.turn_weight_penalties",
         archive "/common/turn_penalty/weight" 7 14 0);
      ("/data/map.osrm.turn_duration_penalties",
         archive "/common/turn_penalty/duration" 7 14 0) ].

(** The blocks that [PopulateStaticLayout] plans for these files. *)
Definition static_plan : DataLayout :=
  list_to_map
    [ ("/common/rtree/file_index_path", {| num_entries := 25; byte_size := 25 |});
      ("/common/intersection_bearings", {| num_entries := 3; byte_size := 12 |});
      ("/common/properties", {| num_entries := 1; byte_size := 40 |});
      ("/common/nbn_data/coordinates", {| num_entries := 5; byte_size := 40 |});
      ("/common/ebg_node_data/nodes", {| num_entries := 6; byte_size := 48 |});
      ("/common/turn_lanes/offsets", {| num_entries := 2; byte_size := 8 |});
      ("/common/turn_lanes/data", {| num_entries := 2; byte_size := 16 |});
      ("/common/maneuver_overrides/overrides",
         {| num_entries := 0; byte_size := 0 |});
      ("/common/turn_data", {| num_entries := 7; byte_size := 28 |});
      ("/common/names/values", {| num_entries := 9; byte_size := 9 |});
      ("/common/rtree/search_tree", {| num_entries := 1; byte_size := 32 |}) ].

(** The blocks that [PopulateUpdatableLayout] plans for them. *)
Definition updatable_plan : DataLayout :=
  list_to_map
    [ ("/common/data_sources_names", {| num_entries := 1; byte_size := 16 |});
      ("/common/segment_data/nodes", {| num_entries := 8; byte_size := 32 |});
      ("/common/turn_penalty/weight", {| num_entries := 7; byte_size := 14 |});
      ("/common/turn_penalty/duration", {| num_entries := 7; byte_size := 14 |}) ].

(** What [PopulateStaticData] reads into a segment, in the order of the
    reads. *)
Definition static_payload : list (string * string) :=
  [ ("/common/rtree/file_index_path", "/data/map.osrm.fileIndex");
    ("/common/names", "/data/map.osrm.names");
    ("/common/turn_lanes", "/data/map.osrm.tld");
    ("/common/turn_lanes", "/data/map.osrm.tls");
    ("/common/ebg_node_data", "/data/map.osrm.ebg_nodes");
    ("/common/turn_data", "/data/map.osrm.edges");
    ("/common/segment_data", "/data/map.osrm.geometry");
    ("/common/data_sources_names", "/data/map.osrm.datasource_names");
    ("/common/nbn_data", "/data/map.osrm.nbg_nodes");
    ("/common/turn_penalty", "/data/map.osrm.turn_weight_penalties");
    ("/common/turn_penalty", "/data/map.osrm.turn_duration_penalties");
    ("/common/rtree", "/data/map.osrm.ramIndex");
    ("/common/properties", "/data/map.osrm.properties");
    ("/common/intersection_bearings", "/data/map.osrm.icd");
    ("/common/maneuver_overrides", "/data/map.osrm.maneuver_overrides") ].

(** The same with a contracted graph whose embedded checksum is
    [graph_checksum]. *)
Definition with_hsgr (edges_checksum graph_checksum : Z) : FileSystem :=
  <["/data/map.osrm.hsgr" :=
      archive "/ch/metrics/duration/contracted_graph" 10 80 graph_checksum]>
    (required_files edges_checksum).

(** A world after boot: an empty register of four slots and eight keys, no
    segment, a free monitor mutex. *)
Definition boot : World :=
  {| w_register := empty_register 4 8;
     w_segments := ∅;
     w_remove_results := [];
     w_timed_lock := true;
     w_trace := [] |}.

(** The same while another process holds the monitor mutex. *)
Definition contended (w : World) : World :=
  {| w_register := w_register w;
     w_segments := w_segments w;
     w_remove_results := w_remove_results w;
     w_timed_lock := false;
     w_trace := w_trace w |}.

(** A world in the middle of a second publish of [alpha]: the first publish
    registered the keys 0 and 1, and [setupRegion] has just allocated the
    segments 2 and 3 of the handles [republish_handles]. *)
Definition blank_segment : Segment :=
  {| seg_header := None; seg_payload := [] |}.

Definition staged : World :=
  {| w_register :=
       {| regions :=
            [ {| SharedRegion.name := "alpha/static";
                 SharedRegion.shm_key := 0;
                 SharedRegion.timestamp := 0 |};
              {| SharedRegion.name := "alpha/updatable";
                 SharedRegion.shm_key := 1;
                 SharedRegion.timestamp := 0 |};
              SharedRegion.empty; SharedRegion.empty ];
          shm_key_in_use :=
            [true; true; true; true; false; false; false; false] |};
     w_segments :=
       list_to_map [ (0%nat, blank_segment); (1%nat, blank_segment);
                     (2%nat, blank_segment); (3%nat, blank_segment) ];
     w_remove_results := [];
     w_timed_lock := true;
     w_trace := [] |}.

(** A world after a crash: the key 0 is free in the register, a segment is
    still live at it, and the next [Remove] fails while a second one would
    succeed. *)
Definition crashed : World :=
  {| w_register := empty_register 4 8;
     w_segments := {[ 0%nat := blank_segment ]};
     w_remove_results := [false; true];
     w_timed_lock := true;
     w_trace := [] |}.

(** The same where the next [Remove] succeeds. *)
Definition recoverable : World :=
  {| w_register := empty_register 4 8;
     w_segments := {[ 0%nat := blank_segment ]};
     w_remove_results := [];
     w_timed_lock := true;
     w_trace := [] |}.

Definition republish_handles : list (string * RegionHandle) :=
  [ ("alpha/static", {| memory := 2; data_ptr := Some 2%nat; shm_key := 2 |});
    ("alpha/updatable", {| memory := 3; data_ptr := Some 3%nat; shm_key := 3 |}) ].

(** The world of a first publish of [alpha], at the call of [swapData], while
    another process holds the monitor mutex: both segments are allocated and
    filled, and [first_handles] are their handles. *)
Definition first_handles : list (string * RegionHandle) :=
  [ ("alpha/static", {| memory := 0; data_ptr := Some 0%nat; shm_key := 0 |});
    ("alpha/updatable", {| memory := 1; data_ptr := Some 1%nat; shm_key := 1 |}) ].

Definition staged_first : World :=
  {| w_register :=
       {| regions := replicate 4 SharedRegion.empty;
          shm_key_in_use :=
            [true; true; false; false; false; false; false; false] |};
     w_segments :=
       list_to_map
         [ (0%nat, {| seg_header := Some static_plan;
                      seg_payload := static_payload |});
           (1%nat, {| seg_header := Some static_plan;
                      seg_payload := static_payload |}) ];
     w_remove_results := [];
     w_timed_lock := false;
     w_trace := [EvReserveKey 0; EvCreate 0 false;
                 EvReserveKey 1; EvCreate 1 false] |}.

(** Two keys that the C++ types can hold and that collide under the
    reference hash. *)
Definition collide_a : Cache.Key := (1, 2, 0, 0).
Definition collide_b : Cache.Key := (1, 2, 1, 67).

(** An archive in which [".meta"] occurs inside a name, not at its end. *)
Definition metadata_archive : Artifact :=
  {| fingerprint_ok := true;
     entries :=
       [ {| FileEntry.name := "/common/names/values"; FileEntry.size := 9 |};
         {| FileEntry.name := "/common/names/values.meta"; FileEntry.size := 8 |};
         {| FileEntry.name := "/common/names.metadata/lang"; FileEntry.size := 2 |} ];
     element_count := fun _ => 9;
     connectivity_checksum := 0;
     weight_name := "duration" |}.

Definition metadata_fs : FileSystem :=
  {[ "/data/map.osrm.names" := metadata_archive ]}.

End Demo.

(* ===================================================================== *)
(** * The second cache class of the header *)
(* ===================================================================== *)

(** [unpacking_cache.hpp], lines 87-139: the class that keys its store by the
    edge itself and remembers the timestamp of the data it caches. *)
Module AnnotationCache.

(** Modelled from the spec: [boost::compute::detail::lru_cache]
    ([third_party/compute_detail/lru_cache.hpp]) is not under src/; the
    bounded LRU of the first class, here for any key and value types. *)
Section Store.
Context {K : Type} `{Countable K} {V : Type}.

Record lru_cache := {
  m_capacity : nat;
  m_list : list K;
  m_map : gmap K V
}.

Definition lru_new (capacity : nat) : lru_cache :=
  {| m_capacity := capacity; m_list := []; m_map := ∅ |}.

Definition lru_size (c : lru_cache) : nat := length (m_list c).

Definition lru_contains (c : lru_cache) (k : K) : bool :=
  bool_decide (is_Some (m_map c !! k)).

Definition lru_evict (c : lru_cache) : lru_cache :=
  match last (m_list c) with
  | None => c
  | Some k =>
      {| m_capacity := m_capacity c;
         m_list := removelast (m_list c);
         m_map := delete k (m_map c) |}
  end.

Definition lru_insert (c : lru_cache) (k : K) (v : V) : lru_cache :=
  match m_map c !! k with
  | Some _ =>
      {| m_capacity := m_capacity c;
         m_list := k :: filter (fun k' => k' ≠ k) (m_list c);
         m_map := <[k := v]> (m_map c) |}
  | None =>
      let c' := if (m_capacity c <=? lru_size c)%nat then lru_evict c else c in
      {| m_capacity := m_capacity c';
         m_list := k :: m_list c';
         m_map := <[k := v]> (m_map c') |}
  end.

Definition lru_get (c : lru_cache) (k : K) : option V * lru_cache :=
  match m_map c !! k with
  | Some v =>
      (Some v,
       {| m_capacity := m_capacity c;
          m_list := k :: filter (fun k' => k' ≠ k) (m_list c);
          m_map := m_map c |})
  | None => (None, c)
  end.

(** [clear()]: nothing is left, the capacity stays. *)
Definition lru_clear (c : lru_cache) : lru_cache :=
  {| m_capacity := m_capacity c; m_list := []; m_map := ∅ |}.

End Store.
Arguments lru_cache K {_ _} V.

(** ** The class (lines 99-135) *)

(** The edge is [std::tuple<NodeID, NodeID, std::size_t>]. *)
Definition Edge : Type := Z * Z * Z.

Section Class.
(** [EdgeDistance] and [MAXIMAL_EDGE_DISTANCE] come from [util/typedefs.hpp],
    which is not under src/; the distance is a floating-point number and is
    left abstract. *)
Variable EdgeDistance : Type.
Variable MAXIMAL_EDGE_DISTANCE : EdgeDistance.

Definition PathAnnotation : Type := Cache.EdgeDuration * EdgeDistance.

Record UnpackingCache := {
  cache : lru_cache Edge PathAnnotation;
  current_data_timestamp : Z
}.

(** [UnpackingCache(unsigned timestamp)]. *)
Definition new_UnpackingCache (timestamp : Z) : UnpackingCache :=
  {| cache := lru_new (Z.to_nat 16000000); current_data_timestamp := timestamp |}.

Definition Clear (c : UnpackingCache) (new_data_timestamp : Z) : UnpackingCache :=
  if bool_decide (current_data_timestamp c ≠ new_data_timestamp) then
    {| cache := lru_clear (cache c);
       current_data_timestamp := new_data_timestamp |}
  else c.

Definition IsEdgeInCache (c : UnpackingCache) (edge : Edge) : bool :=
  lru_contains (cache c) edge.

Definition AddEdge (c : UnpackingCache) (edge : Edge)
  (annotation : PathAnnotation) : UnpackingCache :=
  {| cache := lru_insert (cache c) edge annotation;
     current_data_timestamp := current_data_timestamp c |}.

Definition GetAnnotation (c : UnpackingCache) (edge : Edge)
  : PathAnnotation * UnpackingCache :=
  let '(annotation, cache') := lru_get (cache c) edge in
  (match annotation with
   | Some a => a
   | None => (Cache.MAXIMAL_EDGE_DURATION, MAXIMAL_EDGE_DISTANCE)
   end,
   {| cache := cache'; current_data_timestamp := current_data_timestamp c |}).

End Class.

End AnnotationCache.

(* ===================================================================== *)
(** * The vocabulary of the further properties *)
(* ===================================================================== *)

Module Terms.
Import Storage.
Local Open Scope string_scope.

(** A listed file that the loop of the layout functions gets past: it is
    there with a good fingerprint, or it is optional and not there. *)
Definition readable (fs : FileSystem) (file : bool * string) : Prop :=
  match fs !! file.2 with
  | Some a => fingerprint_ok a = true
  | None => file.1 = OPTIONAL
  end.

#[global] Instance readable_dec fs file : Decision (readable fs file).
Proof. unfold readable. destruct (fs !! file.2); apply _. Defined.

(** What the loop throws at a listed file that is not readable. *)
Definition planning_error (fs : FileSystem) (file : bool * string) : Error :=
  match fs !! file.2 with
  | Some _ => CorruptArchive file.2
  | None => MissingRequired file.2
  end.

(** The archives of the listed files that are there, in the order of the
    list. *)
Definition present_archives (fs : FileSystem) (files : list (bool * string))
  : list Artifact :=
  omap (fun file : bool * string => fs !! file.2) files.

(** [readBlocks] over archives, one after the other. *)
Definition plan_blocks (archives : list Artifact) (layout : DataLayout)
  : DataLayout :=
  fold_left (fun layout a => readBlocks_entries a layout) archives layout.

(** The calls of the swap loop. *)
Definition swap_call (e : Event) : Prop :=
  match e with
  | EvRegister _ _ | EvAttach _ | EvSwap _ _ _ => True
  | _ => False
  end.

(** The calls that take the monitor mutex. *)
Definition lock_call (e : Event) : Prop :=
  match e with
  | EvTimedLock _ _ | EvLock => True
  | _ => False
  end.

(** Whether [swapData] gets the monitor mutex. *)
Definition acquires (max_wait : Z) (w : World) : bool :=
  if bool_decide (0 <= max_wait)%Z then w_timed_lock w else true.

(** The bitmap of the keys after some keys were released. *)
Definition release_all (keys : list nat) (in_use : list bool) : list bool :=
  fold_left (fun in_use key => <[key := false]> in_use) keys in_use.

(** The segments after some keys were removed with success. *)
Definition remove_all (keys : list nat) (segs : gmap nat Segment)
  : gmap nat Segment :=
  fold_left (fun segs key => delete key segs) keys segs.

(** The failures of the register and of shared memory. *)
Definition system_error (e : Error) : Prop :=
  match e with KeysExhausted | SharedMemoryError _ => True | _ => False end.

(** All the files that [PopulateStaticData] reads without asking whether
    they are there. *)
Definition static_data_files : list string :=
  [ ".osrm.names"; ".osrm.tld"; ".osrm.tls"; ".osrm.ebg_nodes"; ".osrm.edges";
    ".osrm.geometry"; ".osrm.datasource_names"; ".osrm.nbg_nodes";
    ".osrm.turn_weight_penalties"; ".osrm.turn_duration_penalties";
    ".osrm.ramIndex"; ".osrm.properties"; ".osrm.icd";
    ".osrm.maneuver_overrides" ].

(** The files that [PopulateUpdatableData] reads without asking. *)
Definition updatable_data_files : list string :=
  [ ".osrm.geometry"; ".osrm.datasource_names"; ".osrm.turn_weight_penalties";
    ".osrm.turn_duration_penalties"; ".osrm.properties" ].

(** A graph file, when it is there, embeds the checksum [turns]. *)
Definition graph_agrees (config : StorageConfig) (fs : FileSystem)
  (turns : Z) (suffix : string) : Prop :=
  match fs !! GetPath config suffix with
  | Some graph => connectivity_checksum graph = turns
  | None => True
  end.

(** The checksum that [readTurnData] reads from the edges file. *)
Definition turns_checksum (config : StorageConfig) (fs : FileSystem) : Z :=
  match fs !! GetPath config ".osrm.edges" with
  | Some edges => connectivity_checksum edges
  | None => 0
  end.

(** A world in which every key of the register is in use. *)
Definition exhausted : World :=
  {| w_register :=
       {| regions := replicate 4 SharedRegion.empty;
          shm_key_in_use := [true; true; true; true] |};
     w_segments := ∅;
     w_remove_results := [];
     w_timed_lock := true;
     w_trace := [] |}.

(** The world of a second publish of [alpha] in which the segments of the
    first publish have vanished. *)
Definition orphaned : World :=
  {| w_register := w_register Demo.staged;
     w_segments :=
       list_to_map [ (2%nat, Demo.blank_segment); (3%nat, Demo.blank_segment) ];
     w_remove_results := [];
     w_timed_lock := true;
     w_trace := [] |}.

(** The calls of [setupRegion]. *)
Definition setup_call (e : Event) : Prop :=
  match e with
  | EvReserveKey _ | EvRemove _ _ | EvCreate _ _ => True
  | _ => False
  end.

(** The segments [segs'] are the segments [segs] but for the payload of the
    segment [p]: its header and every other segment are the same. *)
Definition differ_in_payload_of (p : nat) (segs segs' : gmap nat Segment)
  : Prop :=
  (forall k, k ≠ p -> segs' !! k = segs !! k) /\
  seg_header <$> segs' !! p = seg_header <$> segs !! p.

(** A computation that writes nothing to the segments but the payload of the
    segment [p]. *)
Definition writes_payload_of {A} (p : nat) (m : M A) : Prop :=
  forall w r w',
    m w = (r, w') -> differ_in_payload_of p (w_segments w) (w_segments w').

(** A world whose register has no empty slot, all four entries being those
    of other datasets, and free keys. *)
Definition crowded : World :=
  {| w_register :=
       {| regions :=
            [ {| SharedRegion.name := "beta/static";
                 SharedRegion.shm_key := 0;
                 SharedRegion.timestamp := 3 |};
              {| SharedRegion.name := "beta/updatable";
                 SharedRegion.shm_key := 1;
                 SharedRegion.timestamp := 3 |};
              {| SharedRegion.name := "gamma/static";
                 SharedRegion.shm_key := 2;
                 SharedRegion.timestamp := 1 |};
              {| SharedRegion.name := "gamma/updatable";
                 SharedRegion.shm_key := 3;
                 SharedRegion.timestamp := 1 |} ];
          shm_key_in_use :=
            [true; true; true; true; false; false; false; false] |};
     w_segments :=
       list_to_map [ (0%nat, Demo.blank_segment); (1%nat, Demo.blank_segment);
                     (2%nat, Demo.blank_segment); (3%nat, Demo.blank_segment) ];
     w_remove_results := [];
     w_timed_lock := true;
     w_trace := [] |}.

(** No key is released: what was in use is in use. *)
Definition keeps_keys (in_use in_use' : list bool) : Prop :=
  forall key, in_use !! key = Some true -> in_use' !! key = Some true.

End Terms.

(* ===================================================================== *)
(** * Part V: properties of the unpacking cache *)
(* ===================================================================== *)

Module CacheFacts.
Import Cache.

(** ** The store *)

Lemma lru_insert_lookup_same (c : lru_cache) (k : HashedKey) (v : EdgeDuration) :
  m_map (lru_insert c k v) !! k = Some v.
Proof.
  unfold lru_insert.
  destruct (m_map c !! k); simpl; apply lookup_insert_eq.
Qed.

Lemma lru_evict_lookup_None (c : lru_cache) (h : HashedKey) :
  m_map c !! h = None -> m_map (lru_evict c) !! h = None.
Proof.
  intros Hh. unfold lru_evict.
  destruct (last (m_list c)) as [k|]; simpl; [|exact Hh].
  rewrite lookup_delete. case_decide; [reflexivity | exact Hh].
Qed.

Lemma lru_insert_lookup_None (c : lru_cache) (k h : HashedKey) (v : EdgeDuration) :
  k ≠ h -> m_map c !! h = None -> m_map (lru_insert c k v) !! h = None.
Proof.
  intros Hne Hh. unfold lru_insert.
  destruct (m_map c !! k); simpl.
  - rewrite lookup_insert_ne; [exact Hh | exact Hne].
  - rewrite lookup_insert_ne; [| exact Hne].
    destruct (m_capacity c <=? lru_size c)%nat; [|exact Hh].
    apply lru_evict_lookup_None, Hh.
Qed.

Lemma lru_get_value (c : lru_cache) (k : HashedKey) :
  (lru_get c k).1 = m_map c !! k.
Proof. unfold lru_get. destruct (m_map c !! k); reflexivity. Qed.

Lemma lru_get_map (c : lru_cache) (k : HashedKey) :
  m_map (lru_get c k).2 = m_map c.
Proof. unfold lru_get. destruct (m_map c !! k); reflexivity. Qed.

Lemma unlink_length (k : HashedKey) (l : list HashedKey) :
  (length (unlink k l) <= length l)%nat.
Proof. unfold unlink. apply length_filter. Qed.

Lemma lru_evict_size (c : lru_cache) : (lru_size (lru_evict c) <= lru_size c)%nat.
Proof.
  unfold lru_evict, lru_size.
  destruct (last (m_list c)); simpl; [|lia].
  destruct (m_list c) as [|x l]; [simpl; lia|].
  rewrite (app_removelast_last (l := x :: l) x) at 2 by discriminate.
  rewrite length_app. simpl. lia.
Qed.

Lemma lru_insert_size (c : lru_cache) (k : HashedKey) (v : EdgeDuration) :
  (lru_size (lru_insert c k v) <= S (lru_size c))%nat.
Proof.
  unfold lru_insert, lru_size.
  destruct (m_map c !! k); simpl.
  - pose proof (unlink_length k (m_list c)). lia.
  - destruct (m_capacity c <=? length (m_list c))%nat; simpl.
    + pose proof (lru_evict_size c). unfold lru_size in *. lia.
    + lia.
Qed.

Lemma lru_insert_capacity (c : lru_cache) (k : HashedKey) (v : EdgeDuration) :
  m_capacity (lru_insert c k v) = m_capacity c.
Proof.
  unfold lru_insert.
  destruct (m_map c !! k); simpl; [reflexivity|].
  destruct (m_capacity c <=? lru_size c)%nat; [|reflexivity].
  unfold lru_evict. destruct (last (m_list c)); reflexivity.
Qed.

(** An insertion into a cache that has room keeps every other binding. *)
Lemma lru_insert_lookup_room (c : lru_cache) (k h : HashedKey) (v : EdgeDuration) :
  k ≠ h -> (lru_size c < m_capacity c)%nat ->
  m_map (lru_insert c k v) !! h = m_map c !! h.
Proof.
  intros Hne Hroom. unfold lru_insert.
  destruct (m_map c !! k); simpl.
  - apply lookup_insert_ne, Hne.
  - destruct (Nat.leb_spec (m_capacity c) (lru_size c)); [lia|].
    apply lookup_insert_ne, Hne.
Qed.

Section WithHash.
Context `{StdHash}.

Lemma GetDuration_lookup (c : UnpackingCache) (k : Key) :
  (GetDuration c k).1 = default MAXIMAL_EDGE_DURATION (m_map c !! HashKey k).
Proof.
  unfold GetDuration. pose proof (lru_get_value c (HashKey k)) as Hv.
  destruct (lru_get c (HashKey k)) as [o c']. simpl in *. subst o.
  destruct (m_map c !! HashKey k); reflexivity.
Qed.

Lemma IsEdgeInCache_lookup (c : UnpackingCache) (k : Key) :
  IsEdgeInCache c k = true <-> is_Some (m_map c !! HashKey k).
Proof. unfold IsEdgeInCache, lru_contains. apply bool_decide_eq_true. Qed.

(** The reads leave the bindings alone. *)
Lemma GetDuration_map (c : UnpackingCache) (k : Key) :
  m_map (GetDuration c k).2 = m_map c.
Proof.
  unfold GetDuration. pose proof (lru_get_map c (HashKey k)) as Hm.
  destruct (lru_get c (HashKey k)) as [o c']. exact Hm.
Qed.

Lemma AddEdges_never_added (c : UnpackingCache) (adds : list (Key * EdgeDuration))
  (k : Key) :
  Forall (fun a => HashKey a.1 ≠ HashKey k) adds ->
  m_map c !! HashKey k = None ->
  m_map (AddEdges c adds) !! HashKey k = None.
Proof.
  unfold AddEdges. revert c.
  induction adds as [|a adds IH]; intros c Hall Hc; simpl; [exact Hc|].
  inversion Hall as [|? ? Ha Hrest]; subst.
  apply IH; [exact Hrest|].
  unfold AddEdge. apply lru_insert_lookup_None; assumption.
Qed.

Lemma AddEdges_room (c : UnpackingCache) (adds : list (Key * EdgeDuration))
  (k : Key) :
  Forall (fun a => HashKey a.1 ≠ HashKey k) adds ->
  (lru_size c + length adds <= m_capacity c)%nat ->
  m_map (AddEdges c adds) !! HashKey k = m_map c !! HashKey k.
Proof.
  unfold AddEdges. revert c.
  induction adds as [|a adds IH]; intros c Hall Hroom; simpl; [reflexivity|].
  inversion Hall as [|? ? Ha Hrest]; subst. simpl in Hroom.
  rewrite IH; [| exact Hrest |].
  - unfold AddEdge. apply lru_insert_lookup_room; [exact Ha | lia].
  - unfold AddEdge. rewrite lru_insert_capacity.
    pose proof (lru_insert_size c (HashKey a.1) a.2). lia.
Qed.

End WithHash.

(** ** C10: the cache is keyed by the hash *)

(** C10.  The cache stores a duration under the [std::size_t] hash of the
    key, not under the key: for distinct keys [k1] and [k2] with the same
    [HashKey], after [AddEdge(k1, d)] the key [k2] is reported to be in the
    cache and [GetDuration(k2)] is [d], although [k2] was never added. *)
Theorem hash_collision_aliases `{StdHash} (c : UnpackingCache) (k1 k2 : Key)
  (d : EdgeDuration) :
  k1 ≠ k2 ->
  HashKey k1 = HashKey k2 ->
  IsEdgeInCache (AddEdge c k1 d) k2 = true /\
  (GetDuration (AddEdge c k1 d) k2).1 = d.
Proof.
  intros _ Hcol.
  assert (Hl : m_map (AddEdge c k1 d) !! HashKey k2 = Some d).
  { unfold AddEdge. rewrite <- Hcol. apply lru_insert_lookup_same. }
  split.
  - apply IsEdgeInCache_lookup. rewrite Hl. eexists; reflexivity.
  - rewrite GetDuration_lookup, Hl. reflexivity.
Qed.

Lemma collide_in_range : key_in_range Demo.collide_a /\ key_in_range Demo.collide_b.
Proof. unfold key_in_range, Demo.collide_a, Demo.collide_b. lia. Qed.

Lemma hash_collision_aliases_witness :
  Demo.collide_a ≠ Demo.collide_b /\
  @HashKey classic_hash Demo.collide_a = @HashKey classic_hash Demo.collide_b /\
  @IsEdgeInCache classic_hash
    (@AddEdge classic_hash (new_UnpackingCache 16) Demo.collide_a 100) Demo.collide_b
  = true /\
  (@GetDuration classic_hash
     (@AddEdge classic_hash (new_UnpackingCache 16) Demo.collide_a 100)
     Demo.collide_b).1 = 100.
Proof.
  assert (Hne : Demo.collide_a ≠ Demo.collide_b) by discriminate.
  assert (Hcol : @HashKey classic_hash Demo.collide_a = @HashKey classic_hash Demo.collide_b)
    by (vm_compute; reflexivity).
  split; [exact Hne|]. split; [exact Hcol|].
  exact (@hash_collision_aliases classic_hash (new_UnpackingCache 16)
           Demo.collide_a Demo.collide_b 100 Hne Hcol).
Defined.

(** ** Collisions exist whatever the hash *)

Lemma bounded_search (f : nat -> nat) (v n : nat) :
  (exists i, (i <= n)%nat /\ f i = v) \/ (forall i, (i <= n)%nat -> f i ≠ v).
Proof.
  induction n as [|n IH].
  - destruct (decide (f 0%nat = v)) as [He|Hne].
    + left. exists 0%nat. split; [lia | exact He].
    + right. intros i Hi. replace i with 0%nat by lia. exact Hne.
  - destruct IH as [[i [Hi He]]|Hnone].
    + left. exists i. split; [lia | exact He].
    + destruct (decide (f (S n) = v)) as [He|Hne].
      * left. exists (S n). split; [lia | exact He].
      * right. intros i Hi.
        destruct (decide (i = S n)) as [->|Hd]; [exact Hne|].
        apply Hnone. lia.
Qed.

(** [n + 1] pigeons in [n] holes. *)
Lemma pigeonhole (n : nat) : forall f : nat -> nat,
  (forall i, (i <= n)%nat -> (f i < n)%nat) ->
  exists i j, (i < j <= n)%nat /\ f i = f j.
Proof.
  induction n as [|n IH]; intros f Hf.
  - specialize (Hf 0%nat). lia.
  - destruct (bounded_search f (f (S n)) n) as [[i [Hi He]]|Hnone].
    + exists i, (S n). split; [lia | exact He].
    + set (v := f (S n)) in *.
      set (g := fun i => if decide (f i < v)%nat then f i else pred (f i)).
      destruct (IH g) as [i [j [Hij Hg]]].
      * intros i Hi. unfold g.
        pose proof (Hf i ltac:(lia)). pose proof (Hnone i Hi).
        pose proof (Hf (S n) ltac:(lia)). fold v in H1.
        destruct (decide (f i < v)%nat); lia.
      * exists i, j. split; [lia|].
        unfold g in Hg.
        pose proof (Hnone i ltac:(lia)). pose proof (Hnone j ltac:(lia)).
        destruct (decide (f i < v)%nat), (decide (f j < v)%nat); lia.
Qed.

Lemma nth_key_in_range (i : Z) : 0 <= i -> key_in_range (nth_key i).
Proof.
  intros Hi. unfold nth_key, key_in_range.
  destruct (decide (i < 2 ^ 64)) as [Hlt|Hge]; [|lia].
  assert (0 <= i / 2 ^ 32 < 2 ^ 32).
  { split; [apply Z.div_pos; lia|].
    apply Z.div_lt_upper_bound; [lia|].
    replace (2 ^ 32 * 2 ^ 32) with (2 ^ 64) by reflexivity. exact Hlt. }
  pose proof (Z.mod_pos_bound i (2 ^ 32) ltac:(lia)). lia.
Qed.

Lemma nth_key_inj (i j : Z) :
  0 <= i <= 2 ^ 64 -> 0 <= j <= 2 ^ 64 -> nth_key i = nth_key j -> i = j.
Proof.
  intros Hi Hj. unfold nth_key.
  destruct (decide (i < 2 ^ 64)), (decide (j < 2 ^ 64));
    intros Heq; inversion Heq; try lia.
  rewrite (Z.div_mod i (2 ^ 32)), (Z.div_mod j (2 ^ 32)) by lia.
  congruence.
Qed.

(** Whatever [std::hash] and [hash_combine] are, as soon as the hash is a
    64-bit word two keys that the C++ types can hold have the same one: there
    are more keys than words. *)
Theorem collision_exists `{StdHash} :
  (forall k, key_in_range k -> 0 <= HashKey k < 2 ^ 64) ->
  exists k1 k2, key_in_range k1 /\ key_in_range k2 /\ k1 ≠ k2 /\
                HashKey k1 = HashKey k2.
Proof.
  intros Hrange.
  set (n := Z.to_nat (2 ^ 64)).
  assert (Hn : Z.of_nat n = 2 ^ 64) by (unfold n; apply Z2Nat.id; lia).
  clearbody n.
  destruct (pigeonhole n (fun i => Z.to_nat (HashKey (nth_key (Z.of_nat i)))))
    as [i [j [Hij Heq]]].
  - intros i Hi.
    pose proof (Hrange (nth_key (Z.of_nat i))
                  (nth_key_in_range _ (Nat2Z.is_nonneg i))) as Hr.
    apply Nat2Z.inj_lt. rewrite Z2Nat.id by lia. lia.
  - exists (nth_key (Z.of_nat i)), (nth_key (Z.of_nat j)).
    pose proof (nth_key_in_range _ (Nat2Z.is_nonneg i)) as Hri.
    pose proof (nth_key_in_range _ (Nat2Z.is_nonneg j)) as Hrj.
    split; [exact Hri|]. split; [exact Hrj|]. split.
    + intros Hk. apply nth_key_inj in Hk; lia.
    + pose proof (Hrange _ Hri). pose proof (Hrange _ Hrj).
      apply Z2Nat.inj in Heq; lia.
Qed.

Lemma lxor_word (a b : Z) :
  0 <= a < 2 ^ 64 -> 0 <= b < 2 ^ 64 -> 0 <= Z.lxor a b < 2 ^ 64.
Proof.
  intros Ha Hb.
  assert (Hnn : 0 <= Z.lxor a b) by (apply Z.lxor_nonneg; lia).
  split; [exact Hnn|].
  destruct (decide (Z.lxor a b = 0)) as [->|Hnz]; [lia|].
  apply Z.log2_lt_pow2; [lia|].
  pose proof (Z.log2_lxor a b ltac:(lia) ltac:(lia)) as Hl.
  assert (Z.log2 a < 64).
  { destruct (decide (a = 0)) as [->|]; [reflexivity|].
    apply Z.log2_lt_pow2; lia. }
  assert (Z.log2 b < 64).
  { destruct (decide (b = 0)) as [->|]; [reflexivity|].
    apply Z.log2_lt_pow2; lia. }
  lia.
Qed.

Lemma classic_combine_word (seed v : Z) :
  0 <= seed < 2 ^ 64 -> 0 <= classic_combine seed v < 2 ^ 64.
Proof.
  intros Hs. unfold classic_combine, wrap64.
  apply lxor_word; [exact Hs|]. apply Z.mod_pos_bound. lia.
Qed.

(** The reference hash is a 64-bit word: [collision_exists] applies to it. *)
Lemma classic_hash_word (k : Key) : 0 <= @HashKey classic_hash k < 2 ^ 64.
Proof.
  destruct k as [[[u v] x] t]. unfold HashKey. simpl.
  repeat apply classic_combine_word. lia.
Qed.

(** ** C9: hits and misses *)

(** C9, as the code has it.  Right after [AddEdge(k, d)], and as long as the
    later additions have other hashes and fit without an eviction,
    [GetDuration(k)] returns [d]; and in a cache where no key with the hash
    of [k] was ever added, [GetDuration(k)] returns the sentinel maximal
    duration.  A miss is decided by the hash of the key, not by the key. *)
Theorem GetDuration_hit_and_miss `{StdHash} (c : UnpackingCache) (k : Key)
  (d : EdgeDuration) (adds : list (Key * EdgeDuration)) :
  Forall (fun a => HashKey a.1 ≠ HashKey k) adds ->
  (GetDuration (AddEdge c k d) k).1 = d /\
  ((lru_size (AddEdge c k d) + length adds <= m_capacity c)%nat ->
   (GetDuration (AddEdges (AddEdge c k d) adds) k).1 = d) /\
  (forall cache_size,
     IsEdgeInCache (AddEdges (new_UnpackingCache cache_size) adds) k = false /\
     (GetDuration (AddEdges (new_UnpackingCache cache_size) adds) k).1
     = MAXIMAL_EDGE_DURATION).
Proof.
  intros Hadds.
  assert (Hsame : m_map (AddEdge c k d) !! HashKey k = Some d)
    by apply lru_insert_lookup_same.
  split; [|split].
  - rewrite GetDuration_lookup, Hsame. reflexivity.
  - intros Hroom. rewrite GetDuration_lookup.
    rewrite AddEdges_room; [rewrite Hsame; reflexivity | exact Hadds |].
    unfold AddEdge at 2. rewrite lru_insert_capacity. exact Hroom.
  - intros cache_size.
    assert (Hnone : m_map (AddEdges (new_UnpackingCache cache_size) adds)
                      !! HashKey k = None).
    { apply AddEdges_never_added; [exact Hadds|]. apply lookup_empty. }
    split.
    + destruct (IsEdgeInCache _ k) eqn:Hin; [|reflexivity].
      apply IsEdgeInCache_lookup in Hin. rewrite Hnone in Hin.
      destruct Hin as [? Hin]. discriminate Hin.
    + rewrite GetDuration_lookup, Hnone. reflexivity.
Qed.

Lemma GetDuration_hit_and_miss_witness :
  let c := @AddEdge classic_hash (new_UnpackingCache 4) (10, 20, 0, 7) 55 in
  let adds := [((11, 20, 0, 7), 60); ((10, 21, 1, 7), 61)] in
  (@GetDuration classic_hash c (10, 20, 0, 7)).1 = 55 /\
  (@GetDuration classic_hash (@AddEdges classic_hash c adds) (10, 20, 0, 7)).1
  = 55 /\
  (@GetDuration classic_hash
     (@AddEdges classic_hash (new_UnpackingCache 4) adds) (10, 20, 0, 7)).1
  = MAXIMAL_EDGE_DURATION.
Proof.
  intros c adds.
  assert (Hadds : Forall (fun a => @HashKey classic_hash a.1
                                   ≠ @HashKey classic_hash (10, 20, 0, 7)) adds).
  { repeat constructor; vm_compute; discriminate. }
  destruct (@GetDuration_hit_and_miss classic_hash (new_UnpackingCache 4)
              (10, 20, 0, 7) 55 adds Hadds) as [H1 [H2 H3]].
  split; [exact H1|]. split.
  - apply H2. vm_compute. lia.
  - apply (H3 4%nat).
Defined.

(** Under the reference hash two keys that differ in the version only never
    collide: [hash_combine] is injective in the value it mixes in. *)
Lemma classic_combine_inj (seed v v' : Z) :
  0 <= v < 2 ^ 32 -> 0 <= v' < 2 ^ 32 ->
  classic_combine seed v = classic_combine seed v' -> v = v'.
Proof.
  intros Hv Hv' Heq. unfold classic_combine in Heq.
  apply (f_equal (Z.lxor seed)) in Heq.
  rewrite <- !Z.lxor_assoc, Z.lxor_nilpotent, !Z.lxor_0_l in Heq.
  unfold wrap64 in Heq.
  set (K := 0x9e3779b9 + Z.shiftl seed 6 mod 2 ^ 64 + Z.shiftr seed 2) in *.
  replace (v + 0x9e3779b9 + Z.shiftl seed 6 mod 2 ^ 64 + Z.shiftr seed 2)
    with (v + K) in Heq by (unfold K; ring).
  replace (v' + 0x9e3779b9 + Z.shiftl seed 6 mod 2 ^ 64 + Z.shiftr seed 2)
    with (v' + K) in Heq by (unfold K; ring).
  assert (Hd : ((v + K) - (v' + K)) mod 2 ^ 64 = 0).
  { rewrite Zminus_mod, Heq, Z.sub_diag. reflexivity. }
  replace (v + K - (v' + K)) with (v - v') in Hd by ring.
  apply Z.mod_divide in Hd; [|lia]. destruct Hd as [q Hq]. nia.
Qed.

Lemma classic_versions_distinct (u v x t t' : Z) :
  0 <= t < 2 ^ 32 -> 0 <= t' < 2 ^ 32 -> t ≠ t' ->
  @HashKey classic_hash (u, v, x, t) ≠ @HashKey classic_hash (u, v, x, t').
Proof.
  intros Ht Ht' Hne Heq. apply Hne. unfold HashKey in Heq. simpl in Heq.
  exact (classic_combine_inj _ _ _ Ht Ht' Heq).
Qed.

(** So what was cached for one version is a miss for another version. *)
Lemma version_bump_misses_classic (u v x t t' : Z) (d : EdgeDuration)
  (cache_size : nat) :
  0 <= t < 2 ^ 32 -> 0 <= t' < 2 ^ 32 -> t ≠ t' ->
  (@GetDuration classic_hash
     (@AddEdge classic_hash (new_UnpackingCache cache_size) (u, v, x, t) d)
     (u, v, x, t')).1 = MAXIMAL_EDGE_DURATION.
Proof.
  intros Ht Ht' Hne. rewrite GetDuration_lookup. unfold AddEdge.
  rewrite lru_insert_lookup_None; [reflexivity | | apply lookup_empty].
  apply classic_versions_distinct; assumption.
Qed.

(** The scenario of the versions: what was cached for version 7 is a miss
    for version 8 under the reference hash. *)
Example version_bump_misses :
  let c := @AddEdge classic_hash (new_UnpackingCache 4) (10, 20, 0, 7) 55 in
  (@GetDuration classic_hash c (10, 20, 0, 7)).1 = 55 /\
  (@GetDuration classic_hash c (10, 20, 0, 8)).1 = MAXIMAL_EDGE_DURATION.
Proof. vm_compute. split; reflexivity. Qed.

(** C9, as it is stated, fails: [Demo.collide_b] was never added to the cache,
    and [GetDuration] returns the duration of [Demo.collide_a] for it, not the
    sentinel. *)
Lemma never_added_key_hits :
  let c := @AddEdge classic_hash (new_UnpackingCache 16) Demo.collide_a 100 in
  key_in_range Demo.collide_a /\ key_in_range Demo.collide_b /\
  (Demo.collide_b ∉ [Demo.collide_a]) /\
  (@GetDuration classic_hash c Demo.collide_b).1 = 100 /\
  100 ≠ MAXIMAL_EDGE_DURATION.
Proof.
  intros c.
  split; [apply collide_in_range|]. split; [apply collide_in_range|].
  split; [|split].
  - intros Hin. apply list_elem_of_singleton in Hin. discriminate Hin.
  - vm_compute. reflexivity.
  - vm_compute. discriminate.
Qed.

End CacheFacts.

(* ===================================================================== *)
(** * Part VI: properties of the layout planner *)
(* ===================================================================== *)

Module LayoutFacts.
Import Storage Props.
Local Open Scope string_scope.

Lemma prefix_spec (p s : string) :
  String.prefix p s = true <-> exists b, s = p +:+ b.
Proof.
  revert s. induction p as [|c p IH]; intros s.
  - split; [intros _; exists s; reflexivity | intros _; destruct s; reflexivity].
  - destruct s as [|c' s]; simpl.
    + split; [discriminate | intros [b Hb]; discriminate Hb].
    + destruct (Ascii.ascii_dec c c') as [->|Hne].
      * rewrite IH. split; intros [b Hb]; exists b; [rewrite Hb; reflexivity|].
        inversion Hb. reflexivity.
      * split; [discriminate | intros [b Hb]; inversion Hb; congruence].
Qed.

Lemma occurs_in_cons (pat : string) (c : ascii) (s : string) :
  occurs_in pat (String c s) <->
  String.prefix pat (String c s) = true \/ occurs_in pat s.
Proof.
  split.
  - intros [a [b Hs]]. destruct a as [|c' a]; simpl in Hs.
    + left. apply prefix_spec. exists b. exact Hs.
    + right. inversion Hs. exists a, b. reflexivity.
  - intros [Hp|[a [b Hs]]].
    + apply prefix_spec in Hp. destruct Hp as [b Hb].
      exists EmptyString, b. simpl. exact Hb.
    + exists (String c a), b. simpl. rewrite Hs. reflexivity.
Qed.

Lemma occurs_in_empty (pat : string) :
  occurs_in pat EmptyString <-> String.prefix pat EmptyString = true.
Proof.
  split.
  - intros [a [b Hs]]. destruct a; [|discriminate Hs]. simpl in Hs.
    apply prefix_spec. exists b. exact Hs.
  - intros Hp. apply prefix_spec in Hp. destruct Hp as [b Hb].
    exists EmptyString, b. exact Hb.
Qed.

Lemma rfind_from_Some (pat s : string) (i j : nat) :
  rfind_from pat s i = Some j -> occurs_in pat s.
Proof.
  revert i j. induction s as [|c s IH]; intros i j; cbn [rfind_from].
  - destruct (String.prefix pat EmptyString) eqn:Hp; [|discriminate].
    intros _. apply occurs_in_empty, Hp.
  - destruct (rfind_from pat s (S i)) as [j'|] eqn:Hr.
    + intros _. apply occurs_in_cons. right. apply (IH (S i) j'), Hr.
    + destruct (String.prefix pat (String c s)) eqn:Hp; [|discriminate].
      intros _. apply occurs_in_cons. left. exact Hp.
Qed.

Lemma rfind_from_None (pat s : string) (i : nat) :
  rfind_from pat s i = None -> ~ occurs_in pat s.
Proof.
  revert i. induction s as [|c s IH]; intros i; cbn [rfind_from].
  - destruct (String.prefix pat EmptyString) eqn:Hp; [discriminate|].
    intros _ Ho. apply occurs_in_empty in Ho. congruence.
  - destruct (rfind_from pat s (S i)) as [j'|] eqn:Hr; [discriminate|].
    destruct (String.prefix pat (String c s)) eqn:Hp; [discriminate|].
    intros _ Ho. apply occurs_in_cons in Ho. destruct Ho as [Ho|Ho].
    + congruence.
    + exact (IH (S i) Hr Ho).
Qed.

(** [rfind] answers [npos] exactly when the pattern occurs nowhere. *)
Lemma rfind_npos (s pat : string) :
  rfind s pat = None <-> ~ occurs_in pat s.
Proof.
  unfold rfind. split; [apply rfind_from_None|].
  intros Hn. destruct (rfind_from pat s 0) as [j|] eqn:Hr; [|reflexivity].
  exfalso. apply Hn. exact (rfind_from_Some _ _ _ _ Hr).
Qed.

Lemma ends_with_occurs_in (suffix s : string) :
  ends_with suffix s -> occurs_in suffix s.
Proof.
  intros [a Ha]. exists a, EmptyString. rewrite Ha. f_equal.
  clear. induction suffix as [|c p IH]; [reflexivity|].
  change (String c p = String c (p +:+ EmptyString)). f_equal. exact IH.
Qed.

Lemma string_drop_app (a suffix : string) :
  string_drop (String.length a) (a +:+ suffix) = suffix.
Proof.
  induction a as [|c a IH]; [destruct suffix; reflexivity|].
  change (string_drop (String.length a) (a +:+ suffix) = suffix). exact IH.
Qed.

Lemma length_app_string (a b : string) :
  String.length (a +:+ b) = (String.length a + String.length b)%nat.
Proof.
  induction a as [|c a IH]; [reflexivity|].
  change (S (String.length (a +:+ b)) = S (String.length a + String.length b)).
  f_equal. exact IH.
Qed.

Lemma ends_with_drop (suffix s : string) :
  ends_with suffix s ->
  string_drop (String.length s - String.length suffix) s = suffix.
Proof.
  intros [a ->]. rewrite length_app_string.
  replace (String.length a + String.length suffix - String.length suffix)%nat
    with (String.length a) by lia.
  apply string_drop_app.
Qed.

(** ** The loop of [readBlocks] *)

Lemma readBlocks_entries_snoc (a : Artifact) (l : list FileEntry.t)
  (x : FileEntry.t) (layout : DataLayout) (n : string) :
  let step := fun layout entry =>
    match rfind (FileEntry.name entry) ".meta" with
    | None =>
        SetBlock layout (FileEntry.name entry)
          {| num_entries := element_count a (FileEntry.name entry);
             byte_size := FileEntry.size entry |}
    | Some _ => layout
    end in
  step (fold_left step l layout) x !! n =
  if decide (sets_block n x)
  then Some {| num_entries := element_count a n;
               byte_size := FileEntry.size x |}
  else fold_left step l layout !! n.
Proof.
  intros step. unfold step at 1.
  destruct (decide (sets_block n x)) as [[Hn Hd]|Hd].
  - rewrite Hd, Hn. apply lookup_insert_eq.
  - destruct (rfind (FileEntry.name x) ".meta") as [j|] eqn:Hr; [reflexivity|].
    apply lookup_insert_ne. intros Hn. apply Hd. split; assumption.
Qed.

(** The blocks after the loop: the last entry that sets a name decides its
    block, and a name that no entry sets keeps what the layout had. *)
Lemma readBlocks_entries_lookup (a : Artifact) (layout : DataLayout)
  (n : string) :
  readBlocks_entries a layout !! n =
  match last (filter (sets_block n) (entries a)) with
  | Some entry => Some {| num_entries := element_count a n;
                          byte_size := FileEntry.size entry |}
  | None => layout !! n
  end.
Proof.
  unfold readBlocks_entries.
  induction (entries a) as [|x l IH] using rev_ind; [reflexivity|].
  rewrite fold_left_app. cbn [fold_left].
  rewrite (readBlocks_entries_snoc a l x layout n).
  rewrite filter_app, filter_cons, filter_nil.
  destruct (decide (sets_block n x)) as [Hs|Hs].
  - rewrite last_snoc. reflexivity.
  - rewrite app_nil_r. exact IH.
Qed.

(** ** C6: which entries become blocks *)

(** The last element of a list that satisfies [P]: none behind it does. *)
Lemma last_filter_split {A} (P : A -> Prop) `{forall x, Decision (P x)}
  (l : list A) (x : A) :
  last (filter P l) = Some x ->
  exists pre post,
    l = (pre ++ x :: post)%list /\ P x /\ Forall (fun y => ~ P y) post.
Proof.
  induction l as [|y l IH] using rev_ind; [discriminate|].
  rewrite filter_app, filter_cons, filter_nil.
  destruct (decide (P y)) as [Hy|Hy].
  - rewrite last_snoc. intros Heq. inversion Heq; subst y.
    exists l, []. split; [reflexivity|]. split; [exact Hy | constructor].
  - rewrite app_nil_r. intros Hlast.
    destruct (IH Hlast) as [pre [post [-> [Hx Hpost]]]].
    exists pre, (post ++ [y])%list. rewrite <- app_assoc. split; [reflexivity|].
    split; [exact Hx|]. apply Forall_app. split; [exact Hpost|].
    constructor; [exact Hy | constructor].
Qed.

(** C6, as the code has it.  An entry enumerated by [readBlocks] is left out
    of the blocks exactly when [".meta"] occurs somewhere in its name (the
    test is [rfind(".meta") == npos], not a test of the end of the name): then
    its name keeps what the layout had before.  An entry in whose name
    [".meta"] does not occur sets the block of its name, with the element
    count read from the archive for that name and the byte size of the last
    entry of that name in the archive: of the entry itself, unless the
    archive lists the name again behind it with another size. *)
Theorem readBlocks_skips_meta (fs : FileSystem) (path : string)
  (a : Artifact) (layout L : DataLayout) (entry : FileEntry.t) :
  fs !! path = Some a ->
  readBlocks fs path layout = Return L ->
  entry ∈ entries a ->
  (occurs_in ".meta" (FileEntry.name entry) ->
   L !! FileEntry.name entry = layout !! FileEntry.name entry) /\
  (~ occurs_in ".meta" (FileEntry.name entry) ->
   exists pre entry' post,
     entries a = (pre ++ entry' :: post)%list /\
     FileEntry.name entry' = FileEntry.name entry /\
     Forall (fun later => FileEntry.name later ≠ FileEntry.name entry) post /\
     L !! FileEntry.name entry
     = Some {| num_entries := element_count a (FileEntry.name entry);
               byte_size := FileEntry.size entry' |}) /\
  (~ occurs_in ".meta" (FileEntry.name entry) ->
   (forall entry', entry' ∈ entries a ->
      FileEntry.name entry' = FileEntry.name entry ->
      FileEntry.size entry' = FileEntry.size entry) ->
   L !! FileEntry.name entry
   = Some {| num_entries := element_count a (FileEntry.name entry);
             byte_size := FileEntry.size entry |}).
Proof.
  intros Hfs Hread Hin. unfold readBlocks in Hread. rewrite Hfs in Hread.
  destruct (fingerprint_ok a); [|discriminate Hread].
  injection Hread as <-.
  pose proof (readBlocks_entries_lookup a layout (FileEntry.name entry)) as Hl.
  assert (Hset : ~ occurs_in ".meta" (FileEntry.name entry) ->
            exists pre entry' post,
              entries a = (pre ++ entry' :: post)%list /\
              FileEntry.name entry' = FileEntry.name entry /\
              Forall (fun later => FileEntry.name later ≠ FileEntry.name entry)
                post /\
              readBlocks_entries a layout !! FileEntry.name entry
              = Some {| num_entries := element_count a (FileEntry.name entry);
                        byte_size := FileEntry.size entry' |}).
  { intros Hno.
    destruct (last (filter (sets_block (FileEntry.name entry)) (entries a)))
      as [entry'|] eqn:Hlast.
    - apply last_filter_split in Hlast.
      destruct Hlast as [pre [post [Hsplit [[Hn _] Hpost]]]].
      exists pre, entry', post. split; [exact Hsplit|]. split; [exact Hn|].
      split; [|exact Hl].
      eapply Forall_impl; [exact Hpost|]. intros later Hlater Hname.
      apply Hlater. split; [exact Hname|]. rewrite Hname.
      apply rfind_npos, Hno.
    - apply last_None in Hlast. exfalso.
      apply (filter_nil_not_elem_of _ _ entry Hlast); [|exact Hin].
      split; [reflexivity|]. apply rfind_npos, Hno. }
  split; [|split].
  - intros Hocc. rewrite Hl.
    destruct (last (filter (sets_block (FileEntry.name entry)) (entries a)))
      as [entry'|] eqn:Hlast; [|reflexivity].
    apply last_Some_elem_of, list_elem_of_filter in Hlast.
    destruct Hlast as [[Hn Hr] _]. rewrite Hn in Hr.
    apply rfind_npos in Hr. contradiction.
  - exact Hset.
  - intros Hno Hsize.
    destruct (Hset Hno) as [pre [entry' [post [Hsplit [Hn [_ Hb]]]]]].
    rewrite Hb, (Hsize entry'); [reflexivity | | exact Hn].
    rewrite Hsplit. apply elem_of_app. right. apply elem_of_cons. left.
    reflexivity.
Qed.

Lemma readBlocks_skips_meta_witness :
  let L := readBlocks_entries Demo.metadata_archive ∅ in
  L !! "/common/names/values.meta" = None /\
  L !! "/common/names/values"
  = Some {| num_entries := 9; byte_size := 9 |}.
Proof.
  intros L.
  assert (Hfs : Demo.metadata_fs !! "/data/map.osrm.names" = Some Demo.metadata_archive)
    by reflexivity.
  assert (Hread : readBlocks Demo.metadata_fs "/data/map.osrm.names" ∅ = Return L)
    by reflexivity.
  split.
  - assert (Hin : {| FileEntry.name := "/common/names/values.meta";
                     FileEntry.size := 8 |} ∈ entries Demo.metadata_archive)
      by (simpl; repeat constructor).
    destruct (readBlocks_skips_meta Demo.metadata_fs "/data/map.osrm.names"
                Demo.metadata_archive ∅ L _ Hfs Hread Hin) as [Hskip _].
    etrans; [apply Hskip | reflexivity].
    exists "/common/names/values", EmptyString. reflexivity.
  - assert (Hin : {| FileEntry.name := "/common/names/values";
                     FileEntry.size := 9 |} ∈ entries Demo.metadata_archive)
      by (simpl; repeat constructor).
    destruct (readBlocks_skips_meta Demo.metadata_fs "/data/map.osrm.names"
                Demo.metadata_archive ∅ L _ Hfs Hread Hin) as [_ [_ Hset]].
    apply Hset.
    + apply rfind_npos. reflexivity.
    + intros entry' Hin' Hn. simpl in Hin'.
      repeat (apply elem_of_cons in Hin'; destruct Hin' as [->|Hin']);
        try reflexivity; try discriminate Hn.
      apply elem_of_nil in Hin'. contradiction.
Defined.

(** C6, as it is stated, fails: the name ["/common/names.metadata/lang"] does
    not end with [".meta"], and [readBlocks] leaves the entry out. *)
Lemma meta_inside_name_is_skipped :
  ~ ends_with ".meta" "/common/names.metadata/lang" /\
  In {| FileEntry.name := "/common/names.metadata/lang"; FileEntry.size := 2 |}
     (entries Demo.metadata_archive) /\
  exists L, readBlocks Demo.metadata_fs "/data/map.osrm.names" ∅ = Return L /\
            L !! "/common/names.metadata/lang" = None.
Proof.
  split; [|split].
  - intros He. apply ends_with_drop in He. vm_compute in He. discriminate He.
  - simpl. tauto.
  - eexists. split; [reflexivity|]. vm_compute. reflexivity.
Qed.

End LayoutFacts.

(* ===================================================================== *)
(** * Part VII: properties of the publish protocol *)
(* ===================================================================== *)

Module PublishFacts.
Import Storage Props.
Local Open Scope string_scope.

(** ** The monad *)

Lemma bind_unfold {A B} (m : M A) (f : A -> M B) (w : World) :
  (m ≫= f) w =
  match m w with
  | (Return a, w') => f a w'
  | (Throw e, w') => (Throw e, w')
  end.
Proof. reflexivity. Qed.

Lemma bind_Return {A B} (m : M A) (f : A -> M B) (w w1 : World) (a : A) :
  m w = (Return a, w1) -> (m ≫= f) w = f a w1.
Proof. intros Hm. rewrite bind_unfold, Hm. reflexivity. Qed.

Lemma bind_Throw {A B} (m : M A) (f : A -> M B) (w w1 : World) (e : Error) :
  m w = (Throw e, w1) -> (m ≫= f) w = (Throw e, w1).
Proof. intros Hm. rewrite bind_unfold, Hm. reflexivity. Qed.

Lemma bind_inv {A B} (m : M A) (f : A -> M B) (w w' : World) (r : outcome B) :
  (m ≫= f) w = (r, w') ->
  (exists a w1, m w = (Return a, w1) /\ f a w1 = (r, w')) \/
  (exists e, m w = (Throw e, w') /\ r = Throw e).
Proof.
  rewrite bind_unfold. destruct (m w) as [[a|e] w1]; intros Hf.
  - left. exists a, w1. split; [reflexivity | exact Hf].
  - right. exists e. inversion Hf. split; reflexivity.
Qed.

(** ** The retirement loop *)

Lemma retire_spec (old_handle : RegionHandle) (w : World) :
  exists w',
    retire old_handle w = (Return tt, w') /\
    w_trace w' = (w_trace w ++
                   [EvRemove (shm_key old_handle) (hd true (w_remove_results w));
                    EvWaitForDetach (memory old_handle);
                    EvReleaseKey (shm_key old_handle)])%list /\
    w_remove_results w' = tail (w_remove_results w) /\
    regions (w_register w') = regions (w_register w) /\
    w_timed_lock w' = w_timed_lock w.
Proof.
  eexists. split; [reflexivity|]. simpl.
  destruct (w_remove_results w) as [|r rs]; simpl;
    rewrite <- !app_assoc; simpl; auto.
Qed.

Lemma for_each_retire_spec (olds : list RegionHandle) (w : World) :
  exists w',
    for_each olds retire w = (Return tt, w') /\
    w_trace w' = (w_trace w ++ retirement_events olds (w_remove_results w))%list /\
    regions (w_register w') = regions (w_register w).
Proof.
  revert w. induction olds as [|h olds IH]; intros w.
  - exists w. split; [reflexivity|]. simpl. rewrite app_nil_r. auto.
  - destruct (retire_spec h w) as [w1 [Hr [Ht [Hres [Hreg _]]]]].
    destruct (IH w1) as [w' [Hf [Ht' Hreg']]].
    exists w'. split; [|split].
    + cbn [for_each]. rewrite (bind_Return _ _ _ _ _ Hr). exact Hf.
    + rewrite Ht', Ht, Hres, <- app_assoc. reflexivity.
    + rewrite Hreg', Hreg. reflexivity.
Qed.

(** ** The swap loop *)

Ltac run_M :=
  unfold swap_one, Register, ReserveKey, ReleaseKey, RegionExists,
    makeSharedMemory_attach, makeSharedMemory_create, write_header,
    write_block, WaitForDetach, timed_lock, lock, unlock, notify_all,
    get_register, put_register, get_segments, put_segments, emit, ret, throw;
  repeat (rewrite bind_unfold; cbn [mret M_ret]).

Lemma swap_one_frame `{RegisterImpl}
  (p : string * RegionHandle) (olds : list RegionHandle)
  (w w' : World) (r : outcome (list RegionHandle)) :
  swap_one p olds w = (r, w') ->
  w_segments w' = w_segments w /\
  w_remove_results w' = w_remove_results w /\
  w_timed_lock w' = w_timed_lock w /\
  shm_key_in_use (w_register w') = shm_key_in_use (w_register w) /\
  exists evs,
    w_trace w' = (w_trace w ++ evs)%list /\
    Forall (fun e => ~ retiring e) evs /\
    forall olds', r = Return olds' ->
      exists news, olds' = (olds ++ news)%list /\
        Forall (fun h => memory h = shm_key h) news /\
        map shm_key news = swapped_out evs.
Proof.
  run_M.
  destruct (Find (w_register w) p.1) as [region_id|].
  - destruct (GetRegion (w_register w) region_id) as [shared_region|].
    + run_M. destruct (w_segments w !! SharedRegion.shm_key shared_region).
      * run_M. simpl. intros Heq. inversion Heq; subst; clear Heq. simpl.
        repeat split; try reflexivity.
        eexists. rewrite <- app_assoc. split; [reflexivity|]. simpl.
        split; [repeat constructor; auto|].
        intros olds' Ho. inversion Ho; subst.
        eexists. split; [reflexivity|]. split; [repeat constructor|reflexivity].
      * simpl. intros Heq. inversion Heq; subst; clear Heq.
        repeat split; try reflexivity.
        exists []. rewrite app_nil_r. split; [reflexivity|].
        split; [constructor|]. intros olds' Ho. discriminate Ho.
    + simpl. intros Heq. inversion Heq; subst; clear Heq.
      repeat split; try reflexivity.
      exists []. rewrite app_nil_r. split; [reflexivity|].
      split; [constructor|]. intros olds' Ho. inversion Ho; subst.
      exists []. rewrite app_nil_r. repeat split; constructor.
  - run_M.
    destruct (list_find (fun r => SharedRegion.name r = EmptyString)
                (regions (w_register w))) as [[region_id empty_slot]|].
    + run_M. simpl. intros Heq. inversion Heq; subst; clear Heq. simpl.
      repeat split; try reflexivity.
      eexists. split; [reflexivity|]. split; [repeat constructor; auto|].
      intros olds' Ho. inversion Ho; subst.
      exists []. rewrite app_nil_r. repeat split; constructor.
    + simpl. intros Heq. inversion Heq; subst; clear Heq.
      repeat split; try reflexivity.
      exists []. rewrite app_nil_r. split; [reflexivity|].
      split; [constructor|]. intros olds' Ho. discriminate Ho.
Qed.

Lemma swapped_out_app (a b : list Event) :
  swapped_out (a ++ b) = (swapped_out a ++ swapped_out b)%list.
Proof. unfold swapped_out. apply omap_app. Qed.

Lemma swap_loop_frame `{RegisterImpl}
  (handles : list (string * RegionHandle))
  (olds : list RegionHandle) (w w' : World) (r : outcome (list RegionHandle)) :
  swap_loop handles olds w = (r, w') ->
  w_segments w' = w_segments w /\
  w_remove_results w' = w_remove_results w /\
  w_timed_lock w' = w_timed_lock w /\
  shm_key_in_use (w_register w') = shm_key_in_use (w_register w) /\
  exists evs,
    w_trace w' = (w_trace w ++ evs)%list /\
    Forall (fun e => ~ retiring e) evs /\
    forall olds', r = Return olds' ->
      exists news, olds' = (olds ++ news)%list /\
        Forall (fun h => memory h = shm_key h) news /\
        map shm_key news = swapped_out evs.
Proof.
  revert olds w. induction handles as [|p rest IH]; intros olds w.
  - simpl. intros Heq. inversion Heq; subst; clear Heq.
    repeat split; try reflexivity.
    exists []. rewrite app_nil_r. split; [reflexivity|].
    split; [constructor|]. intros olds' Ho. inversion Ho; subst.
    exists []. rewrite app_nil_r. repeat split; constructor.
  - cbn [swap_loop]. intros Hloop. apply bind_inv in Hloop.
    destruct Hloop as [[olds1 [w1 [Hone Hrest]]]|[e [Hone ->]]].
    + apply swap_one_frame in Hone.
      destruct Hone as [Hs [Hrr [Htl [Hk [evs1 [Ht1 [Hq1 Ho1]]]]]]].
      apply IH in Hrest.
      destruct Hrest as [Hs' [Hrr' [Htl' [Hk' [evs2 [Ht2 [Hq2 Ho2]]]]]]].
      repeat split; try congruence.
      exists (evs1 ++ evs2)%list. split; [rewrite Ht2, Ht1, app_assoc; reflexivity|].
      split; [apply Forall_app; split; assumption|].
      intros olds' Hr. destruct (Ho1 olds1 eq_refl) as [n1 [-> [Hm1 Hsw1]]].
      destruct (Ho2 olds' Hr) as [n2 [-> [Hm2 Hsw2]]].
      exists (n1 ++ n2)%list. rewrite app_assoc. split; [reflexivity|].
      split; [apply Forall_app; split; assumption|].
      rewrite map_app, swapped_out_app. congruence.
    + apply swap_one_frame in Hone.
      destruct Hone as [Hs [Hrr [Htl [Hk [evs1 [Ht1 [Hq1 Ho1]]]]]]].
      repeat split; try assumption.
      exists evs1. split; [exact Ht1|]. split; [exact Hq1|].
      intros olds' Ho. discriminate Ho.
Qed.

(** ** [swapData] *)

Lemma take_mutex_spec (max_wait : Z) (w : World) :
  exists ev wl,
    take_mutex max_wait w
    = (Return (if bool_decide (0 <= max_wait)%Z then w_timed_lock w else true),
       wl) /\
    (~ retiring ev /\ swapped_out [ev] = []) /\
    w_trace wl = (w_trace w ++ [ev])%list /\
    w_register wl = w_register w /\
    w_segments wl = w_segments w /\
    w_remove_results wl = w_remove_results w /\
    w_timed_lock wl = w_timed_lock w.
Proof.
  unfold take_mutex. destruct (bool_decide (0 <= max_wait)%Z).
  - exists (EvTimedLock max_wait (w_timed_lock w)). eexists.
    split; [reflexivity|]. simpl. auto 10.
  - exists EvLock. eexists. split; [reflexivity|]. simpl. auto 10.
Qed.

Lemma swapData_unfold `{RegisterImpl}
  (handles : list (string * RegionHandle)) (max_wait : Z) :
  swapData handles max_wait =
  (locked ← take_mutex max_wait;
   if negb locked then
     for_each handles (fun pair => Remove (shm_key pair.2);; ret tt);;
     ret false
   else
     old_handles ← scoped_lock (swap_loop handles []);
     notify_all;;
     for_each old_handles retire;;
     ret true).
Proof. reflexivity. Qed.

(** What a successful [swapData] did: it took the mutex, ran the swap loop
    to its end, released the mutex, notified, and retired the old handles. *)
Lemma swapData_success `{RegisterImpl}
  (handles : list (string * RegionHandle)) (max_wait : Z)
  (w w' : World) :
  swapData handles max_wait w = (Return true, w') ->
  exists ev evs olds wl w1,
    w_register wl = w_register w /\
    swap_loop handles [] wl = (Return olds, w1) /\
    regions (w_register w') = regions (w_register w1) /\
    (~ retiring ev /\ swapped_out [ev] = []) /\
    Forall (fun e => ~ retiring e) evs /\
    Forall (fun h => memory h = shm_key h) olds /\
    map shm_key olds = swapped_out evs /\
    w_trace w' =
      (w_trace w ++ (ev :: evs ++ [EvUnlock; EvNotifyAll])
         ++ retirement_events olds (w_remove_results w))%list.
Proof.
  rewrite swapData_unfold.
  destruct (take_mutex_spec max_wait w)
    as [ev [wl [Hm [[Hq Hev] [Ht [Hreg [Hseg [Hres Htl]]]]]]]].
  rewrite (bind_Return _ _ _ _ _ Hm).
  destruct (if bool_decide (0 <= max_wait)%Z then w_timed_lock w else true).
  2:{ cbn [negb]. intros Hf. apply bind_inv in Hf.
      destruct Hf as [[a [w2 [_ Hf]]]|[e [_ Hf]]]; [|discriminate Hf].
      inversion Hf. }
  cbn [negb]. intros Hs. apply bind_inv in Hs.
  destruct Hs as [[olds [w2 [Hloop Hs]]]|[e [_ Hs]]]; [|discriminate Hs].
  unfold scoped_lock in Hloop.
  destruct (swap_loop handles [] wl) as [r w1] eqn:Hsl.
  inversion Hloop; subst r w2; clear Hloop.
  pose proof (swap_loop_frame _ _ _ _ _ Hsl)
    as [_ [Hres1 [_ [_ [evs [Ht1 [Hq1 Ho1]]]]]]].
  destruct (Ho1 olds eq_refl) as [news [Hn [Hmem Hsw]]]. simpl in Hn. subst news.
  apply bind_inv in Hs.
  destruct Hs as [[[] [w3 [Hnot Hs]]]|[e [_ Hs]]]; [|discriminate Hs].
  inversion Hnot; subst w3; clear Hnot.
  apply bind_inv in Hs.
  destruct Hs as [[[] [w4 [Hret Hs]]]|[e [_ Hs]]]; [|discriminate Hs].
  inversion Hs; subst w4; clear Hs.
  match type of Hret with for_each _ _ ?w0 = _ =>
    destruct (for_each_retire_spec olds w0) as [w5 [Hret' [Ht5 Hreg5]]] end.
  rewrite Hret' in Hret. inversion Hret; subst w5; clear Hret.
  simpl in Ht5, Hreg5.
  exists ev, evs, olds, wl, w1.
  split; [exact Hreg|]. split; [exact Hsl|].
  split; [exact Hreg5|].
  split; [exact (conj Hq Hev)|]. split; [exact Hq1|]. split; [exact Hmem|].
  split; [exact Hsw|].
  rewrite Ht5, Ht1, Ht, Hres1, Hres.
  rewrite <- !app_assoc. simpl. rewrite <- !app_assoc. reflexivity.
Qed.

(** In a trace that ends with a retirement, what stands before a
    [ReleaseKey]. *)
Lemma retirement_before_release (olds : list RegionHandle) :
  forall (results : list bool) (t1 t2 : list Event) (k : nat),
  Forall (fun h => memory h = shm_key h) olds ->
  retirement_events olds results = (t1 ++ EvReleaseKey k :: t2)%list ->
  exists t0 removed,
    t1 = (t0 ++ [EvRemove k removed; EvWaitForDetach k])%list.
Proof.
  induction olds as [|h olds IH]; intros results t1 t2 k Hmem Heq.
  - destruct t1; discriminate Heq.
  - inversion Hmem as [|? ? Hh Hmem']; subst. cbn [retirement_events] in Heq.
    destruct t1 as [|x [|y [|z t1]]]; try discriminate Heq.
    + simpl in Heq. inversion Heq; subst.
      exists [], (hd true results). rewrite Hh. reflexivity.
    + simpl in Heq. inversion Heq; subst.
      destruct (IH _ _ _ _ Hmem' H3) as [t0 [removed ->]].
      eexists (_ :: _ :: _ :: t0), removed. reflexivity.
Qed.

Lemma quiet_before_release (pre : list Event) :
  forall (rest t1 t2 : list Event) (k : nat),
  Forall (fun e => ~ retiring e) pre ->
  (pre ++ rest = t1 ++ EvReleaseKey k :: t2)%list ->
  exists t1', t1 = (pre ++ t1')%list /\ rest = (t1' ++ EvReleaseKey k :: t2)%list.
Proof.
  induction pre as [|e pre IH]; intros rest t1 t2 k Hq Heq.
  - exists t1. split; [reflexivity | exact Heq].
  - inversion Hq as [|? ? He Hq']; subst.
    destruct t1 as [|x t1]; simpl in Heq; inversion Heq; subst.
    + exfalso. apply He. exact I.
    + destruct (IH _ _ _ _ Hq' H1) as [t1' [-> Hr]].
      exists t1'. split; [reflexivity | exact Hr].
Qed.

(** ** C8: the order of the retirement *)

(** C8.  After a successful [swapData], the calls it made are: calls that
    retire nothing (the mutex, the swap loop, the notification), and then,
    for each old handle in turn, [Remove(key)], [WaitForDetach] on that
    segment, [ReleaseKey(key)], in this order.  The old handles are the keys
    that the swaps took out of the register, and wherever [ReleaseKey(key)]
    stands in the trace, the two calls just before it are [Remove(key)] and
    the [WaitForDetach] of that segment. *)
Theorem retirement_order (handles : list (string * RegionHandle))
  (max_wait : Z) (w w' : World) :
  swapData handles max_wait w = (Return true, w') ->
  exists (pre : list Event) (olds : list RegionHandle),
    w_trace w' =
      (w_trace w ++ pre ++ retirement_events olds (w_remove_results w))%list /\
    Forall (fun e => ~ retiring e) pre /\
    Forall (fun h => memory h = shm_key h) olds /\
    map shm_key olds = swapped_out pre /\
    forall (t1 t2 : list Event) (k : nat),
      (pre ++ retirement_events olds (w_remove_results w)
       = t1 ++ EvReleaseKey k :: t2)%list ->
      exists t0 removed,
        t1 = (t0 ++ [EvRemove k removed; EvWaitForDetach k])%list.
Proof.
  intros Hs. apply swapData_success in Hs.
  destruct Hs
    as [ev [evs [olds [wl [w1 [_ [_ [_ [[Hq Hev] [Hqs [Hmem [Hsw Ht]]]]]]]]]]]].
  exists (ev :: evs ++ [EvUnlock; EvNotifyAll])%list, olds.
  assert (Hpre : Forall (fun e => ~ retiring e)
                   (ev :: evs ++ [EvUnlock; EvNotifyAll])%list).
  { constructor; [exact Hq|]. apply Forall_app. split; [exact Hqs|].
    repeat constructor; auto. }
  split; [exact Ht|]. split; [exact Hpre|]. split; [exact Hmem|]. split.
  - rewrite Hsw. change (ev :: evs ++ [EvUnlock; EvNotifyAll])%list
      with ([ev] ++ evs ++ [EvUnlock; EvNotifyAll])%list.
    rewrite !swapped_out_app.
    rewrite Hev. simpl. rewrite app_nil_r. reflexivity.
  - intros t1 t2 k Heq.
    destruct (quiet_before_release _ _ _ _ _ Hpre Heq) as [t1' [-> Hr]].
    destruct (retirement_before_release _ _ _ _ _ Hmem Hr) as [t0 [removed ->]].
    exists (ev :: evs ++ [EvUnlock; EvNotifyAll] ++ t0)%list, removed.
    simpl. rewrite <- !app_assoc. reflexivity.
Qed.

Lemma retirement_order_witness :
  exists (pre : list Event) (olds : list RegionHandle),
    w_trace (swapData Demo.republish_handles (-1) Demo.staged).2
    = (pre ++ retirement_events olds [])%list /\
    Forall (fun e => ~ retiring e) pre /\
    map shm_key olds = swapped_out pre.
Proof.
  assert (Hs : swapData Demo.republish_handles (-1) Demo.staged
               = (Return true,
                  (swapData Demo.republish_handles (-1) Demo.staged).2))
    by (vm_compute; reflexivity).
  destruct (retirement_order _ _ _ _ Hs) as [pre [olds [Ht [Hq [_ [Hsw _]]]]]].
  exists pre, olds. split; [exact Ht|]. split; [exact Hq | exact Hsw].
Defined.

(** The trace of that second publish. *)
Example republish_trace :
  w_trace (swapData Demo.republish_handles (-1) Demo.staged).2
  = [EvLock; EvAttach 0; EvSwap "alpha/static" 0 2;
     EvAttach 1; EvSwap "alpha/updatable" 1 3; EvUnlock; EvNotifyAll;
     EvRemove 0 true; EvWaitForDetach 0; EvReleaseKey 0;
     EvRemove 1 true; EvWaitForDetach 1; EvReleaseKey 1].
Proof. vm_compute. reflexivity. Qed.

(** ** The entries of the register through the swap loop *)

Section ListFind.
Context {A : Type} (P : A -> Prop) `{forall x, Decision (P x)}.

Lemma list_find_insert_hit (l : list A) (i : nat) (x y : A) :
  list_find P l = Some (i, x) -> P y ->
  list_find P (<[i := y]> l) = Some (i, y).
Proof.
  revert i. induction l as [|a l IH]; intros i Hf Hy; [discriminate Hf|].
  cbn [list_find] in Hf. destruct (decide (P a)) as [Ha|Ha].
  - inversion Hf; subst. simpl. rewrite decide_True by exact Hy. reflexivity.
  - destruct (list_find P l) as [[j z]|] eqn:Hl; [|discriminate Hf].
    simpl in Hf. inversion Hf; subst. simpl.
    rewrite decide_False by exact Ha. rewrite (IH j eq_refl Hy). reflexivity.
Qed.

Lemma list_find_insert_fresh (l : list A) (i : nat) (y : A) :
  list_find P l = None -> (i < length l)%nat -> P y ->
  list_find P (<[i := y]> l) = Some (i, y).
Proof.
  revert i. induction l as [|a l IH]; intros i Hf Hi Hy; [simpl in Hi; lia|].
  cbn [list_find] in Hf. destruct (decide (P a)) as [Ha|Ha]; [discriminate Hf|].
  destruct (list_find P l) as [[j z]|] eqn:Hl; [discriminate Hf|].
  destruct i as [|i]; simpl.
  - rewrite decide_True by exact Hy. reflexivity.
  - rewrite decide_False by exact Ha.
    rewrite (IH i eq_refl ltac:(simpl in Hi; lia) Hy). reflexivity.
Qed.

Lemma list_find_insert_miss (l : list A) (i : nat) (x y : A) :
  l !! i = Some x -> ~ P x -> ~ P y ->
  list_find P (<[i := y]> l) = list_find P l.
Proof.
  revert i. induction l as [|a l IH]; intros i Hl Hx Hy; [reflexivity|].
  destruct i as [|i]; simpl in *.
  - inversion Hl; subst.
    rewrite decide_False by exact Hy. rewrite decide_False by exact Hx.
    reflexivity.
  - rewrite (IH i Hl Hx Hy). reflexivity.
Qed.

End ListFind.

(** A turn of the loop for another name leaves the entry of [n] alone. *)
Lemma swap_one_entry_other `{RegisterImpl}
  (p : string * RegionHandle)
  (olds : list RegionHandle) (w w' : World) (r : outcome (list RegionHandle))
  (n : string) :
  swap_one p olds w = (r, w') -> p.1 ≠ n -> n ≠ EmptyString ->
  entry_of (w_register w') n = entry_of (w_register w) n.
Proof.
  intros Hone Hne Hn. revert Hone. run_M. unfold Find, entry_of.
  destruct (list_find (fun r0 => SharedRegion.name r0 = p.1)
              (regions (w_register w))) as [[region_id found]|] eqn:Hfind;
    cbn [fmap option_fmap option_map fst].
  - apply list_find_Some in Hfind. destruct Hfind as [Hl [Hname _]].
    unfold GetRegion. rewrite Hl. run_M.
    destruct (w_segments w !! SharedRegion.shm_key found).
    + run_M. simpl. intros Heq. inversion Heq; subst; clear Heq. simpl.
      apply (list_find_insert_miss _ _ _ found); [exact Hl | congruence|].
      simpl. congruence.
    + simpl. intros Heq. inversion Heq; subst. reflexivity.
  - run_M.
    destruct (list_find (fun r0 => SharedRegion.name r0 = EmptyString)
                (regions (w_register w))) as [[region_id empty_slot]|] eqn:He.
    + apply list_find_Some in He. destruct He as [Hl [Hname _]].
      run_M. simpl. intros Heq. inversion Heq; subst; clear Heq. simpl.
      apply (list_find_insert_miss _ _ _ empty_slot); [exact Hl | congruence|].
      simpl. exact Hne.
    + simpl. intros Heq. inversion Heq; subst. reflexivity.
Qed.

(** The turn of the loop for the name [p.1]: a new entry gets the key of the
    handle and the initial timestamp; an entry that is there keeps its slot,
    gets the key of the handle and has its timestamp incremented. *)
Lemma swap_one_entry_same `{RegisterImpl}
  (p : string * RegionHandle)
  (olds olds' : list RegionHandle) (w w' : World) :
  swap_one p olds w = (Return olds', w') ->
  match entry_of (w_register w) p.1 with
  | None =>
      exists region_id,
        entry_of (w_register w') p.1
        = Some (region_id,
                {| SharedRegion.name := p.1;
                   SharedRegion.shm_key := shm_key p.2;
                   SharedRegion.timestamp := INITIAL_TIMESTAMP |})
  | Some (region_id, old) =>
      entry_of (w_register w') p.1
      = Some (region_id,
              {| SharedRegion.name := p.1;
                 SharedRegion.shm_key := shm_key p.2;
                 SharedRegion.timestamp := incr64 (SharedRegion.timestamp old) |})
  end.
Proof.
  run_M. unfold Find, entry_of.
  destruct (list_find (fun r0 => SharedRegion.name r0 = p.1)
              (regions (w_register w))) as [[region_id found]|] eqn:Hfind;
    cbn [fmap option_fmap option_map fst].
  - pose proof Hfind as Hfind'.
    apply list_find_Some in Hfind. destruct Hfind as [Hl [Hname _]].
    unfold GetRegion. rewrite Hl. run_M.
    destruct (w_segments w !! SharedRegion.shm_key found).
    + run_M. simpl. intros Heq. inversion Heq; subst; clear Heq. simpl.
      rewrite Hname.
      apply (list_find_insert_hit _ _ _ found); [exact Hfind'|].
      reflexivity.
    + simpl. intros Heq. inversion Heq.
  - run_M.
    destruct (list_find (fun r0 => SharedRegion.name r0 = EmptyString)
                (regions (w_register w))) as [[region_id empty_slot]|] eqn:He.
    + apply list_find_Some in He. destruct He as [Hl _].
      run_M. simpl. intros Heq. inversion Heq; subst; clear Heq. simpl.
      exists region_id. apply list_find_insert_fresh;
        [exact Hfind | apply (lookup_lt_Some _ _ _ Hl) | reflexivity].
    + simpl. intros Heq. inversion Heq.
Qed.

Lemma swap_loop_entry_other `{RegisterImpl}
  (handles : list (string * RegionHandle))
  (olds : list RegionHandle) (w w' : World) (r : outcome (list RegionHandle))
  (n : string) :
  swap_loop handles olds w = (r, w') -> n ∉ handles.*1 -> n ≠ EmptyString ->
  entry_of (w_register w') n = entry_of (w_register w) n.
Proof.
  revert olds w. induction handles as [|p rest IH]; intros olds w Hloop Hnin Hn.
  - simpl in Hloop. inversion Hloop; subst. reflexivity.
  - cbn [swap_loop] in Hloop. rewrite fmap_cons in Hnin.
    apply not_elem_of_cons in Hnin. destruct Hnin as [Hp Hrest].
    apply bind_inv in Hloop.
    destruct Hloop as [[olds1 [w1 [Hone Hl]]]|[e [Hone _]]].
    + rewrite (IH _ _ Hl Hrest Hn).
      apply (swap_one_entry_other _ _ _ _ _ _ Hone); [congruence | exact Hn].
    + apply (swap_one_entry_other _ _ _ _ _ _ Hone); [congruence | exact Hn].
Qed.

Lemma swap_loop_entry `{RegisterImpl}
  (handles : list (string * RegionHandle))
  (olds olds' : list RegionHandle) (w w' : World) (n : string)
  (h : RegionHandle) :
  NoDup handles.*1 -> (n, h) ∈ handles -> n ≠ EmptyString ->
  swap_loop handles olds w = (Return olds', w') ->
  match entry_of (w_register w) n with
  | None =>
      exists region_id,
        entry_of (w_register w') n
        = Some (region_id,
                {| SharedRegion.name := n;
                   SharedRegion.shm_key := shm_key h;
                   SharedRegion.timestamp := INITIAL_TIMESTAMP |})
  | Some (region_id, old) =>
      entry_of (w_register w') n
      = Some (region_id,
              {| SharedRegion.name := n;
                 SharedRegion.shm_key := shm_key h;
                 SharedRegion.timestamp := incr64 (SharedRegion.timestamp old) |})
  end.
Proof.
  revert olds w. induction handles as [|p rest IH]; intros olds w Hnd Hin Hn Hloop.
  - apply elem_of_nil in Hin. contradiction.
  - rewrite fmap_cons in Hnd. apply NoDup_cons in Hnd. destruct Hnd as [Hp Hnd].
    cbn [swap_loop] in Hloop. apply bind_inv in Hloop.
    destruct Hloop as [[olds1 [w1 [Hone Hl]]]|[e [_ Hl]]]; [|discriminate Hl].
    apply elem_of_cons in Hin. destruct Hin as [<-|Hin].
    + apply swap_one_entry_same in Hone. simpl in Hone, Hp.
      rewrite (swap_loop_entry_other _ _ _ _ _ _ Hl Hp Hn). exact Hone.
    + assert (Hne : p.1 ≠ n).
      { intros <-. apply Hp. apply list_elem_of_fmap. exists (p.1, h).
        split; [reflexivity | exact Hin]. }
      rewrite <- (swap_one_entry_other _ _ _ _ _ _ Hone Hne Hn).
      apply (IH _ _ Hnd Hin Hn Hl).
Qed.

Lemma incr64_below (t : Z) : (0 <= t < 2 ^ 64 - 1)%Z -> incr64 t = (t + 1)%Z.
Proof. intros Ht. unfold incr64. apply Z.mod_small. lia. Qed.

(** ** C4: the timestamp of an entry *)

(** C4, as the code has it.  After a successful [swapData], a name that was
    not registered has the entry that [Register] created, with the key of its
    handle and the timestamp that [Register] wrote, whatever that is: the
    first publish does not increment it.  A name that was registered keeps
    its slot, has the key of its handle, and its timestamp is the old one
    incremented, by exactly 1 as long as the 64-bit counter does not wrap.
    The handles are a [std::map], so their names are distinct; the names of
    [Run] end in ["/static"] or ["/updatable"] and are not the empty name of
    a free slot. *)
Theorem publish_timestamp `{RegisterImpl}
  (handles : list (string * RegionHandle))
  (max_wait : Z) (w w' : World) (n : string) (h : RegionHandle) :
  NoDup handles.*1 -> (n, h) ∈ handles -> n ≠ EmptyString ->
  swapData handles max_wait w = (Return true, w') ->
  match entry_of (w_register w) n with
  | None =>
      exists region_id,
        entry_of (w_register w') n
        = Some (region_id,
                {| SharedRegion.name := n;
                   SharedRegion.shm_key := shm_key h;
                   SharedRegion.timestamp := INITIAL_TIMESTAMP |})
  | Some (region_id, old) =>
      exists new,
        entry_of (w_register w') n = Some (region_id, new) /\
        SharedRegion.name new = n /\
        SharedRegion.shm_key new = shm_key h /\
        SharedRegion.timestamp new = incr64 (SharedRegion.timestamp old) /\
        ((0 <= SharedRegion.timestamp old < 2 ^ 64 - 1)%Z ->
         SharedRegion.timestamp new = (SharedRegion.timestamp old + 1)%Z)
  end.
Proof.
  intros Hnd Hin Hn Hs. apply swapData_success in Hs.
  destruct Hs as [ev [evs [olds [wl [w1 [Hreg [Hloop [Hregs _]]]]]]]].
  pose proof (swap_loop_entry _ _ _ _ _ _ _ Hnd Hin Hn Hloop) as He.
  unfold entry_of in *. rewrite Hregs. rewrite Hreg in He.
  destruct (list_find _ (regions (w_register w))) as [[region_id old]|].
  - eexists. split; [exact He|]. simpl. repeat split; try reflexivity.
    apply incr64_below.
  - exact He.
Qed.

Lemma publish_timestamp_witness :
  exists new,
    entry_of (w_register (swapData Demo.republish_handles (-1) Demo.staged).2)
      "alpha/static" = Some (0%nat, new) /\
    SharedRegion.timestamp new = 1%Z.
Proof.
  assert (Hnd : NoDup Demo.republish_handles.*1).
  { simpl. apply NoDup_cons. split; [|apply NoDup_singleton].
    intros Hin. apply list_elem_of_singleton in Hin. discriminate Hin. }
  assert (Hin : ("alpha/static",
                 {| memory := 2; data_ptr := Some 2%nat; shm_key := 2 |})
                ∈ Demo.republish_handles) by (simpl; repeat constructor).
  assert (Hn : "alpha/static" ≠ EmptyString) by discriminate.
  assert (Hs : swapData Demo.republish_handles (-1) Demo.staged
               = (Return true,
                  (swapData Demo.republish_handles (-1) Demo.staged).2))
    by (vm_compute; reflexivity).
  pose proof (publish_timestamp _ _ _ _ _ _ Hnd Hin Hn Hs) as Ht.
  change (entry_of (w_register Demo.staged) "alpha/static")
    with (Some (0%nat, {| SharedRegion.name := "alpha/static";
                          SharedRegion.shm_key := 0;
                          SharedRegion.timestamp := 0 |})) in Ht.
  destruct Ht as [new [He [_ [_ [_ Hplus]]]]].
  exists new. split; [exact He|]. apply Hplus. simpl. lia.
Defined.

(** C4, as it is stated, fails, whatever [Register] writes.  The first
    successful publish of [alpha] goes through the branch of [swapData] that
    registers a new name and leaves the timestamp of both entries at the
    value that [Register] wrote.  So no [Register] both creates the entry
    with timestamp 0 and has the first publish leave the timestamp at 1. *)
Lemma first_publish_does_not_increment :
  entry_of (w_register Demo.boot) "alpha/static" = None /\
  (forall impl : RegisterImpl,
     let run :=
       Run (impl := impl) Demo.config (Demo.required_files 5) (-1) "alpha"
         Demo.boot in
     run.1 = Return EXIT_SUCCESS /\
     In (EvRegister "alpha/static" 0) (w_trace run.2) /\
     entry_of (w_register run.2) "alpha/static"
     = Some (0%nat, {| SharedRegion.name := "alpha/static";
                       SharedRegion.shm_key := 0;
                       SharedRegion.timestamp := INITIAL_TIMESTAMP |}) /\
     entry_of (w_register run.2) "alpha/updatable"
     = Some (1%nat, {| SharedRegion.name := "alpha/updatable";
                       SharedRegion.shm_key := 1;
                       SharedRegion.timestamp := INITIAL_TIMESTAMP |})) /\
  ~ (exists impl : RegisterImpl,
       @INITIAL_TIMESTAMP impl = 0%Z /\
       (SharedRegion.timestamp ∘ snd)
         <$> entry_of
               (w_register
                  (Run (impl := impl) Demo.config (Demo.required_files 5)
                     (-1) "alpha" Demo.boot).2) "alpha/static"
       = Some 1%Z).
Proof.
  assert (Hrun : forall impl : RegisterImpl,
    let run :=
      Run (impl := impl) Demo.config (Demo.required_files 5) (-1) "alpha"
        Demo.boot in
    run.1 = Return EXIT_SUCCESS /\
    In (EvRegister "alpha/static" 0) (w_trace run.2) /\
    entry_of (w_register run.2) "alpha/static"
    = Some (0%nat, {| SharedRegion.name := "alpha/static";
                      SharedRegion.shm_key := 0;
                      SharedRegion.timestamp := INITIAL_TIMESTAMP |}) /\
    entry_of (w_register run.2) "alpha/updatable"
    = Some (1%nat, {| SharedRegion.name := "alpha/updatable";
                      SharedRegion.shm_key := 1;
                      SharedRegion.timestamp := INITIAL_TIMESTAMP |})).
  { intros [t0]. vm_compute. repeat split; try reflexivity. auto 10. }
  split; [reflexivity|]. split; [exact Hrun|].
  intros [impl [H0 H1]].
  destruct (Hrun impl) as [_ [_ [Hstatic _]]].
  rewrite Hstatic in H1. cbn in H1. rewrite H0 in H1. discriminate H1.
Qed.

(** ** C7: a stale segment at the reserved key *)

Lemma ReserveKey_Return (w w1 : World) (k : nat) :
  ReserveKey w = (Return k, w1) ->
  w_trace w1 = (w_trace w ++ [EvReserveKey k])%list /\
  w_segments w1 = w_segments w /\
  w_remove_results w1 = w_remove_results w /\
  w_timed_lock w1 = w_timed_lock w /\
  regions (w_register w1) = regions (w_register w) /\
  shm_key_in_use (w_register w1) = <[k := true]> (shm_key_in_use (w_register w)) /\
  shm_key_in_use (w_register w) !! k = Some false.
Proof.
  run_M.
  destruct (list_find (fun b => b = false) (shm_key_in_use (w_register w)))
    as [[key b]|] eqn:Hf.
  - run_M. simpl. intros Heq. inversion Heq; subst; clear Heq. simpl.
    apply list_find_Some in Hf. destruct Hf as [Hl [-> _]].
    repeat split; try reflexivity. exact Hl.
  - simpl. intros Heq. inversion Heq.
Qed.

(** C7, as the code has it.  When a segment is still live at the freshly
    reserved key, [setupRegion] calls [Remove] on it once and goes on to the
    allocation without looking at the result: there is no retry.  When that
    one removal succeeds, no stale segment is at the key at the moment of the
    allocation, and the new segment holds the layout. *)
Theorem setupRegion_removes_once (layout : DataLayout) (w w1 : World)
  (k : nat) :
  ReserveKey w = (Return k, w1) ->
  is_Some (w_segments w !! k) ->
  let removed := hd true (w_remove_results w) in
  w_trace (setupRegion layout w).2 =
    (w_trace w ++ [EvReserveKey k; EvRemove k removed; EvCreate k (negb removed)])%list /\
  (removed = true ->
   (setupRegion layout w).1
   = Return {| memory := k; data_ptr := Some k; shm_key := k |} /\
   w_segments (setupRegion layout w).2 !! k
   = Some {| seg_header := Some layout; seg_payload := [] |}).
Proof.
  intros Hres [stale Hstale] removed.
  pose proof (ReserveKey_Return _ _ _ Hres) as [Ht [Hseg [Hrr _]]].
  unfold setupRegion. rewrite (bind_Return _ _ _ _ _ Hres).
  unfold RegionExists. run_M. rewrite Hseg, Hstale.
  rewrite bool_decide_true by (eexists; reflexivity).
  unfold Remove. run_M. cbn [w_segments w_remove_results w_trace].
  rewrite Hrr, Ht, Hseg. subst removed.
  destruct (hd true (w_remove_results w)).
  - rewrite lookup_delete_eq. run_M. simpl. rewrite <- !app_assoc. simpl.
    split; [reflexivity|]. intros _. split; [reflexivity|].
    rewrite lookup_alter_eq, lookup_insert_eq. reflexivity.
  - rewrite Hstale. run_M. simpl. rewrite <- !app_assoc. simpl.
    split; [reflexivity|]. intros Hf. discriminate Hf.
Qed.

Lemma setupRegion_removes_once_witness :
  w_trace (setupRegion ∅ Demo.recoverable).2
  = [EvReserveKey 0; EvRemove 0 true; EvCreate 0 false] /\
  (setupRegion ∅ Demo.recoverable).1
  = Return {| memory := 0; data_ptr := Some 0%nat; shm_key := 0 |}.
Proof.
  assert (Hres : ReserveKey Demo.recoverable
                 = (Return 0%nat, (ReserveKey Demo.recoverable).2))
    by reflexivity.
  assert (Hstale : is_Some (w_segments Demo.recoverable !! 0%nat))
    by (eexists; reflexivity).
  destruct (setupRegion_removes_once ∅ Demo.recoverable _ 0%nat Hres Hstale)
    as [Ht Hok].
  split; [exact Ht|]. apply Hok. reflexivity.
Defined.

(** C7, as it is stated, fails: the one [Remove] fails, a second one would
    have succeeded, and [setupRegion] goes to the allocation with the stale
    segment still live at the key. *)
Lemma stale_segment_at_allocation :
  let run := setupRegion ∅ Demo.crashed in
  w_trace run.2 = [EvReserveKey 0; EvRemove 0 false; EvCreate 0 true] /\
  w_remove_results run.2 = [true] /\
  run.1 = Throw (SharedMemoryError 0) /\
  w_segments run.2 !! 0%nat = Some Demo.blank_segment.
Proof. vm_compute. repeat split; reflexivity. Qed.

(** ** Populating a segment *)

Lemma frame_refl (w : World) : frame w w.
Proof. unfold frame. auto. Qed.

Lemma frame_trans (w1 w2 w3 : World) : frame w1 w2 -> frame w2 w3 -> frame w1 w3.
Proof. unfold frame. intuition congruence. Qed.

Lemma fills_only_ret {A} (a : A) : fills_only (ret a).
Proof. intros w r w' Heq. inversion Heq; subst. apply frame_refl. Qed.

Lemma fills_only_throw {A} (e : Error) : fills_only (@throw A e).
Proof. intros w r w' Heq. inversion Heq; subst. apply frame_refl. Qed.

Lemma fills_only_bind {A B} (m : M A) (f : A -> M B) :
  fills_only m -> (forall a, fills_only (f a)) -> fills_only (m ≫= f).
Proof.
  intros Hm Hf w r w' Heq. apply bind_inv in Heq.
  destruct Heq as [[a [w1 [H1 H2]]]|[e [H1 _]]].
  - apply (frame_trans _ w1); [apply (Hm _ _ _ H1) | apply (Hf a _ _ _ H2)].
  - apply (Hm _ _ _ H1).
Qed.

Lemma fills_only_write_block (p : nat) (block path : string) :
  fills_only (write_block p block path).
Proof.
  intros w r w' Heq. inversion Heq; subst. unfold frame. simpl.
  repeat split. apply dom_alter_L.
Qed.

Section Populate.
Variable config : StorageConfig.
Variable fs : FileSystem.

Lemma fills_only_read_file (path : string) : fills_only (read_file fs path).
Proof.
  unfold read_file. destruct (fs !! path);
    [apply fills_only_ret | apply fills_only_throw].
Qed.

Lemma fills_only_load (memory_ptr : option nat) (block suffix : string) :
  fills_only (load config fs memory_ptr block suffix).
Proof.
  unfold load. apply fills_only_bind; [apply fills_only_read_file|].
  intros a. apply fills_only_bind; [|intros; apply fills_only_ret].
  destruct memory_ptr; [apply fills_only_write_block | apply fills_only_ret].
Qed.

Lemma fills_only_check (turns : Z) (suffix : string) (graph : Artifact) :
  fills_only (check_connectivity config turns suffix graph).
Proof.
  unfold check_connectivity. destruct (bool_decide _);
    [apply fills_only_throw | apply fills_only_ret].
Qed.

Ltac fills_only_tac :=
  repeat first
    [ apply fills_only_ret
    | apply fills_only_throw
    | apply fills_only_load
    | apply fills_only_check
    | apply fills_only_write_block
    | apply fills_only_bind; [|intros ?]
    | match goal with
      | |- fills_only (if ?b then _ else _) => destruct b
      | |- fills_only (match ?o with Some _ => _ | None => _ end) => destruct o
      end ].

(** [PopulateStaticData] touches nothing but the payload of segments,
    whether it returns or throws. *)
Lemma PopulateStaticData_fills_only (layout : DataLayout)
  (memory_ptr : option nat) :
  fills_only (PopulateStaticData config fs layout memory_ptr).
Proof. unfold PopulateStaticData. fills_only_tac. Qed.

Lemma load_Return (memory_ptr : option nat) (block suffix : string)
  (a : Artifact) (w : World) :
  fs !! GetPath config suffix = Some a ->
  exists w1, load config fs memory_ptr block suffix w = (Return a, w1).
Proof.
  intros Hf. unfold load, read_file. rewrite Hf.
  destruct memory_ptr; eexists; reflexivity.
Qed.

Lemma file_exists_true (suffix : string) :
  file_exists config fs suffix = true ->
  exists a, fs !! GetPath config suffix = Some a.
Proof. unfold file_exists. intros Hb. apply bool_decide_eq_true in Hb. exact Hb. Qed.

Lemma file_exists_Some (suffix : string) (a : Artifact) :
  fs !! GetPath config suffix = Some a -> file_exists config fs suffix = true.
Proof.
  intros Hf. unfold file_exists. apply bool_decide_eq_true. rewrite Hf.
  eexists; reflexivity.
Qed.

Lemma check_mismatch (turns : Z) (suffix : string) (graph : Artifact) (w : World) :
  connectivity_checksum graph ≠ turns ->
  check_connectivity config turns suffix graph w
  = (Throw (ChecksumMismatch (connectivity_checksum graph) turns
              (GetPath config suffix)), w).
Proof.
  intros Hne. unfold check_connectivity.
  rewrite bool_decide_true by congruence. reflexivity.
Qed.

Lemma check_match (turns : Z) (suffix : string) (graph : Artifact) (w : World) :
  connectivity_checksum graph = turns ->
  check_connectivity config turns suffix graph w = (Return tt, w).
Proof.
  intros He. unfold check_connectivity.
  rewrite bool_decide_false by congruence. reflexivity.
Qed.

Ltac step_load :=
  match goal with
  | Hf : fs !! GetPath config ?s = Some ?a
    |- context [ mbind ?k (load config fs ?p ?b ?s) ?w0 ] =>
      let w1 := fresh "w" in
      let Hl := fresh "Hl" in
      destruct (load_Return p b s a w0 Hf) as [w1 Hl];
      rewrite (bind_Return _ _ _ _ _ Hl); clear Hl
  end.

Ltac step_optional :=
  match goal with
  | |- context [ mbind ?k (if file_exists config fs ?s then _ else _) ?w0 ] =>
      let Hex := fresh "Hex" in
      destruct (file_exists config fs s) eqn:Hex;
      [ let a := fresh "a" in
        let Ha := fresh "Ha" in
        destruct (file_exists_true s Hex) as [a Ha];
        rewrite bind_unfold; step_load; cbn [mret M_ret ret]
      | rewrite bind_unfold; cbn [mret M_ret ret] ]
  end.

(** With its files in place, [PopulateStaticData] throws [ChecksumMismatch]
    as soon as the contracted graph or the multi-level graph embeds a
    checksum that is not the one of the edges file. *)
Lemma PopulateStaticData_mismatch (layout : DataLayout)
  (memory_ptr : option nat) (w : World) (edges graph : Artifact)
  (suffix : string) :
  Forall (fun s => is_Some (fs !! GetPath config s)) populate_required ->
  fs !! GetPath config ".osrm.edges" = Some edges ->
  suffix ∈ [".osrm.hsgr"; ".osrm.mldgr"] ->
  fs !! GetPath config suffix = Some graph ->
  connectivity_checksum graph ≠ connectivity_checksum edges ->
  exists g path w',
    PopulateStaticData config fs layout memory_ptr w
    = (Throw (ChecksumMismatch g (connectivity_checksum edges) path), w') /\
    g ≠ connectivity_checksum edges.
Proof.
  intros Hreq Hedges Hsuf Hgraph Hne.
  unfold populate_required in Hreq.
  repeat match type of Hreq with
         | Forall _ (_ :: _) =>
             let Hx := fresh "Hfile" in
             apply Forall_cons in Hreq; destruct Hreq as [[? Hx] Hreq]
         end.
  clear Hreq. rewrite Hedges in *.
  match goal with
  | H : Some edges = Some ?x |- _ =>
      assert (x = edges) by congruence; subst x; clear H
  end.
  unfold PopulateStaticData.
  rewrite bind_unfold.
  assert (Hfirst : exists w0,
    match memory_ptr with
    | Some p0 => write_block p0 "/common/rtree/file_index_path"
                   (GetPath config ".osrm.fileIndex")
    | None => ret ()
    end w = (Return tt, w0)).
  { destruct memory_ptr; eexists; reflexivity. }
  destruct Hfirst as [w0 ->].
  do 13 step_load.
  apply elem_of_cons in Hsuf. destruct Hsuf as [->|Hsuf].
  - rewrite (file_exists_Some _ _ Hgraph). rewrite bind_unfold.
    step_load. rewrite (check_mismatch _ _ _ _ Hne).
    eexists _, _, _. split; [reflexivity | exact Hne].
  - apply list_elem_of_singleton in Hsuf. subst suffix.
    rewrite bind_unfold.
    destruct (file_exists config fs ".osrm.hsgr") eqn:Hh.
    + destruct (file_exists_true _ Hh) as [hsgr Hhsgr]. step_load.
      destruct (decide (connectivity_checksum hsgr = connectivity_checksum edges))
        as [Heq|Hneq].
      * rewrite (check_match _ _ _ _ Heq).
        do 3 step_optional.
        all: rewrite (file_exists_Some _ _ Hgraph); rewrite bind_unfold;
          step_load; rewrite (check_mismatch _ _ _ _ Hne);
          eexists _, _, _; (split; [reflexivity | exact Hne]).
      * rewrite (check_mismatch _ _ _ _ Hneq).
        eexists _, _, _. split; [reflexivity | exact Hneq].
    + cbn [mret M_ret ret].
      do 3 step_optional.
      all: rewrite (file_exists_Some _ _ Hgraph); rewrite bind_unfold;
        step_load; rewrite (check_mismatch _ _ _ _ Hne);
        eexists _, _, _; (split; [reflexivity | exact Hne]).
Qed.

End Populate.

(** ** C5: a checksum mismatch *)

Lemma setupRegion_Return (layout : DataLayout) (w w1 : World) (h : RegionHandle) :
  setupRegion layout w = (Return h, w1) ->
  h = {| memory := shm_key h; data_ptr := Some (shm_key h);
         shm_key := shm_key h |} /\
  regions (w_register w1) = regions (w_register w) /\
  w_segments w1 !! shm_key h
  = Some {| seg_header := Some layout; seg_payload := [] |} /\
  shm_key_in_use (w_register w1) !! shm_key h = Some true.
Proof.
  unfold setupRegion. intros Hs. apply bind_inv in Hs.
  destruct Hs as [[k [wa [Hres Hs]]]|[e [_ Hs]]]; [|discriminate Hs].
  pose proof (ReserveKey_Return _ _ _ Hres) as [_ [_ [_ [_ [Hregs [Huse Hfree]]]]]].
  assert (Hk : shm_key_in_use (w_register wa) !! k = Some true).
  { rewrite Huse. apply list_lookup_insert_eq. apply (lookup_lt_Some _ _ _ Hfree). }
  apply bind_inv in Hs.
  destruct Hs as [[ex [wb [Hex Hs]]]|[e [_ Hs]]]; [|discriminate Hs].
  assert (Hwb : wb = wa)
    by (revert Hex; run_M; simpl; intros Heq; inversion Heq; reflexivity).
  subst wb. clear Hex.
  apply bind_inv in Hs.
  destruct Hs as [[[] [wc [Hrem Hs]]]|[e [_ Hs]]]; [|discriminate Hs].
  assert (Hc : w_register wc = w_register wa).
  { destruct ex; revert Hrem; unfold Remove; run_M; intros Heq;
      inversion Heq; subst; reflexivity. }
  clear Hrem. revert Hs. run_M.
  destruct (w_segments wc !! k); run_M; simpl; intros Heq; inversion Heq; subst.
  simpl. split; [reflexivity|]. split; [congruence|].
  split; [|congruence].
  rewrite lookup_alter_eq, lookup_insert_eq. reflexivity.
Qed.




(** ** C2 and C3: the monitor mutex is not acquired in time *)

Lemma for_each_Remove_spec (handles : list (string * RegionHandle)) (w : World) :
  exists w',
    for_each handles (fun pair => Remove (shm_key pair.2);; ret tt) w
    = (Return tt, w') /\
    w_register w' = w_register w /\
    w_trace w' = (w_trace w ++ removal_events handles (w_remove_results w))%list.
Proof.
  revert w. induction handles as [|p rest IH]; intros w.
  - exists w. split; [reflexivity|]. simpl. rewrite app_nil_r. auto.
  - cbn [for_each].
    assert (Hstep : exists w1,
              (Remove (shm_key p.2);; ret tt) w = (Return tt, w1) /\
              w_register w1 = w_register w /\
              w_remove_results w1 = tail (w_remove_results w) /\
              w_trace w1 = (w_trace w ++ [EvRemove (shm_key p.2)
                                            (hd true (w_remove_results w))])%list).
    { eexists. split; [reflexivity|]. simpl. auto. }
    destruct Hstep as [w1 [Hstep [Hreg1 [Hres1 Ht1]]]].
    rewrite (bind_Return _ _ _ _ _ Hstep).
    destruct (IH w1) as [w' [Hf [Hreg Ht]]].
    exists w'. split; [exact Hf|]. split; [congruence|].
    rewrite Ht, Ht1, Hres1. simpl. rewrite <- app_assoc. reflexivity.
Qed.

(** On a timeout [swapData] removes the new segments and returns [false];
    it does not touch the register, so the keys that [setupRegion] reserved
    for the new segments stay marked in use. *)
Lemma swapData_timeout (handles : list (string * RegionHandle)) (max_wait : Z)
  (w : World) :
  (0 <= max_wait)%Z -> w_timed_lock w = false ->
  exists w',
    swapData handles max_wait w = (Return false, w') /\
    w_register w' = w_register w /\
    w_trace w' =
      (w_trace w ++ EvTimedLock max_wait false
         :: removal_events handles (w_remove_results w))%list.
Proof.
  intros Hmw Hlock. rewrite swapData_unfold.
  assert (Hm : exists wl,
            take_mutex max_wait w = (Return false, wl) /\
            w_register wl = w_register w /\
            w_remove_results wl = w_remove_results w /\
            w_trace wl = (w_trace w ++ [EvTimedLock max_wait false])%list).
  { unfold take_mutex. rewrite bool_decide_true by exact Hmw.
    unfold timed_lock. rewrite Hlock. eexists. split; [reflexivity|].
    simpl. auto. }
  destruct Hm as [wl [Hm [Hregl [Hresl Htl]]]].
  rewrite (bind_Return _ _ _ _ _ Hm). cbn [negb].
  destruct (for_each_Remove_spec handles wl) as [w' [Hf [Hreg Ht]]].
  rewrite (bind_Return _ _ _ _ _ Hf).
  exists w'. split; [reflexivity|]. split; [congruence|].
  rewrite Ht, Htl, Hresl. rewrite <- app_assoc. reflexivity.
Qed.

(** Whatever [swapData] answered, a [Run] that returns returns
    [EXIT_SUCCESS]. *)
Lemma Run_exit_code (config : StorageConfig) (fs : FileSystem) (max_wait : Z)
  (dataset_name : string) (w w' : World) (code : Z) :
  Run config fs max_wait dataset_name w = (Return code, w') ->
  code = EXIT_SUCCESS.
Proof.
  unfold Run. intros Hrun.
  repeat (apply bind_inv in Hrun;
          destruct Hrun as [[? [? [_ Hrun]]]|[? [_ Hrun]]];
          [|discriminate Hrun]).
  inversion Hrun. reflexivity.
Qed.

(** C2, on the code.  A publish of [alpha] with [max_wait = 0] while another
    process holds the monitor mutex: the two new segments are removed and no
    entry is created, and the keys 0 and 1 reserved for them are still marked
    in use when [Run] is over, so the register is not what it was before the
    call. *)
Theorem timeout_leaves_keys_reserved :
  let before := Demo.contended Demo.boot in
  let run := Run Demo.config (Demo.required_files 5) 0 "alpha" before in
  w_trace run.2
  = [EvReserveKey 0; EvCreate 0 false; EvReserveKey 1; EvCreate 1 false;
     EvTimedLock 0 false; EvRemove 0 true; EvRemove 1 true] /\
  w_segments run.2 = ∅ /\
  regions (w_register run.2) = regions (w_register before) /\
  shm_key_in_use (w_register before)
  = [false; false; false; false; false; false; false; false] /\
  shm_key_in_use (w_register run.2)
  = [true; true; false; false; false; false; false; false] /\
  w_register run.2 ≠ w_register before.
Proof.
  vm_compute. repeat split; try reflexivity. intros Heq. discriminate Heq.
Qed.

(** C3, on the code.  The same publish: the timed lock fails, [swapData]
    removes the two segments and answers [false], nothing is registered, and
    [Run] returns [EXIT_SUCCESS], which is 0. *)
Theorem timeout_exits_with_success :
  let before := Demo.contended Demo.boot in
  let run := Run Demo.config (Demo.required_files 5) 0 "alpha" before in
  run.1 = Return 0%Z /\
  swapData Demo.first_handles 0 Demo.staged_first = (Return false, run.2) /\
  In (EvTimedLock 0 false) (w_trace run.2) /\
  regions (w_register run.2) = regions (w_register before).
Proof.
  intros before run. split; [reflexivity|]. split; [reflexivity|].
  split; [vm_compute; auto 10 | reflexivity].
Qed.

(** ** C1: the layout of the updatable region *)

(** C1, on the code.  A publish of [alpha]: the segment registered as
    [alpha/updatable] carries the layout that [PopulateStaticLayout] plans and
    the payload that [PopulateStaticData] reads, the same as the static
    segment; the layout that [PopulateUpdatableLayout] plans from the
    updatable files is another one and is not used. *)
Theorem updatable_region_gets_static_layout :
  let fs := Demo.required_files 5 in
  let run := Run Demo.config fs (-1) "alpha" Demo.boot in
  PopulateStaticLayout Demo.config fs ∅ = Return Demo.static_plan /\
  PopulateUpdatableLayout Demo.config fs ∅ = Return Demo.updatable_plan /\
  run.1 = Return EXIT_SUCCESS /\
  Find (w_register run.2) "alpha/updatable" = Some 1%nat /\
  (SharedRegion.shm_key <$> GetRegion (w_register run.2) 1) = Some 1%nat /\
  w_segments run.2 !! 1%nat
  = Some {| seg_header := Some Demo.static_plan;
            seg_payload := Demo.static_payload |} /\
  w_segments run.2 !! 0%nat = w_segments run.2 !! 1%nat /\
  Demo.static_plan !! "/common/segment_data/nodes" = None /\
  Demo.updatable_plan !! "/common/segment_data/nodes"
  = Some {| num_entries := 8; byte_size := 32 |} /\
  Demo.static_plan !! "/common/names/values"
  = Some {| num_entries := 9; byte_size := 9 |} /\
  Demo.updatable_plan !! "/common/names/values" = None /\
  Demo.static_plan ≠ Demo.updatable_plan.
Proof.
  intros fs run.
  repeat (split; [reflexivity|]).
  intros Heq.
  apply (f_equal (fun l : DataLayout => l !! "/common/names/values")) in Heq.
  discriminate Heq.
Qed.

End PublishFacts.

(* ===================================================================== *)
(** * Further properties: planning a layout *)
(* ===================================================================== *)

Module PlanFacts.
Import Storage Props Terms.
Local Open Scope string_scope.

Lemma read_tar_files_step (fs : FileSystem) (file : bool * string)
  (rest : list (bool * string)) (layout : DataLayout) :
  read_tar_files fs (file :: rest) layout =
  match fs !! file.2 with
  | Some a =>
      if fingerprint_ok a
      then read_tar_files fs rest (readBlocks_entries a layout)
      else Throw (CorruptArchive file.2)
  | None =>
      if bool_decide (file.1 = REQUIRED) then Throw (MissingRequired file.2)
      else read_tar_files fs rest layout
  end.
Proof.
  cbn [read_tar_files]. unfold readBlocks.
  destruct (fs !! file.2) as [a|] eqn:Hf.
  - rewrite bool_decide_true by (eexists; reflexivity).
    destruct (fingerprint_ok a); reflexivity.
  - rewrite bool_decide_false; [reflexivity|].
    intros [x Hx]. discriminate Hx.
Qed.

Lemma not_required_optional (b : bool) : b ≠ REQUIRED -> b = OPTIONAL.
Proof. unfold REQUIRED, OPTIONAL. destruct b; congruence. Qed.

(** X1.  The loop of [PopulateStaticLayout] and [PopulateUpdatableLayout]
    returns a layout exactly when every listed file is readable (there with a
    good fingerprint, or optional and absent), and the layout is then the one
    that [readBlocks] builds over the archives that are there, in the order
    of the list: an absent optional file contributes nothing. *)
Theorem planning_succeeds_iff (fs : FileSystem) (files : list (bool * string))
  (layout planned : DataLayout) :
  read_tar_files fs files layout = Return planned <->
  Forall (readable fs) files /\
  planned = plan_blocks (present_archives fs files) layout.
Proof.
  revert layout. induction files as [|file rest IH]; intros layout.
  - simpl. split.
    + intros Heq. inversion Heq. split; [constructor | reflexivity].
    + intros [_ ->]. reflexivity.
  - rewrite read_tar_files_step. unfold present_archives, readable in *.
    cbn [omap list_omap]. rewrite Forall_cons.
    destruct (fs !! file.2) as [a|] eqn:Hf.
    + destruct (fingerprint_ok a) eqn:Hok.
      * rewrite IH. cbn [plan_blocks fold_left]. intuition.
      * split; [discriminate|]. intros [[Hb _] _]. discriminate Hb.
    + destruct (bool_decide (file.1 = REQUIRED)) eqn:Hreq.
      * apply bool_decide_eq_true in Hreq. split; [discriminate|].
        intros [[Hb _] _]. rewrite Hreq in Hb. discriminate Hb.
      * apply bool_decide_eq_false in Hreq. rewrite IH.
        pose proof (not_required_optional _ Hreq). intuition.
Qed.

(** X2.  The loop throws exactly at the first listed file that is not
    readable: [MissingRequired] with the path of a required file that is not
    there, [CorruptArchive] with the path of a file whose fingerprint is
    refused; the files behind it are not looked at. *)
Theorem planning_fails_at_first_unreadable (fs : FileSystem)
  (files : list (bool * string)) (layout : DataLayout) (e : Error) :
  read_tar_files fs files layout = Throw e <->
  exists pre file post,
    files = (pre ++ file :: post)%list /\
    Forall (readable fs) pre /\
    ~ readable fs file /\
    e = planning_error fs file.
Proof.
  revert layout. induction files as [|file rest IH]; intros layout.
  - simpl. split; [discriminate|].
    intros [pre [f [post [Hf _]]]]. destruct pre; discriminate Hf.
  - rewrite read_tar_files_step.
    assert (Hhead : ~ readable fs file ->
              forall pre f post,
                file :: rest = (pre ++ f :: post)%list ->
                Forall (readable fs) pre -> pre = [] /\ f = file).
    { intros Hnr pre f post Heq Hpre. destruct pre as [|x pre].
      - inversion Heq. auto.
      - inversion Heq; subst. inversion Hpre; subst. contradiction. }
    assert (Htail : readable fs file ->
              (exists pre f post,
                 file :: rest = (pre ++ f :: post)%list /\
                 Forall (readable fs) pre /\ ~ readable fs f /\
                 e = planning_error fs f) <->
              (exists pre f post,
                 rest = (pre ++ f :: post)%list /\
                 Forall (readable fs) pre /\ ~ readable fs f /\
                 e = planning_error fs f)).
    { intros Hr. split.
      - intros [pre [f [post [Heq [Hpre [Hnr He]]]]]].
        destruct pre as [|x pre].
        + inversion Heq; subst. contradiction.
        + inversion Heq; subst. inversion Hpre; subst.
          exists pre, f, post. auto.
      - intros [pre [f [post [Heq [Hpre [Hnr He]]]]]].
        exists (file :: pre), f, post. rewrite Heq.
        split; [reflexivity|]. split; [constructor; assumption | auto]. }
    unfold readable, planning_error in *.
    destruct (fs !! file.2) as [a|] eqn:Hf.
    + destruct (fingerprint_ok a) eqn:Hok.
      * rewrite IH. symmetry. apply Htail. reflexivity.
      * split.
        -- intros Heq. inversion Heq; subst.
           exists [], file, rest. rewrite Hf.
           split; [reflexivity|]. split; [constructor|].
           split; [rewrite Hok; discriminate | reflexivity].
        -- intros [pre [f [post [Heq [Hpre [Hnr He]]]]]].
           destruct (Hhead ltac:(discriminate) pre f post Heq Hpre) as [-> ->].
           rewrite Hf in He. rewrite He. reflexivity.
    + destruct (bool_decide (file.1 = REQUIRED)) eqn:Hreq.
      * apply bool_decide_eq_true in Hreq. split.
        -- intros Heq. inversion Heq; subst.
           exists [], file, rest. rewrite Hf.
           split; [reflexivity|]. split; [constructor|].
           split; [rewrite Hreq; discriminate | reflexivity].
        -- intros [pre [f [post [Heq [Hpre [Hnr He]]]]]].
           assert (Hnr' : file.1 ≠ OPTIONAL) by (rewrite Hreq; discriminate).
           destruct (Hhead Hnr' pre f post Heq Hpre) as [-> ->].
           rewrite Hf in He. rewrite He. reflexivity.
      * apply bool_decide_eq_false in Hreq. rewrite IH. symmetry.
        apply Htail. apply not_required_optional, Hreq.
Qed.

Lemma readBlocks_entries_keeps (a : Artifact) (layout : DataLayout) (n : string) :
  is_Some (layout !! n) -> is_Some (readBlocks_entries a layout !! n).
Proof.
  intros Hn. rewrite LayoutFacts.readBlocks_entries_lookup.
  destruct (last _); [eexists; reflexivity | exact Hn].
Qed.

Lemma read_tar_files_keeps (fs : FileSystem) (files : list (bool * string))
  (layout planned : DataLayout) (n : string) :
  read_tar_files fs files layout = Return planned ->
  is_Some (layout !! n) -> is_Some (planned !! n).
Proof.
  revert layout. induction files as [|file rest IH]; intros layout Hr Hn.
  - inversion Hr; subst. exact Hn.
  - rewrite read_tar_files_step in Hr.
    destruct (fs !! file.2) as [a|].
    + destruct (fingerprint_ok a); [|discriminate Hr].
      apply (IH _ Hr). apply readBlocks_entries_keeps, Hn.
    + destruct (bool_decide _); [discriminate Hr|]. apply (IH _ Hr Hn).
Qed.

(** X3.  Planning never drops a block: every name of the layout handed to
    [PopulateStaticLayout] is still in the layout it returns, and so is the
    block of the path of the file index, which it sets before it reads any
    archive. *)
Theorem static_layout_keeps_blocks (config : StorageConfig) (fs : FileSystem)
  (layout planned : DataLayout) :
  PopulateStaticLayout config fs layout = Return planned ->
  is_Some (planned !! "/common/rtree/file_index_path") /\
  forall n, is_Some (layout !! n) -> is_Some (planned !! n).
Proof.
  unfold PopulateStaticLayout, SetBlock. intros Hr. split.
  - apply (read_tar_files_keeps _ _ _ _ _ Hr).
    rewrite lookup_insert_eq. eexists; reflexivity.
  - intros n Hn. apply (read_tar_files_keeps _ _ _ _ _ Hr).
    rewrite lookup_insert. case_decide; [eexists; reflexivity | exact Hn].
Qed.

Lemma static_layout_keeps_blocks_witness :
  is_Some (Demo.static_plan !! "/common/rtree/file_index_path").
Proof.
  assert (Hr : PopulateStaticLayout Demo.config (Demo.required_files 5) ∅
               = Return Demo.static_plan) by reflexivity.
  exact (proj1 (static_layout_keeps_blocks _ _ _ _ Hr)).
Defined.

(** X4.  Every block of a planned layout that the initial layout did not
    have comes from an entry of a listed archive that is there, in whose
    name [".meta"] does not occur: the block has the name of the entry, the
    element count that the archive gives for the name, and the byte size of
    the entry. *)
Theorem planned_block_origin (fs : FileSystem) (files : list (bool * string))
  (layout planned : DataLayout) (n : string) (b : Block) :
  read_tar_files fs files layout = Return planned ->
  planned !! n = Some b ->
  layout !! n = Some b \/
  exists file a entry,
    file ∈ files /\ fs !! file.2 = Some a /\ entry ∈ entries a /\
    FileEntry.name entry = n /\ ~ occurs_in ".meta" n /\
    b = {| num_entries := element_count a n;
           byte_size := FileEntry.size entry |}.
Proof.
  revert layout. induction files as [|file rest IH]; intros layout Hr Hb.
  - inversion Hr; subst. left. exact Hb.
  - rewrite read_tar_files_step in Hr.
    assert (Hlift : (exists f a entry,
                       f ∈ rest /\ fs !! f.2 = Some a /\ entry ∈ entries a /\
                       FileEntry.name entry = n /\ ~ occurs_in ".meta" n /\
                       b = {| num_entries := element_count a n;
                              byte_size := FileEntry.size entry |}) ->
                    exists f a entry,
                      f ∈ file :: rest /\ fs !! f.2 = Some a /\
                      entry ∈ entries a /\
                      FileEntry.name entry = n /\ ~ occurs_in ".meta" n /\
                      b = {| num_entries := element_count a n;
                             byte_size := FileEntry.size entry |}).
    { intros [f [a [entry [Hin Hrest]]]]. exists f, a, entry.
      split; [apply list_elem_of_further, Hin | exact Hrest]. }
    destruct (fs !! file.2) as [a|] eqn:Hf.
    + destruct (fingerprint_ok a); [|discriminate Hr].
      destruct (IH _ Hr Hb) as [Hhere|Hlater]; [|right; apply Hlift, Hlater].
      rewrite LayoutFacts.readBlocks_entries_lookup in Hhere.
      destruct (last (filter (sets_block n) (entries a))) as [entry|] eqn:Hlast;
        [|left; exact Hhere].
      apply last_Some_elem_of, list_elem_of_filter in Hlast.
      destruct Hlast as [[Hname Hnpos] Hin]. right.
      exists file, a, entry. split; [apply list_elem_of_here|].
      split; [exact Hf|]. split; [exact Hin|]. split; [exact Hname|].
      split; [rewrite <- Hname; apply LayoutFacts.rfind_npos, Hnpos|].
      inversion Hhere. reflexivity.
    + destruct (bool_decide _); [discriminate Hr|].
      destruct (IH _ Hr Hb) as [Hhere|Hlater];
        [left; exact Hhere | right; apply Hlift, Hlater].
Qed.

Lemma planned_block_origin_witness :
  exists file a entry,
    file ∈ updatable_tar_files Demo.config /\
    Demo.required_files 5 !! file.2 = Some a /\ entry ∈ entries a /\
    FileEntry.name entry = "/common/segment_data/nodes" /\
    ~ occurs_in ".meta" "/common/segment_data/nodes" /\
    {| num_entries := 8; byte_size := 32 |}
    = {| num_entries := element_count a "/common/segment_data/nodes";
         byte_size := FileEntry.size entry |}.
Proof.
  assert (Hr : read_tar_files (Demo.required_files 5)
                 (updatable_tar_files Demo.config) ∅
               = Return Demo.updatable_plan) by reflexivity.
  assert (Hb : Demo.updatable_plan !! "/common/segment_data/nodes"
               = Some {| num_entries := 8; byte_size := 32 |}) by reflexivity.
  destruct (planned_block_origin _ _ _ _ _ _ Hr Hb) as [Hempty|Horigin].
  - discriminate Hempty.
  - exact Horigin.
Defined.

End PlanFacts.

(* ===================================================================== *)
(** * Further properties: allocating a region *)
(* ===================================================================== *)

Module RegionFacts.
Import Storage Props Terms PublishFacts.
Local Open Scope string_scope.

(** Everything that a [setupRegion] that returns did. *)
Lemma setupRegion_inv (layout : DataLayout) (w w' : World) (h : RegionHandle) :
  setupRegion layout w = (Return h, w') ->
  h = {| memory := shm_key h; data_ptr := Some (shm_key h);
         shm_key := shm_key h |} /\
  list_find (fun b => b = false) (shm_key_in_use (w_register w))
  = Some (shm_key h, false) /\
  shm_key_in_use (w_register w')
  = <[shm_key h := true]> (shm_key_in_use (w_register w)) /\
  regions (w_register w') = regions (w_register w) /\
  w_segments w'
  = <[shm_key h := {| seg_header := Some layout; seg_payload := [] |}]>
      (w_segments w) /\
  w_timed_lock w' = w_timed_lock w.
Proof.
  unfold setupRegion. intros Hs. apply bind_inv in Hs.
  destruct Hs as [[k [wa [Hres Hs]]]|[e [_ Hs]]]; [|discriminate Hs].
  assert (Hfind : list_find (fun b => b = false) (shm_key_in_use (w_register w))
                  = Some (k, false)).
  { revert Hres. run_M.
    destruct (list_find (fun b => b = false) (shm_key_in_use (w_register w)))
      as [[key b]|] eqn:Hf.
    - run_M. simpl. intros Heq. inversion Heq; subst.
      apply list_find_Some in Hf. destruct Hf as [_ [-> _]]. reflexivity.
    - simpl. intros Heq. inversion Heq. }
  pose proof (ReserveKey_Return _ _ _ Hres)
    as [_ [Hseg [Hrr [Htl [Hregs [Huse _]]]]]].
  apply bind_inv in Hs.
  destruct Hs as [[ex [wb [Hex Hs]]]|[e [_ Hs]]]; [|discriminate Hs].
  assert (Hwb : wb = wa /\ ex = bool_decide (is_Some (w_segments wa !! k)))
    by (revert Hex; run_M; simpl; intros Heq; inversion Heq; auto).
  destruct Hwb as [-> ->]. clear Hex.
  apply bind_inv in Hs.
  destruct Hs as [[[] [wc [Hrem Hs]]]|[e [_ Hs]]]; [|discriminate Hs].
  assert (Hc : w_register wc = w_register wa /\
               w_timed_lock wc = w_timed_lock wa /\
               (w_segments wc = w_segments wa \/
                w_segments wc = delete k (w_segments wa))).
  { revert Hrem. destruct (bool_decide (is_Some (w_segments wa !! k))).
    - unfold Remove. run_M. intros Heq. inversion Heq; subst. simpl.
      destruct (hd true (w_remove_results wa)); auto.
    - run_M. intros Heq. inversion Heq; subst. auto. }
  destruct Hc as [Hregc [Htlc Hsegc]]. clear Hrem. revert Hs. run_M.
  destruct (w_segments wc !! k) eqn:Hlive; run_M; simpl; intros Heq;
    inversion Heq; subst. simpl.
  split; [reflexivity|]. split; [exact Hfind|].
  split; [congruence|]. split; [congruence|]. split; [|congruence].
  apply map_eq. intros j. destruct (decide (k = j)) as [<-|Hne].
  - rewrite lookup_alter_eq, !lookup_insert_eq. reflexivity.
  - rewrite lookup_alter_ne, !lookup_insert_ne by assumption.
    destruct Hsegc as [Hsame|Hdel].
    + rewrite Hsame, Hseg. reflexivity.
    + rewrite Hdel, lookup_delete_ne by assumption. rewrite Hseg. reflexivity.
Qed.

(** X5.  A [setupRegion] that returns took a key that was free: the key is
    now marked in use and no other bit has changed; the handle owns the
    segment of that key; no entry of the register is touched; and the segment
    at the key holds the layout and an empty payload, all other segments
    being as they were. *)
Theorem setupRegion_allocates (layout : DataLayout) (w w' : World)
  (h : RegionHandle) :
  setupRegion layout w = (Return h, w') ->
  memory h = shm_key h /\ data_ptr h = Some (shm_key h) /\
  shm_key_in_use (w_register w) !! shm_key h = Some false /\
  shm_key_in_use (w_register w')
  = <[shm_key h := true]> (shm_key_in_use (w_register w)) /\
  regions (w_register w') = regions (w_register w) /\
  w_segments w'
  = <[shm_key h := {| seg_header := Some layout; seg_payload := [] |}]>
      (w_segments w).
Proof.
  intros Hs. apply setupRegion_inv in Hs.
  destruct Hs as [Hh [Hfind [Huse [Hregs [Hseg _]]]]].
  apply list_find_Some in Hfind. destruct Hfind as [Hk _].
  split; [rewrite Hh; reflexivity|]. split; [rewrite Hh; reflexivity|].
  split; [exact Hk|]. auto.
Qed.

Lemma setupRegion_allocates_witness :
  shm_key_in_use (w_register (setupRegion Demo.static_plan Demo.staged).2)
  = <[4%nat := true]> (shm_key_in_use (w_register Demo.staged)).
Proof.
  assert (Hs : setupRegion Demo.static_plan Demo.staged
               = (Return {| memory := 4; data_ptr := Some 4%nat; shm_key := 4 |},
                  (setupRegion Demo.static_plan Demo.staged).2)) by reflexivity.
  exact (proj1 (proj2 (proj2 (proj2
           (setupRegion_allocates _ _ _ _ Hs))))).
Defined.

(** X6.  When every key of the register is in use [setupRegion] throws
    [KeysExhausted] and leaves everything as it was: no key is reserved, no
    segment is removed or created, no call is made. *)
Theorem setupRegion_exhausted (layout : DataLayout) (w : World) :
  Forall (fun b => b = true) (shm_key_in_use (w_register w)) ->
  setupRegion layout w = (Throw KeysExhausted, w).
Proof.
  intros Hall. unfold setupRegion. apply bind_Throw. run_M.
  assert (Hnone : list_find (fun b => b = false)
                    (shm_key_in_use (w_register w)) = None).
  { apply list_find_None. eapply Forall_impl; [exact Hall|].
    intros b -> Hb. discriminate Hb. }
  rewrite Hnone. reflexivity.
Qed.

Lemma setupRegion_exhausted_witness :
  setupRegion Demo.static_plan exhausted = (Throw KeysExhausted, exhausted).
Proof.
  apply setupRegion_exhausted. repeat constructor.
Defined.

(** X7.  Two regions set up one after the other get different keys, as long
    as nothing releases a key in between (filling a payload does not): the
    second [setupRegion] cannot return the key that the first one marked in
    use. *)
Theorem successive_regions_get_distinct_keys (layout1 layout2 : DataLayout)
  (w w1 w1' w2 : World) (h1 h2 : RegionHandle) :
  setupRegion layout1 w = (Return h1, w1) ->
  shm_key_in_use (w_register w1') = shm_key_in_use (w_register w1) ->
  setupRegion layout2 w1' = (Return h2, w2) ->
  shm_key h1 ≠ shm_key h2.
Proof.
  intros Hs1 Hkeep Hs2 Heq.
  apply setupRegion_inv in Hs1. destruct Hs1 as [_ [Hf1 [Huse1 _]]].
  apply setupRegion_inv in Hs2. destruct Hs2 as [_ [Hf2 _]].
  apply list_find_Some in Hf1. destruct Hf1 as [Hk1 _].
  apply list_find_Some in Hf2. destruct Hf2 as [Hk2 _].
  rewrite Hkeep, Huse1, <- Heq in Hk2.
  rewrite list_lookup_insert_eq in Hk2 by (apply (lookup_lt_Some _ _ _ Hk1)).
  discriminate Hk2.
Qed.

Lemma successive_regions_get_distinct_keys_witness :
  let first := setupRegion Demo.static_plan Demo.boot in
  let second := setupRegion Demo.static_plan first.2 in
  first.1 = Return {| memory := 0; data_ptr := Some 0%nat; shm_key := 0 |} /\
  second.1 = Return {| memory := 1; data_ptr := Some 1%nat; shm_key := 1 |} /\
  (0 ≠ 1)%nat.
Proof.
  intros first second.
  assert (H1 : setupRegion Demo.static_plan Demo.boot
               = (Return {| memory := 0; data_ptr := Some 0%nat; shm_key := 0 |},
                  first.2)) by reflexivity.
  assert (H2 : setupRegion Demo.static_plan first.2
               = (Return {| memory := 1; data_ptr := Some 1%nat; shm_key := 1 |},
                  second.2)) by reflexivity.
  split; [reflexivity|]. split; [reflexivity|].
  exact (successive_regions_get_distinct_keys _ _ _ _ _ _ _ _ H1 eq_refl H2).
Defined.

End RegionFacts.

(* ===================================================================== *)
(** * Further properties: the swap *)
(* ===================================================================== *)

Module SwapFacts.
Import Storage Props Terms PublishFacts.
Local Open Scope string_scope.

Lemma take_mutex_inv (max_wait : Z) (w : World) :
  exists ev wl,
    take_mutex max_wait w = (Return (acquires max_wait w), wl) /\
    lock_call ev /\ swapped_out [ev] = [] /\
    w_trace wl = (w_trace w ++ [ev])%list /\
    w_register wl = w_register w /\
    w_segments wl = w_segments w /\
    w_remove_results wl = w_remove_results w.
Proof.
  unfold take_mutex, acquires. destruct (bool_decide (0 <= max_wait)%Z).
  - exists (EvTimedLock max_wait (w_timed_lock w)). eexists.
    split; [reflexivity|]. simpl. auto 10.
  - exists EvLock. eexists. split; [reflexivity|]. simpl. auto 10.
Qed.

(** The three ways through [swapData]. *)
Lemma swapData_cases (handles : list (string * RegionHandle)) (max_wait : Z)
  (w w' : World) (r : outcome bool) :
  swapData handles max_wait w = (r, w') ->
  exists ev wl,
    lock_call ev /\ swapped_out [ev] = [] /\
    w_trace wl = (w_trace w ++ [ev])%list /\
    w_register wl = w_register w /\
    w_segments wl = w_segments w /\
    w_remove_results wl = w_remove_results w /\
    ((acquires max_wait w = false /\ r = Return false /\
      for_each handles (fun pair => Remove (shm_key pair.2);; ret tt) wl
      = (Return tt, w')) \/
     (acquires max_wait w = true /\
      exists rl w1,
        swap_loop handles [] wl = (rl, w1) /\
        ((exists e, rl = Throw e /\ r = Throw e /\ w' = (unlock w1).2) \/
         (exists olds, rl = Return olds /\ r = Return true /\
            for_each olds retire (notify_all (unlock w1).2).2
            = (Return tt, w'))))).
Proof.
  rewrite swapData_unfold.
  destruct (take_mutex_inv max_wait w)
    as [ev [wl [Hm [Hlc [Hso [Ht [Hreg [Hseg Hres]]]]]]]].
  rewrite (bind_Return _ _ _ _ _ Hm). intros Hs.
  exists ev, wl. repeat (split; [assumption|]).
  destruct (acquires max_wait w); cbn [negb] in Hs.
  - right. split; [reflexivity|].
    destruct (swap_loop handles [] wl) as [rl w1] eqn:Hloop.
    exists rl, w1. split; [reflexivity|].
    rewrite bind_unfold in Hs. unfold scoped_lock in Hs. rewrite Hloop in Hs.
    destruct rl as [olds|e].
    + right. exists olds. split; [reflexivity|].
      apply bind_inv in Hs.
      destruct Hs as [[[] [w3 [Hnot Hs]]]|[e [Hnot _]]]; [|inversion Hnot].
      assert (Hw3 : w3 = (notify_all (unlock w1).2).2)
        by (rewrite Hnot; reflexivity).
      subst w3. clear Hnot.
      destruct (for_each_retire_spec olds (notify_all (unlock w1).2).2)
        as [w5 [Hret _]].
      rewrite (bind_Return _ _ _ _ _ Hret) in Hs. inversion Hs; subst.
      split; [reflexivity | exact Hret].
    + left. exists e. inversion Hs; subst. auto.
  - left. split; [reflexivity|].
    destruct (for_each_Remove_spec handles wl) as [w2 [Hf _]].
    rewrite (bind_Return _ _ _ _ _ Hf) in Hs. inversion Hs; subst. auto.
Qed.

Lemma swap_one_calls (p : string * RegionHandle) (olds : list RegionHandle)
  (w w' : World) (r : outcome (list RegionHandle)) :
  swap_one p olds w = (r, w') ->
  (exists evs, w_trace w' = (w_trace w ++ evs)%list /\ Forall swap_call evs) /\
  (forall e, r = Throw e -> system_error e).
Proof.
  run_M.
  destruct (Find (w_register w) p.1) as [region_id|].
  - destruct (GetRegion (w_register w) region_id) as [shared_region|].
    + run_M. destruct (w_segments w !! SharedRegion.shm_key shared_region).
      * run_M. simpl. intros Heq. inversion Heq; subst; clear Heq. simpl.
        split; [|intros e He; discriminate He].
        eexists. rewrite <- app_assoc. split; [reflexivity|].
        simpl. repeat constructor.
      * simpl. intros Heq. inversion Heq; subst; clear Heq.
        split; [|intros e He; inversion He; exact I].
        exists []. rewrite app_nil_r. split; [reflexivity | constructor].
    + simpl. intros Heq. inversion Heq; subst; clear Heq.
      split; [|intros e He; discriminate He].
      exists []. rewrite app_nil_r. split; [reflexivity | constructor].
  - run_M.
    destruct (list_find (fun r => SharedRegion.name r = EmptyString)
                (regions (w_register w))) as [[region_id empty_slot]|].
    + run_M. simpl. intros Heq. inversion Heq; subst; clear Heq. simpl.
      split; [|intros e He; discriminate He].
      eexists. split; [reflexivity|]. repeat constructor.
    + simpl. intros Heq. inversion Heq; subst; clear Heq.
      split; [|intros e He; inversion He; exact I].
      exists []. rewrite app_nil_r. split; [reflexivity | constructor].
Qed.

Lemma swap_loop_calls (handles : list (string * RegionHandle))
  (olds : list RegionHandle) (w w' : World) (r : outcome (list RegionHandle)) :
  swap_loop handles olds w = (r, w') ->
  (exists evs, w_trace w' = (w_trace w ++ evs)%list /\ Forall swap_call evs) /\
  (forall e, r = Throw e -> system_error e).
Proof.
  revert olds w. induction handles as [|p rest IH]; intros olds w.
  - simpl. intros Heq. inversion Heq; subst.
    split; [|intros e He; discriminate He].
    exists []. rewrite app_nil_r. split; [reflexivity | constructor].
  - cbn [swap_loop]. intros Hloop. apply bind_inv in Hloop.
    destruct Hloop as [[olds1 [w1 [Hone Hrest]]]|[e [Hone ->]]].
    + apply swap_one_calls in Hone. destruct Hone as [[evs1 [Ht1 Hc1]] _].
      apply IH in Hrest. destruct Hrest as [[evs2 [Ht2 Hc2]] Herr].
      split; [|exact Herr].
      exists (evs1 ++ evs2)%list. rewrite Ht2, Ht1, app_assoc.
      split; [reflexivity | apply Forall_app; auto].
    + apply swap_one_calls in Hone. destruct Hone as [Hev Herr].
      split; [exact Hev|]. intros e' He'. inversion He'; subst.
      apply (Herr _ eq_refl).
Qed.

Lemma for_each_retire_state (olds : list RegionHandle) (w : World) :
  exists w',
    for_each olds retire w = (Return tt, w') /\
    regions (w_register w') = regions (w_register w) /\
    shm_key_in_use (w_register w')
    = release_all (map shm_key olds) (shm_key_in_use (w_register w)) /\
    (w_remove_results w = [] ->
     w_segments w' = remove_all (map shm_key olds) (w_segments w)).
Proof.
  revert w. induction olds as [|h olds IH]; intros w.
  - exists w. simpl. auto.
  - assert (Hstep : exists w1,
              retire h w = (Return tt, w1) /\
              regions (w_register w1) = regions (w_register w) /\
              shm_key_in_use (w_register w1)
              = <[shm_key h := false]> (shm_key_in_use (w_register w)) /\
              w_remove_results w1 = tail (w_remove_results w) /\
              w_segments w1
              = if hd true (w_remove_results w)
                then delete (shm_key h) (w_segments w) else w_segments w).
    { eexists. split; [reflexivity|]. simpl. auto. }
    destruct Hstep as [w1 [Hr [Hreg [Huse [Hres Hseg]]]]].
    destruct (IH w1) as [w' [Hf [Hreg' [Huse' Hseg']]]].
    exists w'. cbn [for_each]. rewrite (bind_Return _ _ _ _ _ Hr).
    split; [exact Hf|]. split; [congruence|]. split.
    + rewrite Huse', Huse. reflexivity.
    + intros Hnil. rewrite Hnil in Hres, Hseg. simpl in Hres, Hseg.
      rewrite (Hseg' Hres), Hseg. reflexivity.
Qed.

Lemma for_each_Remove_state (handles : list (string * RegionHandle))
  (w w' : World) :
  for_each handles (fun pair => Remove (shm_key pair.2);; ret tt) w
  = (Return tt, w') ->
  w_remove_results w = [] ->
  w_segments w'
  = remove_all (map (fun pair : string * RegionHandle => shm_key pair.2) handles)
      (w_segments w).
Proof.
  revert w. induction handles as [|p rest IH]; intros w Hf Hnil.
  - inversion Hf; subst. reflexivity.
  - cbn [for_each] in Hf.
    assert (Hstep : exists w1,
              (Remove (shm_key p.2);; ret tt) w = (Return tt, w1) /\
              w_remove_results w1 = tail (w_remove_results w) /\
              w_segments w1
              = if hd true (w_remove_results w)
                then delete (shm_key p.2) (w_segments w) else w_segments w).
    { eexists. split; [reflexivity|]. simpl. auto. }
    destruct Hstep as [w1 [Hstep [Hres Hseg]]].
    rewrite (bind_Return _ _ _ _ _ Hstep) in Hf.
    rewrite Hnil in Hres, Hseg. simpl in Hres, Hseg.
    rewrite (IH _ Hf Hres), Hseg. reflexivity.
Qed.

(** X8.  When [max_wait] is not negative and the monitor mutex cannot be
    taken in time, [swapData] answers [false] after one [Remove] per new
    handle and nothing else: the register is exactly as it was (no entry, and
    no key released), the mutex is neither taken nor released, nobody is
    notified; when the removals succeed the segments of the handles are
    gone and the others are as they were. *)
Theorem swapData_times_out (handles : list (string * RegionHandle))
  (max_wait : Z) (w : World) :
  (0 <= max_wait)%Z -> w_timed_lock w = false ->
  exists w',
    swapData handles max_wait w = (Return false, w') /\
    w_register w' = w_register w /\
    w_trace w' =
      (w_trace w ++ EvTimedLock max_wait false
         :: removal_events handles (w_remove_results w))%list /\
    (w_remove_results w = [] ->
     w_segments w'
     = remove_all
         (map (fun pair : string * RegionHandle => shm_key pair.2) handles)
         (w_segments w)).
Proof.
  intros Hmw Hlock.
  destruct (swapData_timeout handles max_wait w Hmw Hlock)
    as [w' [Hs [Hreg Ht]]].
  exists w'. split; [exact Hs|]. split; [exact Hreg|]. split; [exact Ht|].
  intros Hnil. apply swapData_cases in Hs.
  destruct Hs as [ev [wl [_ [_ [_ [_ [Hseg [Hres Hcase]]]]]]]].
  destruct Hcase as [[_ [_ Hf]]|[_ [rl [w1 [_ [[e [_ [Hr _]]]|[o [_ [Hr _]]]]]]]]];
    try discriminate Hr.
  rewrite (for_each_Remove_state _ _ _ Hf) by congruence.
  rewrite Hseg. reflexivity.
Qed.

Lemma swapData_times_out_witness :
  exists w',
    swapData Demo.first_handles 0 Demo.staged_first = (Return false, w') /\
    w_register w' = w_register Demo.staged_first /\
    w_segments w' = remove_all [0%nat; 1%nat] (w_segments Demo.staged_first).
Proof.
  destruct (swapData_times_out Demo.first_handles 0 Demo.staged_first)
    as [w' [Hs [Hreg [_ Hseg]]]]; [lia | reflexivity |].
  exists w'. split; [exact Hs|]. split; [exact Hreg|].
  apply Hseg. reflexivity.
Defined.

(** X9.  [swapData] answers [false] exactly when it does not get the
    monitor mutex, that is when [max_wait] is not negative and the timed lock
    fails; with a negative [max_wait] it never answers [false]. *)
Theorem swapData_false_iff (handles : list (string * RegionHandle))
  (max_wait : Z) (w : World) :
  (exists w', swapData handles max_wait w = (Return false, w')) <->
  ((0 <= max_wait)%Z /\ w_timed_lock w = false).
Proof.
  split.
  - intros [w' Hs]. apply swapData_cases in Hs.
    destruct Hs as [ev [wl [_ [_ [_ [_ [_ [_ Hcase]]]]]]]].
    destruct Hcase as [[Hacq _]|[_ [rl [w1 [_ [[e [_ [Hr _]]]|[o [_ [Hr _]]]]]]]]];
      try discriminate Hr.
    unfold acquires in Hacq. case_bool_decide; [auto | discriminate Hacq].
  - intros [Hmw Hlock].
    destruct (swapData_timeout handles max_wait w Hmw Hlock) as [w' [Hs _]].
    exists w'. exact Hs.
Qed.

Lemma retirement_events_retiring (olds : list RegionHandle) (results : list bool) :
  Forall (fun e => e = EvNotifyAll \/ retiring e) (retirement_events olds results).
Proof.
  revert results. induction olds as [|h olds IH]; intros results; simpl.
  - constructor.
  - repeat (constructor; [right; exact I|]). apply IH.
Qed.

Lemma retirement_events_swapped_out (olds : list RegionHandle)
  (results : list bool) :
  swapped_out (retirement_events olds results) = [].
Proof.
  revert results. induction olds as [|h olds IH]; intros results; simpl.
  - reflexivity.
  - apply IH.
Qed.

(** X10.  When [swapData] gets the monitor mutex, whatever comes of it: the
    calls it makes are the lock, then the registrations, attachments and
    swaps of the loop, then the unlock, then only the notification and the
    retirement.  So every write to an entry of the register happens while the
    mutex is held, and the mutex is released on every path, the one of an
    exception included. *)
Theorem swapData_writes_under_mutex (handles : list (string * RegionHandle))
  (max_wait : Z) (w w' : World) (r : outcome bool) :
  swapData handles max_wait w = (r, w') ->
  acquires max_wait w = true ->
  exists ev body rest,
    w_trace w' = (w_trace w ++ ev :: body ++ EvUnlock :: rest)%list /\
    lock_call ev /\
    Forall swap_call body /\
    Forall (fun e => e = EvNotifyAll \/ retiring e) rest.
Proof.
  intros Hs Hacq. apply swapData_cases in Hs.
  destruct Hs as [ev [wl [Hlc [_ [Ht [_ [_ [_ Hcase]]]]]]]].
  destruct Hcase as [[Hno _]|[_ [rl [w1 [Hloop Hend]]]]]; [congruence|].
  apply swap_loop_calls in Hloop. destruct Hloop as [[body [Htb Hbody]] _].
  exists ev, body.
  destruct Hend as [[e [_ [_ ->]]]|[olds [_ [_ Hret]]]].
  - exists []. split; [|auto].
    simpl. rewrite Htb, Ht, <- !app_assoc. reflexivity.
  - destruct (for_each_retire_spec olds (notify_all (unlock w1).2).2)
      as [w5 [Hret' [Ht5 _]]].
    rewrite Hret' in Hret. inversion Hret; subst w5.
    eexists (EvNotifyAll :: retirement_events olds _).
    split; [|split; [exact Hlc|split; [exact Hbody|]]].
    + rewrite Ht5. simpl. rewrite Htb, Ht, <- !app_assoc. reflexivity.
    + constructor; [left; reflexivity | apply retirement_events_retiring].
Qed.

Lemma swapData_writes_under_mutex_witness :
  exists ev body rest,
    w_trace (swapData Demo.republish_handles (-1) Demo.staged).2
    = (w_trace Demo.staged ++ ev :: body ++ EvUnlock :: rest)%list /\
    lock_call ev /\ Forall swap_call body.
Proof.
  destruct (swapData_writes_under_mutex Demo.republish_handles (-1) Demo.staged
              (swapData Demo.republish_handles (-1) Demo.staged).2
              (swapData Demo.republish_handles (-1) Demo.staged).1)
    as [ev [body [rest [Ht [Hl [Hb _]]]]]].
  - destruct (swapData Demo.republish_handles (-1) Demo.staged); reflexivity.
  - reflexivity.
  - exists ev, body, rest. auto.
Defined.



(** X12.  Whatever comes of it, [swapData] leaves the entry of every name
    that is not among its handles as it found it: same slot, same key, same
    timestamp. *)
Theorem swapData_leaves_other_names (handles : list (string * RegionHandle))
  (max_wait : Z) (w w' : World) (r : outcome bool) (n : string) :
  swapData handles max_wait w = (r, w') ->
  n ∉ handles.*1 -> n ≠ EmptyString ->
  entry_of (w_register w') n = entry_of (w_register w) n.
Proof.
  intros Hs Hnin Hn. apply swapData_cases in Hs.
  destruct Hs as [ev [wl [_ [_ [_ [Hreg [_ [_ Hcase]]]]]]]].
  destruct Hcase as [[_ [_ Hf]]|[_ [rl [w1 [Hloop Hend]]]]].
  - destruct (for_each_Remove_spec handles wl) as [w2 [Hf' [Hreg2 _]]].
    rewrite Hf' in Hf. inversion Hf; subst w2. congruence.
  - pose proof (swap_loop_entry_other _ _ _ _ _ _ Hloop Hnin Hn) as Hent.
    rewrite Hreg in Hent. rewrite <- Hent.
    destruct Hend as [[e [_ [_ ->]]]|[olds [_ [_ Hret]]]]; [reflexivity|].
    destruct (for_each_retire_state olds (notify_all (unlock w1).2).2)
      as [w5 [Hret' [Hregs _]]].
    rewrite Hret' in Hret. inversion Hret; subst w5.
    unfold entry_of. rewrite Hregs. reflexivity.
Qed.

Lemma swapData_leaves_other_names_witness :
  entry_of (w_register (swapData [hd ("alpha/static",
                                      {| memory := 2; data_ptr := Some 2%nat;
                                         shm_key := 2 |})
                                    Demo.republish_handles]
                          (-1) Demo.staged).2) "alpha/updatable"
  = entry_of (w_register Demo.staged) "alpha/updatable".
Proof.
  eapply swapData_leaves_other_names.
  - apply surjective_pairing.
  - simpl. intros Hin. apply list_elem_of_singleton in Hin. discriminate Hin.
  - discriminate.
Defined.



End SwapFacts.

(* ===================================================================== *)
(** * Further properties: the payload *)
(* ===================================================================== *)

Module PopulateFacts.
Import Storage Props Terms PublishFacts.
Local Open Scope string_scope.

Lemma differ_in_payload_of_refl (p : nat) (segs : gmap nat Segment) :
  differ_in_payload_of p segs segs.
Proof. split; reflexivity. Qed.

Lemma differ_in_payload_of_trans (p : nat) (s1 s2 s3 : gmap nat Segment) :
  differ_in_payload_of p s1 s2 -> differ_in_payload_of p s2 s3 ->
  differ_in_payload_of p s1 s3.
Proof.
  intros [Ho1 Hp1] [Ho2 Hp2]. split.
  - intros k Hk. rewrite Ho2, Ho1 by assumption. reflexivity.
  - congruence.
Qed.

Lemma writes_payload_of_ret {A} (p : nat) (a : A) : writes_payload_of p (ret a).
Proof.
  intros w r w' Heq. inversion Heq; subst. apply differ_in_payload_of_refl.
Qed.

Lemma writes_payload_of_throw {A} (p : nat) (e : Error) :
  writes_payload_of p (@throw A e).
Proof.
  intros w r w' Heq. inversion Heq; subst. apply differ_in_payload_of_refl.
Qed.

Lemma writes_payload_of_bind {A B} (p : nat) (m : M A) (f : A -> M B) :
  writes_payload_of p m -> (forall a, writes_payload_of p (f a)) ->
  writes_payload_of p (m ≫= f).
Proof.
  intros Hm Hf w r w' Heq. apply bind_inv in Heq.
  destruct Heq as [[a [w1 [H1 H2]]]|[e [H1 _]]].
  - apply (differ_in_payload_of_trans _ _ (w_segments w1));
      [apply (Hm _ _ _ H1) | apply (Hf a _ _ _ H2)].
  - apply (Hm _ _ _ H1).
Qed.

Lemma writes_payload_of_write_block (p : nat) (block path : string) :
  writes_payload_of p (write_block p block path).
Proof.
  intros w r w' Heq. inversion Heq; subst. simpl. split.
  - intros k Hk. apply lookup_alter_ne. congruence.
  - rewrite lookup_alter_eq.
    destruct (w_segments w !! p) as [s|]; reflexivity.
Qed.

Section Populate.
Variable config : StorageConfig.
Variable fs : FileSystem.

Lemma writes_payload_of_read_file (p : nat) (path : string) :
  writes_payload_of p (read_file fs path).
Proof.
  unfold read_file. destruct (fs !! path);
    [apply writes_payload_of_ret | apply writes_payload_of_throw].
Qed.

Lemma writes_payload_of_load (p : nat) (block suffix : string) :
  writes_payload_of p (load config fs (Some p) block suffix).
Proof.
  unfold load. apply writes_payload_of_bind; [apply writes_payload_of_read_file|].
  intros a. apply writes_payload_of_bind; [|intros; apply writes_payload_of_ret].
  apply writes_payload_of_write_block.
Qed.

Lemma writes_payload_of_check (p : nat) (turns : Z) (suffix : string)
  (graph : Artifact) :
  writes_payload_of p (check_connectivity config turns suffix graph).
Proof.
  unfold check_connectivity. destruct (bool_decide _);
    [apply writes_payload_of_throw | apply writes_payload_of_ret].
Qed.

Ltac writes_payload_of_tac :=
  repeat first
    [ apply writes_payload_of_ret
    | apply writes_payload_of_throw
    | apply writes_payload_of_load
    | apply writes_payload_of_check
    | apply writes_payload_of_write_block
    | apply writes_payload_of_read_file
    | apply writes_payload_of_bind; [|intros ?]
    | match goal with
      | |- writes_payload_of _ (if ?b then _ else _) => destruct b
      end ].

Lemma PopulateUpdatableData_fills_only (layout : DataLayout)
  (memory_ptr : option nat) :
  fills_only (PopulateUpdatableData config fs layout memory_ptr).
Proof.
  unfold PopulateUpdatableData.
  repeat first
    [ apply fills_only_ret
    | apply fills_only_throw
    | apply fills_only_load
    | apply fills_only_check
    | apply fills_only_read_file
    | apply fills_only_bind; [|intros ?]
    | match goal with
      | |- fills_only (if ?b then _ else _) => destruct b
      end ].
Qed.

(** X14.  Whether they return or throw, [PopulateStaticData] and
    [PopulateUpdatableData] write through the pointer they are given and
    nowhere else: the header of that segment and every other segment are as
    before, and so are the register, the trace of calls and the set of live
    segments.  What the payload holds afterwards is not said here. *)
Theorem populate_writes_only_own_payload (layout : DataLayout) (p : nat)
  (w w' : World) (r : outcome unit) :
  PopulateStaticData config fs layout (Some p) w = (r, w') \/
  PopulateUpdatableData config fs layout (Some p) w = (r, w') ->
  frame w w' /\ differ_in_payload_of p (w_segments w) (w_segments w').
Proof.
  intros [Hs|Hu].
  - split; [apply (PopulateStaticData_fills_only _ _ _ _ _ _ _ Hs)|].
    revert w r w' Hs. change (writes_payload_of p
      (PopulateStaticData config fs layout (Some p))).
    unfold PopulateStaticData. writes_payload_of_tac.
  - split; [apply (PopulateUpdatableData_fills_only _ _ _ _ _ Hu)|].
    revert w r w' Hu. change (writes_payload_of p
      (PopulateUpdatableData config fs layout (Some p))).
    unfold PopulateUpdatableData. writes_payload_of_tac.
Qed.

Lemma read_file_Return (path : string) (a : Artifact) (w : World) :
  fs !! path = Some a -> read_file fs path w = (Return a, w).
Proof. intros Hf. unfold read_file. rewrite Hf. reflexivity. Qed.

Lemma read_file_Throw (path : string) (w : World) :
  fs !! path = None -> read_file fs path w = (Throw (IoError path), w).
Proof. intros Hf. unfold read_file. rewrite Hf. reflexivity. Qed.

Lemma load_Throw (memory_ptr : option nat) (block suffix : string) (w : World) :
  fs !! GetPath config suffix = None ->
  load config fs memory_ptr block suffix w
  = (Throw (IoError (GetPath config suffix)), w).
Proof. intros Hf. unfold load, read_file. rewrite bind_unfold, Hf. reflexivity. Qed.

Lemma file_exists_false (suffix : string) :
  file_exists config fs suffix = false -> fs !! GetPath config suffix = None.
Proof.
  unfold file_exists. intros Hb. apply bool_decide_eq_false in Hb.
  destruct (fs !! GetPath config suffix); [|reflexivity].
  exfalso. apply Hb. eexists; reflexivity.
Qed.

Ltac step_load :=
  match goal with
  | Hf : fs !! GetPath config ?s = Some ?a
    |- context [ mbind ?k (load config fs ?p ?b ?s) ?w0 ] =>
      let w1 := fresh "w" in
      let Hl := fresh "Hl" in
      destruct (load_Return config fs p b s a w0 Hf) as [w1 Hl];
      rewrite (bind_Return _ _ _ _ _ Hl); clear Hl
  end.

(** The computation has thrown: it does not return. *)
Ltac thrown := let Heq := fresh "Heq" in intros Heq; discriminate Heq.

Ltac next_load :=
  match goal with
  | |- context [ mbind ?k (load config fs ?p ?b ?s) ?w0 ] =>
      let a := fresh "a" in
      let Hf := fresh "Hf" in
      destruct (fs !! GetPath config s) as [a|] eqn:Hf;
      [ step_load
      | rewrite (bind_Throw _ _ _ _ _ (load_Throw p b s w0 Hf)); thrown ]
  end.

Ltac skip_optional :=
  match goal with
  | |- context [ mbind ?k (if file_exists config fs ?s then _ else _) ?w0 ] =>
      let Hex := fresh "Hex" in
      destruct (file_exists config fs s) eqn:Hex;
      [ let a := fresh "a" in
        let Ha := fresh "Ha" in
        destruct (file_exists_true config fs s Hex) as [a Ha];
        rewrite bind_unfold; step_load; cbn [mret M_ret ret]
      | rewrite bind_unfold; cbn [mret M_ret ret] ]
  end.

Ltac compare_graph g :=
  match goal with
  | |- context [ check_connectivity config ?t ?s g ?w1 ] =>
      let Hag := fresh "Hag" in
      destruct (decide (connectivity_checksum g = t)) as [Hag|Hag];
      [ rewrite (check_match config t s g w1 Hag)
      | rewrite (check_mismatch config t s g w1 Hag); thrown ]
  end.

Ltac graph_step :=
  match goal with
  | |- context [ mbind ?k (if file_exists config fs ?s then _ else _) ?w0 ] =>
      let Hex := fresh "Hex" in
      destruct (file_exists config fs s) eqn:Hex;
      [ let g := fresh "g" in
        let Hg := fresh "Hg" in
        destruct (file_exists_true config fs s Hex) as [g Hg];
        rewrite Hg; rewrite bind_unfold; step_load; compare_graph g
      | rewrite (file_exists_false s Hex); rewrite bind_unfold;
        cbn [mret M_ret ret] ]
  end.

Ltac all_there :=
  repeat (apply Forall_cons_2;
          [ match goal with
            | H : ?x = Some _ |- is_Some ?x => rewrite H; eexists; reflexivity
            end |]);
  apply Forall_nil_2.

(** X15.  [PopulateStaticData] returns only if the fourteen files it reads
    without asking are there and each of the contracted graph and the
    multi-level graph, if it is there, embeds the checksum of the edges
    file.  (The converse is not claimed: the views and pointers that the
    source takes from the layout are not under src/.) *)
Theorem PopulateStaticData_returns_only_if (layout : DataLayout) (p : nat)
  (w w' : World) :
  PopulateStaticData config fs layout (Some p) w = (Return tt, w') ->
  Forall (fun s => is_Some (fs !! GetPath config s)) static_data_files /\
  graph_agrees config fs (turns_checksum config fs) ".osrm.hsgr" /\
  graph_agrees config fs (turns_checksum config fs) ".osrm.mldgr".
Proof.
  unfold PopulateStaticData. rewrite bind_unfold.
  change (write_block p "/common/rtree/file_index_path"
            (GetPath config ".osrm.fileIndex") w)
    with (Return tt, (write_block p "/common/rtree/file_index_path"
                        (GetPath config ".osrm.fileIndex") w).2).
  cbv iota beta.
  do 13 next_load.
  unfold graph_agrees, turns_checksum.
  match goal with H : fs !! GetPath config ".osrm.edges" = Some _ |- _ =>
    rewrite H end.
  graph_step.
  all: do 3 skip_optional.
  all: graph_step.
  all: next_load.
  all: intros _; split; [unfold static_data_files; all_there | auto].
Qed.

(** X16.  [PopulateUpdatableData] returns only if the five files it reads
    without asking are there and each of the contracted graph and the
    multi-level graph, if it is there, embeds the checksum 0: its
    [turns_connectivity_checksum] is never assigned, the edges file is not
    read.  A graph that embeds the checksum of the edges file makes it throw
    unless that checksum is 0. *)
Theorem PopulateUpdatableData_returns_only_if (layout : DataLayout) (p : nat)
  (w w' : World) :
  PopulateUpdatableData config fs layout (Some p) w = (Return tt, w') ->
  Forall (fun s => is_Some (fs !! GetPath config s)) updatable_data_files /\
  graph_agrees config fs 0 ".osrm.hsgr" /\
  graph_agrees config fs 0 ".osrm.mldgr".
Proof.
  unfold PopulateUpdatableData. cbv zeta.
  do 4 next_load.
  destruct (fs !! GetPath config ".osrm.properties") as [properties|] eqn:Hprop;
    [ rewrite (bind_Return _ _ _ _ _ (read_file_Return _ _ _ Hprop))
    | rewrite (bind_Throw _ _ _ _ _ (read_file_Throw _ _ Hprop)); thrown ].
  unfold graph_agrees.
  graph_step.
  all: skip_optional.
  all: destruct (file_exists config fs ".osrm.mldgr") eqn:Hm;
    [ destruct (file_exists_true config fs _ Hm) as [g' Hg']; rewrite Hg';
      step_load; compare_graph g'
    | rewrite (file_exists_false _ Hm); cbn [mret M_ret ret] ].
  all: intros _; split; [unfold updatable_data_files; all_there | auto].
Qed.

End Populate.

Lemma populate_writes_only_own_payload_witness :
  differ_in_payload_of 0 (w_segments Demo.staged_first)
    (w_segments
       (PopulateStaticData Demo.config (Demo.required_files 5)
          Demo.static_plan (Some 0%nat) Demo.staged_first).2).
Proof.
  refine (proj2 (populate_writes_only_own_payload Demo.config
                   (Demo.required_files 5) Demo.static_plan 0
                   Demo.staged_first _
                   (PopulateStaticData Demo.config (Demo.required_files 5)
                      Demo.static_plan (Some 0%nat) Demo.staged_first).1 _)).
  left. apply surjective_pairing.
Defined.

Lemma PopulateStaticData_returns_only_if_witness :
  graph_agrees Demo.config (Demo.with_hsgr 5 5)
    (turns_checksum Demo.config (Demo.with_hsgr 5 5)) ".osrm.hsgr".
Proof.
  refine (proj1 (proj2 (PopulateStaticData_returns_only_if Demo.config
                          (Demo.with_hsgr 5 5) Demo.static_plan 0
                          Demo.staged_first
                          (PopulateStaticData Demo.config (Demo.with_hsgr 5 5)
                             Demo.static_plan (Some 0%nat)
                             Demo.staged_first).2 _))).
  assert (Hfst : (PopulateStaticData Demo.config (Demo.with_hsgr 5 5)
                    Demo.static_plan (Some 0%nat) Demo.staged_first).1
                 = Return tt) by (vm_compute; reflexivity).
  rewrite <- Hfst. apply surjective_pairing.
Defined.

Lemma PopulateUpdatableData_returns_only_if_witness :
  graph_agrees Demo.config (Demo.with_hsgr 5 0) 0 ".osrm.hsgr".
Proof.
  refine (proj1 (proj2 (PopulateUpdatableData_returns_only_if Demo.config
                          (Demo.with_hsgr 5 0) Demo.updatable_plan 1
                          Demo.staged_first
                          (PopulateUpdatableData Demo.config
                             (Demo.with_hsgr 5 0) Demo.updatable_plan
                             (Some 1%nat) Demo.staged_first).2 _))).
  assert (Hfst : (PopulateUpdatableData Demo.config (Demo.with_hsgr 5 0)
                    Demo.updatable_plan (Some 1%nat) Demo.staged_first).1
                 = Return tt) by (vm_compute; reflexivity).
  rewrite <- Hfst. apply surjective_pairing.
Defined.

End PopulateFacts.

(* ===================================================================== *)
(** * Further properties: [Storage::Run] as a whole *)
(* ===================================================================== *)

Module RunFacts.
Import Storage Props Terms PublishFacts RegionFacts PopulateFacts SwapFacts.
Local Open Scope string_scope.

Lemma keeps_keys_refl (in_use : list bool) : keeps_keys in_use in_use.
Proof. intros key Hkey. exact Hkey. Qed.

Lemma keeps_keys_trans (a b c : list bool) :
  keeps_keys a b -> keeps_keys b c -> keeps_keys a c.
Proof. intros Hab Hbc key Hkey. apply Hbc, Hab, Hkey. Qed.

Lemma keeps_keys_insert (in_use : list bool) (k : nat) :
  keeps_keys in_use (<[k := true]> in_use).
Proof.
  intros key Hkey. destruct (decide (k = key)) as [->|Hne].
  - rewrite list_lookup_insert_eq by (apply (lookup_lt_Some _ _ _ Hkey)).
    reflexivity.
  - rewrite list_lookup_insert_ne by exact Hne. exact Hkey.
Qed.

(** Whatever comes of it, [setupRegion] touches no entry of the register,
    releases no key, and calls nothing but [ReserveKey], [Remove] and
    [Create]. *)
Lemma setupRegion_any (layout : DataLayout) (w w' : World)
  (r : outcome RegionHandle) :
  setupRegion layout w = (r, w') ->
  regions (w_register w') = regions (w_register w) /\
  w_timed_lock w' = w_timed_lock w /\
  keeps_keys (shm_key_in_use (w_register w)) (shm_key_in_use (w_register w')) /\
  exists evs, w_trace w' = (w_trace w ++ evs)%list /\ Forall setup_call evs.
Proof.
  unfold setupRegion, ReserveKey, RegionExists, Remove,
    makeSharedMemory_create, write_header, get_register, put_register,
    get_segments, put_segments, emit, ret, throw.
  cbv beta iota delta [mbind M_bind mret M_ret].
  destruct (list_find (fun b => b = false) (shm_key_in_use (w_register w)))
    as [[k b]|]; cbn.
  2: { intros Heq; inversion Heq; subst. split; [reflexivity|].
       split; [reflexivity|]. split; [apply keeps_keys_refl|].
       exists []. rewrite app_nil_r. split; [reflexivity | constructor]. }
  destruct (bool_decide (is_Some (w_segments w !! k))); cbn.
  1: destruct (hd true (w_remove_results w)); cbn.
  1: rewrite lookup_delete_eq; cbn.
  2,3: destruct (w_segments w !! k); cbn.
  all: intros Heq; inversion Heq; subst; cbn.
  all: split; [reflexivity|]; split; [reflexivity|];
    split; [apply keeps_keys_insert|];
    eexists; rewrite <- ?app_assoc; split; [reflexivity|];
    cbn; repeat constructor.
Qed.

Lemma planned_inv (o r : outcome DataLayout) (w w' : World) :
  planned o w = (r, w') -> r = o /\ w' = w.
Proof. destruct o; intros Heq; inversion Heq; auto. Qed.

(** A [swapData] that throws has taken the mutex, run a part of the swap
    loop and released the mutex; it has released no key. *)
Lemma swapData_throw_shape (handles : list (string * RegionHandle))
  (max_wait : Z) (w w' : World) (e : Error) :
  swapData handles max_wait w = (Throw e, w') ->
  shm_key_in_use (w_register w') = shm_key_in_use (w_register w) /\
  exists ev body,
    w_trace w' = (w_trace w ++ ev :: body ++ [EvUnlock])%list /\
    lock_call ev /\ Forall swap_call body.
Proof.
  intros Hs. apply swapData_cases in Hs.
  destruct Hs as [ev [wl [Hlc [_ [Ht [Hreg [_ [_ Hcase]]]]]]]].
  destruct Hcase as [[_ [Hr _]]|[_ [rl [w1 [Hloop Hend]]]]]; [discriminate Hr|].
  destruct Hend as [[e' [-> [_ ->]]]|[olds [_ [Hr _]]]]; [|discriminate Hr].
  pose proof (swap_loop_calls _ _ _ _ _ Hloop) as [[body [Htb Hbody]] _].
  pose proof (swap_loop_frame _ _ _ _ _ Hloop) as [_ [_ [_ [Hk1 _]]]].
  simpl. split; [congruence|].
  exists ev, body. split; [|auto].
  rewrite Htb, Ht, <- !app_assoc. reflexivity.
Qed.

Lemma static_differs_from_updatable (dataset_name : string) :
  dataset_name +:+ "/static" ≠ dataset_name +:+ "/updatable".
Proof.
  induction dataset_name as [|c rest IH].
  - discriminate.
  - intros Heq. apply IH. inversion Heq. reflexivity.
Qed.

Lemma suffixed_name_not_empty (dataset_name suffix : string) :
  suffix ≠ EmptyString -> dataset_name +:+ suffix ≠ EmptyString.
Proof. destruct dataset_name; [auto | discriminate]. Qed.

Section Publisher.
Variable config : StorageConfig.
Variable fs : FileSystem.


(** X18.  When [Run] returns and the monitor mutex was taken, the register
    has an entry for [<dataset>/static] and one for [<dataset>/updatable],
    and they name two different keys, both of which were free when [Run]
    began. *)
Theorem Run_registers_both_regions (max_wait : Z) (dataset_name : string)
  (w w' : World) (code : Z) :
  Run config fs max_wait dataset_name w = (Return code, w') ->
  acquires max_wait w = true ->
  exists id1 r1 id2 r2,
    entry_of (w_register w') (dataset_name +:+ "/static") = Some (id1, r1) /\
    entry_of (w_register w') (dataset_name +:+ "/updatable") = Some (id2, r2) /\
    SharedRegion.shm_key r1 ≠ SharedRegion.shm_key r2 /\
    shm_key_in_use (w_register w) !! SharedRegion.shm_key r1 = Some false /\
    shm_key_in_use (w_register w) !! SharedRegion.shm_key r2 = Some false.
Proof.
  unfold Run. intros Hrun Hacq.
  apply bind_inv in Hrun.
  destruct Hrun as [[l [w1 [Hplan Hrun]]]|[e1 [_ He]]]; [|discriminate He].
  apply planned_inv in Hplan. destruct Hplan as [_ ->].
  apply bind_inv in Hrun.
  destruct Hrun as [[h1 [w2 [Hset1 Hrun]]]|[e1 [_ He]]]; [|discriminate He].
  apply bind_inv in Hrun.
  destruct Hrun as [[[] [w3 [Hpop1 Hrun]]]|[e1 [_ He]]]; [|discriminate He].
  apply bind_inv in Hrun.
  destruct Hrun as [[l2 [w4 [Hplan2 Hrun]]]|[e1 [_ He]]]; [|discriminate He].
  apply planned_inv in Hplan2. destruct Hplan2 as [_ ->].
  apply bind_inv in Hrun.
  destruct Hrun as [[h2 [w5 [Hset2 Hrun]]]|[e1 [_ He]]]; [|discriminate He].
  apply bind_inv in Hrun.
  destruct Hrun as [[[] [w6 [Hpop2 Hrun]]]|[e1 [_ He]]]; [|discriminate He].
  apply bind_inv in Hrun.
  destruct Hrun as [[b [w7 [Hswap Hrun]]]|[e1 [_ He]]]; [|discriminate He].
  inversion Hrun; subst; clear Hrun.
  apply setupRegion_inv in Hset1.
  destruct Hset1 as [_ [Hf1 [Huse1 [_ [_ Htl1]]]]].
  apply setupRegion_inv in Hset2.
  destruct Hset2 as [_ [Hf2 [_ [_ [_ Htl2]]]]].
  destruct (PopulateStaticData_fills_only _ _ _ _ _ _ _ Hpop1)
    as [Hreg1 [_ [_ [Htl1' _]]]].
  destruct (PopulateStaticData_fills_only _ _ _ _ _ _ _ Hpop2)
    as [Hreg2 [_ [_ [Htl2' _]]]].
  apply list_find_Some in Hf1. destruct Hf1 as [Hk1 _].
  apply list_find_Some in Hf2. destruct Hf2 as [Hk2 _].
  rewrite Hreg1, Huse1 in Hk2.
  assert (Hne : shm_key h1 ≠ shm_key h2).
  { intros Heq. rewrite <- Heq in Hk2.
    rewrite list_lookup_insert_eq in Hk2 by (apply (lookup_lt_Some _ _ _ Hk1)).
    discriminate Hk2. }
  rewrite list_lookup_insert_ne in Hk2 by exact Hne.
  assert (Hacq6 : acquires max_wait w6 = true).
  { unfold acquires in *. destruct (bool_decide (0 <= max_wait)%Z); congruence. }
  apply swapData_cases in Hswap.
  destruct Hswap as [ev [wl [_ [_ [_ [Hregl [_ [_ Hcase]]]]]]]].
  destruct Hcase as [[Hno _]|[_ [rl [wa [Hloop Hend]]]]]; [congruence|].
  destruct Hend as [[e [_ [Hr _]]]|[olds [-> [_ Hret]]]]; [discriminate Hr|].
  destruct (for_each_retire_spec olds (notify_all (unlock wa).2).2)
    as [wb [Hret' [_ Hregs]]].
  rewrite Hret' in Hret. inversion Hret; subst wb. simpl in Hregs.
  assert (Hnd : NoDup [ (dataset_name +:+ "/static", h1);
                        (dataset_name +:+ "/updatable", h2) ].*1).
  { simpl. apply NoDup_cons. split.
    - intros Hin. apply list_elem_of_singleton in Hin.
      apply (static_differs_from_updatable _ Hin).
    - apply NoDup_singleton. }
  assert (Hent : forall n h,
    (n, h) ∈ [ (dataset_name +:+ "/static", h1);
               (dataset_name +:+ "/updatable", h2) ] ->
    n ≠ EmptyString ->
    exists id r, entry_of (w_register w') n = Some (id, r) /\
                 SharedRegion.shm_key r = shm_key h).
  { intros n h Hin Hn.
    pose proof (swap_loop_entry _ _ _ _ _ n h Hnd Hin Hn Hloop) as He.
    unfold entry_of in *. rewrite Hregs.
    destruct (list_find (fun r => SharedRegion.name r = n)
                (regions (w_register wl))) as [[id old]|].
    - eexists _, _. split; [exact He | reflexivity].
    - destruct He as [id He]. eexists _, _. split; [exact He | reflexivity]. }
  destruct (Hent (dataset_name +:+ "/static") h1) as [id1 [r1 [He1 Hk1']]];
    [repeat constructor | apply suffixed_name_not_empty; discriminate |].
  destruct (Hent (dataset_name +:+ "/updatable") h2) as [id2 [r2 [He2 Hk2']]];
    [repeat constructor | apply suffixed_name_not_empty; discriminate |].
  exists id1, r1, id2, r2. rewrite Hk1', Hk2'. auto.
Qed.

End Publisher.


Lemma Run_registers_both_regions_witness :
  exists id1 r1 id2 r2,
    entry_of
      (w_register
         (Run Demo.config (Demo.required_files 5) (-1) "alpha" Demo.boot).2)
      "alpha/static" = Some (id1, r1) /\
    entry_of
      (w_register
         (Run Demo.config (Demo.required_files 5) (-1) "alpha" Demo.boot).2)
      "alpha/updatable" = Some (id2, r2) /\
    SharedRegion.shm_key r1 ≠ SharedRegion.shm_key r2.
Proof.
  destruct (Run_registers_both_regions Demo.config (Demo.required_files 5)
              (-1) "alpha" Demo.boot
              (Run Demo.config (Demo.required_files 5) (-1) "alpha"
                 Demo.boot).2 0)
    as [id1 [r1 [id2 [r2 [H1 [H2 [Hne _]]]]]]].
  - assert (Hfst : (Run Demo.config (Demo.required_files 5) (-1) "alpha"
                      Demo.boot).1 = Return 0%Z) by (vm_compute; reflexivity).
    rewrite <- Hfst. apply surjective_pairing.
  - reflexivity.
  - exists id1, r1, id2, r2. auto.
Defined.

End RunFacts.

(* ===================================================================== *)
(** * Further properties: the lookups of the two caches *)
(* ===================================================================== *)

Module LookupFacts.

Section WithHash.
Context `{Cache.StdHash}.

(** X19.  [GetDuration] answers a miss with [MAXIMAL_EDGE_DURATION] and
    leaves the cache as it is; but the answer [MAXIMAL_EDGE_DURATION] does
    not tell a miss from a hit, since [AddEdge] stores that duration like any
    other: only [IsEdgeInCache] tells them apart. *)
Theorem sentinel_does_not_tell_a_miss (c : Cache.UnpackingCache)
  (edge : Cache.Key) :
  Cache.IsEdgeInCache c edge = false ->
  Cache.GetDuration c edge = (Cache.MAXIMAL_EDGE_DURATION, c) /\
  Cache.IsEdgeInCache (Cache.AddEdge c edge Cache.MAXIMAL_EDGE_DURATION) edge
  = true /\
  (Cache.GetDuration (Cache.AddEdge c edge Cache.MAXIMAL_EDGE_DURATION) edge).1
  = Cache.MAXIMAL_EDGE_DURATION.
Proof.
  unfold Cache.IsEdgeInCache, Cache.GetDuration, Cache.AddEdge,
    Cache.lru_contains, Cache.lru_get, Cache.lru_insert.
  intros Hmiss. apply bool_decide_eq_false in Hmiss.
  destruct (Cache.m_map c !! Cache.HashKey edge) as [d|] eqn:Hd.
  { exfalso. apply Hmiss. eexists; reflexivity. }
  split; [reflexivity|]. cbn [Cache.m_map].
  rewrite lookup_insert_eq. split; [|reflexivity].
  apply bool_decide_eq_true. eexists; reflexivity.
Qed.

End WithHash.

Lemma sentinel_does_not_tell_a_miss_witness :
  let c := Cache.new_UnpackingCache 2 in
  @Cache.GetDuration Cache.classic_hash c (1, 2, 0, 0)%Z
  = (Cache.MAXIMAL_EDGE_DURATION, c) /\
  @Cache.IsEdgeInCache Cache.classic_hash
    (@Cache.AddEdge Cache.classic_hash c (1, 2, 0, 0)%Z
       Cache.MAXIMAL_EDGE_DURATION) (1, 2, 0, 0)%Z
  = true.
Proof.
  intros c.
  destruct (@sentinel_does_not_tell_a_miss Cache.classic_hash c (1, 2, 0, 0)%Z)
    as [Hget [Hin _]].
  - reflexivity.
  - split; [exact Hget | exact Hin].
Defined.

Section Annotations.
Import AnnotationCache.
Variable EdgeDistance : Type.
Variable MAXIMAL_EDGE_DISTANCE : EdgeDistance.

(** X20.  [Clear] leaves the cache at the timestamp it is given.  With the
    timestamp the cache already has, it changes nothing; with another one,
    every edge misses afterwards: [IsEdgeInCache] answers [false] and
    [GetAnnotation] the pair of the maximal duration and distance.  A second
    [Clear] with the same timestamp changes nothing. *)
Theorem Clear_forgets_on_new_timestamp (c : UnpackingCache EdgeDistance)
  (timestamp : Z) :
  current_data_timestamp _ (Clear _ c timestamp) = timestamp /\
  Clear _ (Clear _ c timestamp) timestamp = Clear _ c timestamp /\
  (timestamp = current_data_timestamp _ c -> Clear _ c timestamp = c) /\
  (timestamp ≠ current_data_timestamp _ c ->
   forall edge,
     IsEdgeInCache _ (Clear _ c timestamp) edge = false /\
     (GetAnnotation _ MAXIMAL_EDGE_DISTANCE (Clear _ c timestamp) edge).1
     = (Cache.MAXIMAL_EDGE_DURATION, MAXIMAL_EDGE_DISTANCE)).
Proof.
  assert (Hts : current_data_timestamp _ (Clear _ c timestamp) = timestamp).
  { unfold Clear. case_bool_decide as Hd; [reflexivity|].
    destruct (decide (current_data_timestamp _ c = timestamp)); tauto. }
  split; [exact Hts|]. split; [|split].
  - unfold Clear at 1. rewrite Hts.
    rewrite bool_decide_false by tauto. reflexivity.
  - intros ->. unfold Clear. rewrite bool_decide_false by tauto. reflexivity.
  - intros Hne edge. unfold Clear.
    rewrite bool_decide_true by congruence.
    unfold IsEdgeInCache, GetAnnotation, lru_contains, lru_get, lru_clear.
    cbn [cache m_map]. rewrite lookup_empty. split; [|reflexivity].
    apply bool_decide_eq_false. intros [x Hx]. discriminate Hx.
Qed.

(** X21.  The second cache is keyed by the edge itself, not by a hash of it:
    adding an edge that is not in the cache, when the cache is not full,
    changes the answer for no other edge, and the edge added gets its own
    annotation back. *)
Theorem distinct_edges_do_not_alias (c : UnpackingCache EdgeDistance)
  (edge other : Edge) (annotation : PathAnnotation EdgeDistance) :
  (lru_size (cache _ c) < m_capacity (cache _ c))%nat ->
  IsEdgeInCache _ c edge = false ->
  other ≠ edge ->
  IsEdgeInCache _ (AddEdge _ c edge annotation) other
  = IsEdgeInCache _ c other /\
  (GetAnnotation _ MAXIMAL_EDGE_DISTANCE (AddEdge _ c edge annotation) other).1
  = (GetAnnotation _ MAXIMAL_EDGE_DISTANCE c other).1 /\
  (GetAnnotation _ MAXIMAL_EDGE_DISTANCE (AddEdge _ c edge annotation) edge).1
  = annotation.
Proof.
  unfold IsEdgeInCache, GetAnnotation, AddEdge, lru_contains, lru_get,
    lru_insert.
  intros Hroom Hmiss Hne. apply bool_decide_eq_false in Hmiss.
  destruct (m_map (cache _ c) !! edge) as [d|] eqn:Hd.
  { exfalso. apply Hmiss. eexists; reflexivity. }
  apply Nat.leb_gt in Hroom. rewrite Hroom. cbn [cache m_map].
  rewrite lookup_insert_eq, lookup_insert_ne by congruence.
  split; [reflexivity|]. split; [|reflexivity].
  destruct (m_map (cache _ c) !! other); reflexivity.
Qed.

End Annotations.

Lemma distinct_edges_do_not_alias_witness :
  let c : AnnotationCache.UnpackingCache Z :=
    {| AnnotationCache.cache := AnnotationCache.lru_new 4;
       AnnotationCache.current_data_timestamp := 0 |} in
  AnnotationCache.IsEdgeInCache Z
    (AnnotationCache.AddEdge Z c (1, 2, 0)%Z (7, 9)%Z) (1, 2, 1)%Z
  = false.
Proof.
  intros c.
  destruct (distinct_edges_do_not_alias Z 0%Z c (1, 2, 0)%Z (1, 2, 1)%Z
              (7, 9)%Z) as [Hin _].
  - cbn. apply Nat.lt_0_succ.
  - reflexivity.
  - discriminate.
  - rewrite Hin. reflexivity.
Defined.

End LookupFacts.
